(** * Sentinel emergency routing: a shallow embedding of [routingService.js]
      and of the route controller, with the properties of the routing core.

    Number model.  A JavaScript number is modelled as a real number ([R]):
    arithmetic is exact, there is no NaN and no signed zero, and [Infinity]
    appears only where the source writes it (the [|| Infinity] defaults of
    the pathfinder and the start value of [findNearestNode], modelled by the
    type [score]).  [Math.sin], [Math.cos], [Math.sqrt] are the real
    functions; [Math.atan2] is written out by quadrant.  Loops whose trip
    count depends on the data carry an explicit budget of passes, and the
    facts say which budget is enough.

    Doubles.  The source computes in binary64, and four things there have
    no counterpart over the reals: [haversineDistance] is NaN between two
    points that are nearly antipodes, when rounding takes [a] above 1; it
    is about 3.4e-17 km, not 0, between two longitudes on a pole, and 0 by
    underflow between two points less than about 1e-160 degrees apart; a
    loop that adds a step to a number stalls when the step is below the
    spacing of the doubles at that number ([normalizeAngle] from 2^62 on,
    the grid loops for a tiny grid step); and 0 and -0 are two
    numbers for [Math.atan2].  Statements that hold of the source only
    inside a range carry that range as a hypothesis; statements about the
    exact formula say so.  Module [Binary64] gives the functions concerned
    once more over Rocq's binary64 floats, for the facts that depend on the
    rounding itself: the order of the multiplications of
    [calculateEdgeWeight], the stalling of [normalizeAngle], and the edge
    of distance 0 that the grid builder makes at the smallest grid step.

    Objects.  A [GraphNode] object is referenced from the [node] field of the
    connections that lead to it.  The fields [id], [lat], [lng] of a node are
    written once by its constructor, so a reference is modelled by the value
    [NodeRef] of these three fields; the mutable field [connections] is read
    through the graph, the store of all node objects.

    Surroundings.  Library functions ([toFixed], number to text,
    [turf.distance]) and what a call reads from outside ([Math.random],
    [Date.now], the accident-history query, the routing service seen from
    the controller) are parameters.

    Layout.  Modules [Js], [Geodesy], [Graph], [Enrichment], [Pathfinder],
    [Service], [Controller], [Lookup] and [Binary64] hold the embedding;
    module [Notions] holds the predicates that the statements are written
    with; the modules whose names end in [Facts] hold the lemmas and
    theorems. *)

From Stdlib Require Import Floats.
From Stdlib Require Import Reals Lra Lia List String Ascii Bool ZArith.
From Stdlib Require Import DecimalNat DecimalString FinFun.
From Stdlib Require Import Sorting.Sorted Sorting.Permutation.
From stdpp Require Import gmap strings.
Import ListNotations.

Set Warnings "-inexact-float".
Local Open Scope R_scope.

(* ================================================================== *)
(** * JavaScript numbers and [Math] *)
(* ================================================================== *)

Module Js.

(** [Math.atan2(y, x)], quadrant by quadrant.  The reals have one zero:
    where the source has [y = -0] and [x < 0] its value is [-PI], here
    [PI]. *)
Definition Math_atan2 (y x : R) : R :=
  if Rlt_dec 0 x then atan (y / x)
  else if Rlt_dec x 0 then
         if Rle_dec 0 y then atan (y / x) + PI else atan (y / x) - PI
  else if Rlt_dec 0 y then PI / 2
  else if Rlt_dec y 0 then - (PI / 2)
  else 0.

(** [Math.round(x)]: the integer nearest to [x], halves rounded up. *)
Definition Math_round (x : R) : R := IZR (Int_part (x + / 2)).

(** The comparisons [x < y] and [x <= y] as JavaScript booleans. *)
Definition Rltb (x y : R) : bool := if Rlt_dec x y then true else false.
Definition Rleb (x y : R) : bool := if Rle_dec x y then true else false.

Definition Math_min (x y : R) : R := Rmin x y.
Definition Math_max (x y : R) : R := Rmax x y.
Definition Math_abs (x : R) : R := Rabs x.

(** A number or [Infinity]: the values of [gScore.get(id) || Infinity]. *)
Inductive score : Type :=
| Fin (x : R)
| Infinity.

(** [v || Infinity] for [v] a number or [undefined]; the number 0 is falsy. *)
Definition orInfinity (v : option R) : score :=
  match v with
  | Some x => if Req_dec_T x 0 then Infinity else Fin x
  | None => Infinity
  end.

(** [s + w] for a finite [w]. *)
Definition score_plus (s : score) (w : R) : score :=
  match s with
  | Fin x => Fin (x + w)
  | Infinity => Infinity
  end.

(** [s < t]; [Infinity < t] is false for every [t]. *)
Definition score_ltb (s t : score) : bool :=
  match s, t with
  | Fin x, Fin y => Rltb x y
  | Fin _, Infinity => true
  | Infinity, _ => false
  end.

End Js.

(* ================================================================== *)
(** * Geodesy utilities *)
(* ================================================================== *)

Module Geodesy.
Import Js.

Definition toRadians (degrees : R) : R := degrees * PI / 180.
Definition toDegrees (radians : R) : R := radians * 180 / PI.

(** [haversineDistance(lat1, lng1, lat2, lng2)], in kilometres: the exact
    value of the formula.  In the doubles of the source [a] can come out
    above 1 between two points that are nearly antipodes, and the result
    is then NaN; see [Binary64.haversineDistance64] for the formula in
    binary64. *)
Definition haversine_a (lat1 lng1 lat2 lng2 : R) : R :=
  let dLat := toRadians (lat2 - lat1) in
  let dLng := toRadians (lng2 - lng1) in
  sin (dLat / 2) * sin (dLat / 2) +
  cos (toRadians lat1) * cos (toRadians lat2) *
  sin (dLng / 2) * sin (dLng / 2).

Definition haversineDistance (lat1 lng1 lat2 lng2 : R) : R :=
  let R_ := 6371 in
  let a := haversine_a lat1 lng1 lat2 lng2 in
  let c := 2 * Math_atan2 (sqrt a) (sqrt (1 - a)) in
  R_ * c.

(** [calculateBearing(lat1, lng1, lat2, lng2)], in degrees. *)
Definition calculateBearing (lat1 lng1 lat2 lng2 : R) : R :=
  let dLng := toRadians (lng2 - lng1) in
  let lat1Rad := toRadians lat1 in
  let lat2Rad := toRadians lat2 in
  let y := sin dLng * cos lat2Rad in
  let x := cos lat1Rad * sin lat2Rad -
           sin lat1Rad * cos lat2Rad * cos dLng in
  toDegrees (Math_atan2 y x).

(** The two loops of [normalizeAngle].  Each takes an iteration budget and
    stops early when its condition fails.  Over the reals every pass
    brings the angle 360 closer, and the budget [turns] below always
    suffices; in the doubles of the source a pass leaves an angle of 2^62
    or more as it is, and the loop does not end
    ([Binary64.normalizeAngle64]). *)
Fixpoint while_above (budget : nat) (angle : R) : R :=
  match budget with
  | O => angle
  | S n => if Rlt_dec 180 angle then while_above n (angle - 360) else angle
  end.

Fixpoint while_below (budget : nat) (angle : R) : R :=
  match budget with
  | O => angle
  | S n => if Rlt_dec angle (-180) then while_below n (angle + 360) else angle
  end.

(** A budget that covers every pass of either loop on [angle]. *)
Definition turns (angle : R) : nat := Z.to_nat (up (Rabs angle / 360)).

Definition normalizeAngle (angle : R) : R :=
  let angle1 := while_above (turns angle) angle in
  while_below (turns angle1) angle1.

(** ** The sphere behind the haversine formula

    The point of the unit sphere at a latitude and longitude, the scalar
    product of two such points, and the central angle that
    [haversineDistance] multiplies by the Earth radius. *)
Definition sphere_x (la ln : R) : R := cos (toRadians la) * cos (toRadians ln).
Definition sphere_y (la ln : R) : R := cos (toRadians la) * sin (toRadians ln).
Definition sphere_z (la ln : R) : R := sin (toRadians la).

Definition sphere_dot (lat1 lng1 lat2 lng2 : R) : R :=
  sphere_x lat1 lng1 * sphere_x lat2 lng2 +
  sphere_y lat1 lng1 * sphere_y lat2 lng2 +
  sphere_z lat1 lng1 * sphere_z lat2 lng2.

Definition same_point (lat1 lng1 lat2 lng2 : R) : Prop :=
  sphere_x lat1 lng1 = sphere_x lat2 lng2 /\
  sphere_y lat1 lng1 = sphere_y lat2 lng2 /\
  sphere_z lat1 lng1 = sphere_z lat2 lng2.

Definition centralAngle (a : R) : R :=
  2 * Math_atan2 (sqrt a) (sqrt (1 - a)).

End Geodesy.

(* ================================================================== *)
(** * Graph data model and graph builder *)
(* ================================================================== *)

Module Graph.
Import Js Geodesy.

(** A reference to a node object: its three immutable fields. *)
Record NodeRef : Type := mkRef {
  ref_id : string;
  ref_lat : R;
  ref_lng : R
}.

(** An entry of [node.connections]. *)
Record Connection : Type := mkConnection {
  node : NodeRef;
  distance : R;
  trafficLevel : R;
  accidentRisk : R
}.

(** [class GraphNode]. *)
Record GraphNode : Type := mkGraphNode {
  id : string;
  lat : R;
  lng : R;
  type : string;
  connections : list Connection
}.

(** [new GraphNode(id, lat, lng)]: default type, no connection yet. *)
Definition new_GraphNode (i : string) (la ln : R) : GraphNode :=
  mkGraphNode i la ln "intersection" [].

Definition ref_of (n : GraphNode) : NodeRef := mkRef (id n) (lat n) (lng n).

(** The graph: the array of node objects, in creation order. *)
Definition Graph : Type := list GraphNode.

(** The object a reference points to, found by id as in the builder's
    [nodes] map.  A reference that names no node of the graph cannot be
    produced by the builder; it reads as a node without connections. *)
Definition deref (g : Graph) (r : NodeRef) : GraphNode :=
  match List.find (fun n => String.eqb (id n) (ref_id r)) g with
  | Some n => n
  | None => new_GraphNode (ref_id r) (ref_lat r) (ref_lng r)
  end.

Record Coordinate : Type := mkCoordinate { c_lat : R; c_lng : R }.

Record Bounds : Type := mkBounds {
  minLat : R; maxLat : R; minLng : R; maxLng : R
}.

(** [calculateBounds(start, end, buffer)]. *)
Definition calculateBounds (start end_ : Coordinate) (buffer : R) : Bounds :=
  mkBounds (Math_min (c_lat start) (c_lat end_) - buffer)
           (Math_max (c_lat start) (c_lat end_) + buffer)
           (Math_min (c_lng start) (c_lng end_) - buffer)
           (Math_max (c_lng start) (c_lng end_) + buffer).

(** The template string [`node_${nodeId}`]. *)
Definition node_name (nodeId : nat) : string :=
  "node_" ++ NilEmpty.string_of_uint (Nat.to_uint nodeId).

(** Inner loop of the node generation: one row of the grid, from [lng]
    on.  Returns the nodes and the next free [nodeId]; [None] when the
    budget of iterations is used up before the loop condition fails.
    [lng += gridSize] is exact here; in the source each addition rounds,
    so the last node of a row can fall on the other side of [maxLng] and
    the number of nodes can differ by one per row and per column. *)
Fixpoint gridRow (budget : nat) (b : Bounds) (gridSize la ln : R)
    (nodeId : nat) : option (list GraphNode * nat) :=
  match budget with
  | O => None
  | S k =>
      if Rle_dec ln (maxLng b) then
        match gridRow k b gridSize la (ln + gridSize) (S nodeId) with
        | Some (rest, next) =>
            Some (new_GraphNode (node_name nodeId) la ln :: rest, next)
        | None => None
        end
      else Some ([], nodeId)
  end.

(** Outer loop: the rows from [lat] on.  [lat += gridSize] is exact here
    as well; in the source a positive grid step below the spacing of the
    doubles at [lat] leaves [lat] as it is, and the loop does not end. *)
Fixpoint gridRows (budget : nat) (b : Bounds) (gridSize la : R)
    (nodeId : nat) : option (list GraphNode) :=
  match budget with
  | O => None
  | S k =>
      if Rle_dec la (maxLat b) then
        match gridRow budget b gridSize la (minLng b) nodeId with
        | Some (row, next) =>
            match gridRows k b gridSize (la + gridSize) next with
            | Some rest => Some (row ++ rest)
            | None => None
            end
        | None => None
        end
      else Some []
  end.

(** [findNeighbors(node, allNodes, gridSize)]. *)
Definition findNeighbors (n : GraphNode) (allNodes : list GraphNode)
    (gridSize : R) : list GraphNode :=
  let maxDistance := gridSize * 1.5 in
  List.filter (fun other =>
            if String.eqb (id other) (id n) then false
            else
              let dist := haversineDistance (lat n) (lng n)
                                            (lat other) (lng other) in
              if Rle_dec dist maxDistance then true else false)
         allNodes.

Section Builder.
(** [Math.random()]: the value returned by the k-th call. *)
Variable Math_random : nat -> R.

(** The connections pushed on [n] for its neighbours; [calls] counts the
    calls to [Math.random] made so far. *)
Fixpoint connect (calls : nat) (n : GraphNode) (neighbors : list GraphNode)
    : list Connection * nat :=
  match neighbors with
  | [] => ([], calls)
  | neighbor :: rest =>
      let d := haversineDistance (lat n) (lng n)
                                 (lat neighbor) (lng neighbor) in
      let c := mkConnection (ref_of neighbor) d
                            (Math_random calls * 0.5) 0.1 in
      let (cs, calls') := connect (S calls) n rest in
      (c :: cs, calls')
  end.

(** The loop [for (const node of nodeArray)] that connects the nodes. *)
Fixpoint connectNodes (calls : nat) (todo allNodes : list GraphNode)
    (gridSize : R) : list GraphNode :=
  match todo with
  | [] => []
  | n :: rest =>
      let (cs, calls') :=
        connect calls n (findNeighbors n allNodes gridSize) in
      mkGraphNode (id n) (lat n) (lng n) (type n) (connections n ++ cs)
      :: connectNodes calls' rest allNodes gridSize
  end.

(** [generateGridGraph(bounds, gridSize)]. *)
Definition generateGridGraph (budget : nat) (b : Bounds) (gridSize : R)
    : option Graph :=
  match gridRows budget b gridSize (minLat b) 0%nat with
  | Some nodeArray => Some (connectNodes 0 nodeArray nodeArray gridSize)
  | None => None
  end.
End Builder.

(** A strip of grid on the pole, and the graph built on it: two nodes on
    the 90th parallel, one grid step apart in longitude. *)
Definition pole_bounds : Bounds := mkBounds 90 90 0 0.005.

Definition pole_graph (Math_random : nat -> R) : Graph :=
  [ mkGraphNode "node_0" 90 0 "intersection"
      [ mkConnection (mkRef "node_1" 90 (0 + 0.005))
                     (haversineDistance 90 0 90 (0 + 0.005))
                     (Math_random 0%nat * 0.5) 0.1 ];
    mkGraphNode "node_1" 90 (0 + 0.005) "intersection"
      [ mkConnection (mkRef "node_0" 90 0)
                     (haversineDistance 90 (0 + 0.005) 90 0)
                     (Math_random 1%nat * 0.5) 0.1 ] ].

End Graph.

(* ================================================================== *)
(** * Risk enrichment *)
(* ================================================================== *)

Module Enrichment.
Import Js Geodesy Graph.

(** A row of the accident history: [location.coordinates] is
    [[lng, lat]]; [severity] may be absent. *)
Record Accident : Type := mkAccident {
  acc_lng : R;
  acc_lat : R;
  severity : option R
}.

(** [accident.severity || 5]. *)
Definition severity_or_5 (s : option R) : R :=
  match s with
  | Some x => if Req_dec_T x 0 then 5 else x
  | None => 5
  end.

Section Enrich.
(** [turf.distance(p, q, { units: 'meters' })] on [[lng, lat]] points,
    a function of the turf library. *)
Variable turf_distance : R * R -> R * R -> R.

(** The loop over the accidents for one edge centre: the pair
    [(nearbyAccidents, totalSeverity)]. *)
Definition tally_step (edgePoint : R * R) (acc : nat * R) (accident : Accident)
    : nat * R :=
  let (nearbyAccidents, totalSeverity) := acc in
  let accidentLoc := (acc_lng accident, acc_lat accident) in
  if Rlt_dec (turf_distance edgePoint accidentLoc) 200 then
    (S nearbyAccidents, totalSeverity + severity_or_5 (severity accident))
  else acc.

Definition tally (edgePoint : R * R) (accidents : list Accident) : nat * R :=
  fold_left (tally_step edgePoint) accidents (O, 0).

(** The centre of the edge from [n] along [connection]. *)
Definition edgeCenter (n : GraphNode) (connection : Connection)
    : Coordinate :=
  mkCoordinate ((lat n + ref_lat (node connection)) / 2)
               ((lng n + ref_lng (node connection)) / 2).

(** [turf.point([lng, lat])] at a coordinate. *)
Definition turf_point (c : Coordinate) : R * R := (c_lng c, c_lat c).

(** The risk written on one connection of [n]. *)
Definition enrichConnection (accidents : list Accident) (n : GraphNode)
    (connection : Connection) : Connection :=
  let edgePoint := turf_point (edgeCenter n connection) in
  let (nearbyAccidents, totalSeverity) := tally edgePoint accidents in
  if (0 <? nearbyAccidents)%nat then
    let avgSeverity := totalSeverity / INR nearbyAccidents in
    mkConnection (node connection) (distance connection)
                 (trafficLevel connection)
                 (Math_min 1 ((INR nearbyAccidents * avgSeverity) / 50))
  else connection.

(** [enrichWithAccidentData(graph)].  [query] is the outcome of the
    accident-history query: [None] when it is rejected, in which case the
    [catch] leaves the graph as it was. *)
Definition enrichWithAccidentData (graph : Graph)
    (query : option (list Accident)) : Graph :=
  match query with
  | Some accidents =>
      map (fun n =>
             mkGraphNode (id n) (lat n) (lng n) (type n)
                         (map (enrichConnection accidents n) (connections n)))
          graph
  | None => graph
  end.

(** The risk that the enrichment leaves on a connection. *)
Definition enrichedRisk (accidents : list Accident) (n : GraphNode)
    (connection : Connection) : R :=
  accidentRisk (enrichConnection accidents n connection).

End Enrich.

(** [turf.distance] in metres as turf computes it: the haversine formula
    on a sphere of radius 6371008.8 m. *)
Definition turf_haversine (p q : R * R) : R :=
  6371008.8 * centralAngle (haversine_a (snd p) (fst p) (snd q) (fst q)).

End Enrichment.

(* ================================================================== *)
(** * Pathfinder *)
(* ================================================================== *)

Module Pathfinder.
Import Js Geodesy Graph.

Record Options : Type := mkOptions {
  prioritizeSafety : bool;
  avoidTraffic : bool;
  maxDistance : option R;
  emergencyType : string
}.

(** [calculateEdgeWeight(connection, options)]. *)
Definition calculateEdgeWeight (connection : Connection) (options : Options)
    : R :=
  let weight := distance connection in
  let weight :=
    if avoidTraffic options then
      let trafficMultiplier := 1 + trafficLevel connection * 2 in
      weight * trafficMultiplier
    else weight in
  let weight :=
    if prioritizeSafety options then
      let safetyMultiplier := 1 + accidentRisk connection * 3 in
      weight * safetyMultiplier
    else weight in
  let weight :=
    if String.eqb (emergencyType options) "fire" then
      weight * (1 + accidentRisk connection)
    else weight in
  weight.

(** [heuristic(nodeA, nodeB)]. *)
Definition heuristic (nodeA nodeB : NodeRef) : R :=
  haversineDistance (ref_lat nodeA) (ref_lng nodeA)
                    (ref_lat nodeB) (ref_lng nodeB).

(** ** [class PriorityQueue] *)

Definition PriorityQueue : Type := list (GraphNode * R).

(** [items.sort((a, b) => a.priority - b.priority)]: a stable sort. *)
Fixpoint sort_insert (x : GraphNode * R) (items : PriorityQueue)
    : PriorityQueue :=
  match items with
  | [] => [x]
  | y :: rest =>
      if Rle_dec (snd x) (snd y) then x :: y :: rest
      else y :: sort_insert x rest
  end.

Definition sort_items (items : PriorityQueue) : PriorityQueue :=
  fold_right sort_insert [] items.

Definition enqueue (item : GraphNode) (priority : R) (q : PriorityQueue)
    : PriorityQueue :=
  sort_items (q ++ [(item, priority)]).

Definition dequeue (q : PriorityQueue) : option GraphNode * PriorityQueue :=
  match q with
  | [] => (None, [])
  | x :: rest => (Some (fst x), rest)
  end.

Definition isEmpty (q : PriorityQueue) : bool :=
  match q with [] => true | _ => false end.

(** ** Search state and path *)

Record Route : Type := mkRoute {
  nodes : list GraphNode;
  path_connections : list Connection
}.

Record SearchState : Type := mkState {
  openSet : PriorityQueue;
  closedSet : gset string;
  cameFrom : gmap string (GraphNode * Connection);
  gScore : gmap string R;
  fScore : gmap string R
}.

(** The loop of [reconstructPath]; [None] when the budget is used up. *)
Fixpoint walk_back (budget : nat)
    (cameFrom_ : gmap string (GraphNode * Connection))
    (current : GraphNode) (path : list GraphNode) (conns : list Connection)
    : option Route :=
  match budget with
  | O => None
  | S k =>
      match cameFrom_ !! id current with
      | Some (n, connection) =>
          walk_back k cameFrom_ n (n :: path) (connection :: conns)
      | None => Some (mkRoute path conns)
      end
  end.

(** [reconstructPath(cameFrom, current)].  A predecessor chain without a
    repeated id has at most [size cameFrom] links, so the budget below is
    used up only on a cyclic chain, where the source loops for ever. *)
Definition reconstructPath (cameFrom_ : gmap string (GraphNode * Connection))
    (current : GraphNode) : option Route :=
  walk_back (S (size cameFrom_)) cameFrom_ current [current] [].

Section Search.
Variable graph : Graph.
Variable endNode : GraphNode.
Variable options : Options.

(** The body of [for (const connection of current.connections)]. *)
Definition relax (current : GraphNode) (st : SearchState)
    (connection : Connection) : SearchState :=
  let neighbor := node connection in
  if decide (ref_id neighbor ∈ closedSet st) then st
  else
    let edgeWeight := calculateEdgeWeight connection options in
    let tentativeGScore :=
      score_plus (orInfinity (gScore st !! id current)) edgeWeight in
    if score_ltb tentativeGScore
                 (orInfinity (gScore st !! ref_id neighbor)) then
      match tentativeGScore with
      | Fin t =>
          let f := t + heuristic neighbor (ref_of endNode) in
          mkState (enqueue (deref graph neighbor) f (openSet st))
                  (closedSet st)
                  (<[ref_id neighbor := (current, connection)]> (cameFrom st))
                  (<[ref_id neighbor := t]> (gScore st))
                  (<[ref_id neighbor := f]> (fScore st))
      | Infinity => st
      end
    else st.

(** The [while (!openSet.isEmpty())] loop.  Outer [None]: no result
    within the budget; [Some None]: the source returns [null]. *)
Fixpoint search (budget : nat) (st : SearchState) : option (option Route) :=
  match budget with
  | O => None
  | S k =>
      match dequeue (openSet st) with
      | (None, _) => Some None
      | (Some current, rest) =>
          if String.eqb (id current) (id endNode) then
            match reconstructPath (cameFrom st) current with
            | Some route => Some (Some route)
            | None => None
            end
          else
            let st1 := mkState rest ({[id current]} ∪ closedSet st)
                               (cameFrom st) (gScore st) (fScore st) in
            search k (fold_left (relax current) (connections current) st1)
      end
  end.
End Search.

(** [aStarPathfinding(startNode, endNode, options)]. *)
Definition aStarPathfinding (graph : Graph) (budget : nat)
    (startNode endNode : GraphNode) (options : Options)
    : option (option Route) :=
  let h := heuristic (ref_of startNode) (ref_of endNode) in
  let gScore0 : gmap string R := {[id startNode := 0]} in
  let fScore0 : gmap string R := {[id startNode := h]} in
  let openSet0 := enqueue startNode h [] in
  search graph endNode options budget
         (mkState openSet0 ∅ ∅ gScore0 fScore0).

(** The goal is reachable from a node when a chain of connections leads
    from the node to a node with the goal's id. *)
Inductive reachable (graph : Graph) : GraphNode -> string -> Prop :=
| reach_here : forall n, reachable graph n (id n)
| reach_step : forall n connection goal,
    In connection (connections n) ->
    reachable graph (deref graph (node connection)) goal ->
    reachable graph n goal.

(** A walk through the graph: each connection leaves the node the previous
    one leads to. *)
Inductive graph_path (graph : Graph)
    : NodeRef -> list Connection -> NodeRef -> Prop :=
| path_stop : forall r, graph_path graph r [] r
| path_go : forall n connection rest goal,
    In n graph ->
    In connection (connections n) ->
    graph_path graph (node connection) rest goal ->
    graph_path graph (ref_of n) (connection :: rest) goal.

(** The weighted cost of a walk: the sum the search accumulates along it. *)
Definition path_cost (options : Options) (path : list Connection) : R :=
  fold_right (fun c acc => calculateEdgeWeight c options + acc) 0 path.

(** The edges of the data model: the distance of a connection is the
    great-circle distance between its two ends, congestion and risk lie in
    [0, 1]. *)
Definition edges_valid (graph : Graph) : Prop :=
  forall n c,
    In n graph -> In c (connections n) ->
    distance c = haversineDistance (lat n) (lng n)
                                   (ref_lat (node c)) (ref_lng (node c)) /\
    0 <= trafficLevel c <= 1 /\
    0 <= accidentRisk c <= 1.

End Pathfinder.

(* ================================================================== *)
(** * Instructions, metadata and the route service *)
(* ================================================================== *)

Module Service.
Import Js Geodesy Graph Pathfinder.

Record Instruction : Type := mkInstruction {
  step : nat;
  action : string;
  text : string;
  instr_distance : R;
  coordinates : option Coordinate
}.

(** [connections[i]?.distance || 0]. *)
Definition distance_or_0 (conns : list Connection) (i : nat) : R :=
  match nth_error conns i with
  | Some c => if Req_dec_T (distance c) 0 then 0 else distance c
  | None => 0
  end.

(** The [if]/[else if] chain that names the turn at an intermediate node:
    the pair [(action, text)]. *)
Definition classifyTurn (turnAngle : R) : string * string :=
  if Rltb 30 turnAngle && Rltb turnAngle 150 then
    ("turn_right", "Turn right")
  else if Rltb turnAngle (-30) && Rltb (-150) turnAngle then
    ("turn_left", "Turn left")
  else if Rleb 150 (Math_abs turnAngle) then
    ("u_turn", "Make a U-turn")
  else ("straight", "Continue straight").

(** The turn angle computed at [curr] between [prev] and [next]. *)
Definition turnAngleAt (prev curr next : GraphNode) : R :=
  let bearing1 := calculateBearing (lat prev) (lng prev) (lat curr) (lng curr) in
  let bearing2 := calculateBearing (lat curr) (lng curr) (lat next) (lng next) in
  normalizeAngle (bearing2 - bearing1).

(** The loop [for (let i = 1; i < nodes.length - 1; i++)]: [ns] is the
    part of [nodes] from index [i - 1] on. *)
Fixpoint intermediate (i : nat) (ns : list GraphNode)
    (conns : list Connection) : list Instruction :=
  match ns with
  | prev :: ((curr :: next :: _) as rest) =>
      let turn := classifyTurn (turnAngleAt prev curr next) in
      mkInstruction (i + 1) (fst turn) (snd turn) (distance_or_0 conns i)
                    (Some (mkCoordinate (lat curr) (lng curr)))
      :: intermediate (S i) rest conns
  | _ => []
  end.

Section Instructions.
(** [x.toFixed(digits)]. *)
Variable toFixed : R -> nat -> string.

(** [generateInstructions(route)]. *)
Definition generateInstructions (route : Route) : list Instruction :=
  let ns := nodes route in
  let conns := path_connections route in
  if (length ns <? 2)%nat then []
  else
    let second := nth 1 ns (new_GraphNode "" 0 0) in
    let start :=
      mkInstruction 1 "start"
        ("Head towards " ++ toFixed (lat second) 4 ++ ", "
                         ++ toFixed (lng second) 4)
        (distance_or_0 conns 0) None in
    let instructions := start :: intermediate 1 ns conns in
    instructions ++
    [mkInstruction (length instructions + 1) "arrive"
                   "You have arrived at your destination" 0 None].
End Instructions.

Record Criteria : Type := mkCriteria {
  shortestPath : bool;
  lowTraffic : bool;
  safePassage : bool;
  minimalTime : bool
}.

Record Metadata : Type := mkMetadata {
  totalDistanceKm : R;
  estimatedTimeMin : R;
  waypoints : nat;
  avgTrafficLevel : R;
  maxAccidentRisk : R;
  safetyScore : R;
  criteria : Criteria
}.

(** The accumulators of the loop in [calculateRouteMetadata]:
    [(totalDistance, totalTime, avgTraffic, maxAccidentRisk)]. *)
Definition metadata_step (acc : R * R * R * R) (conn : Connection)
    : R * R * R * R :=
  let '(totalDistance, totalTime, avgTraffic, maxRisk) := acc in
  let speedKmh := 30 * (1 - trafficLevel conn * 0.5) in
  (totalDistance + distance conn,
   totalTime + (distance conn / speedKmh) * 60,
   avgTraffic + trafficLevel conn,
   Math_max maxRisk (accidentRisk conn)).

(** [calculateRouteMetadata(route)]. *)
Definition calculateRouteMetadata (route : Route) : Metadata :=
  let conns := path_connections route in
  let '(totalDistance, totalTime, avgTraffic0, maxRisk) :=
    fold_left metadata_step conns (0, 0, 0, 0) in
  let avgTraffic :=
    if (0 <? length conns)%nat then avgTraffic0 / INR (length conns) else 0 in
  let safetyScore_ := Math_round ((1 - maxRisk) * 100) in
  mkMetadata (Math_round (totalDistance * 100) / 100)
             (Math_round totalTime)
             (length (nodes route))
             (Math_round (avgTraffic * 100) / 100)
             (Math_round (maxRisk * 100) / 100)
             safetyScore_
             (mkCriteria true
                         (Rltb avgTraffic 0.3)
                         (Rltb 70 safetyScore_)
                         (Rltb totalTime 30)).

Record GeoJSON : Type := mkGeoJSON {
  feature_type : string;
  name : string;
  description : string;
  geometry_type : string;
  geometry_coordinates : list (R * R)
}.

(** [convertToGeoJSON(route)]. *)
Definition convertToGeoJSON (route : Route) : GeoJSON :=
  mkGeoJSON "Feature" "Optimal Emergency Route"
            "Route optimized for safety, traffic, and time" "LineString"
            (map (fun n => (lng n, lat n)) (nodes route)).

(** [findNearestNode(graph, point)]: the loop state is
    [(nearest, minDist)], [minDist] starting at [Infinity].  The distances
    are the exact ones, all numbers; [findNearestNodeBy] below is the loop
    for distances that can be NaN. *)
Definition nearest_step (point : Coordinate)
    (acc : option GraphNode * score) (n : GraphNode)
    : option GraphNode * score :=
  let dist := haversineDistance (c_lat point) (c_lng point) (lat n) (lng n) in
  if score_ltb (Fin dist) (snd acc) then (Some n, Fin dist) else acc.

Definition findNearestNode (graph : Graph) (point : Coordinate)
    : option GraphNode :=
  fst (fold_left (nearest_step point) graph (None, Infinity)).

(** The same loop over distances that are numbers or NaN ([None]), NaN
    being what [haversineDistance] returns in the source when rounding
    takes its [a] above 1, between two points that are nearly antipodes:
    [dist < minDist] is false for NaN, and the node is passed over. *)
Definition nearest_step_by (dist : GraphNode -> option R)
    (acc : option GraphNode * score) (n : GraphNode)
    : option GraphNode * score :=
  match dist n with
  | Some d => if score_ltb (Fin d) (snd acc) then (Some n, Fin d) else acc
  | None => acc
  end.

Definition findNearestNodeBy (dist : GraphNode -> option R) (graph : Graph)
    : option GraphNode :=
  fst (fold_left (nearest_step_by dist) graph (None, Infinity)).

(** The [preferences] argument; an absent field takes its default. *)
Record Preferences : Type := mkPreferences {
  p_prioritizeSafety : option bool;
  p_avoidTraffic : option bool;
  p_maxDistance : option R;
  p_emergencyType : option string
}.

Definition noPreferences : Preferences := mkPreferences None None None None.

Inductive RouteResult : Type :=
| Success (route : GeoJSON) (instructions : list Instruction)
          (metadata : Metadata)
| Failure (error : string).

Definition success (r : RouteResult) : bool :=
  match r with Success _ _ _ => true | Failure _ => false end.

(** [this.graphCache]: from cache key to the cached graph and the time it
    was stored at. *)
Abbreviation GraphCache := (gmap string (Graph * R)).

(** [this.cacheExpiry], in milliseconds. *)
Definition cacheExpiry : R := 5 * 60 * 1000.

(** What one call of [calculateOptimalRoute] reads from its surroundings:
    the values [Math.random()] returns, in order; the outcome of the
    accident-history query ([None] when it is rejected); [Date.now()] at the
    cache lookup and when the new graph is stored. *)
Record World : Type := mkWorld {
  Math_random : nat -> R;
  accidentQuery : option (list Enrichment.Accident);
  now_lookup : R;
  now_store : R
}.

Section Route.
Variable toFixed : R -> nat -> string.
(** The text of a number inside a template string. *)
Variable toString : R -> string.
Variable turf_distance : R * R -> R * R -> R.

Definition cacheKey (start end_ : Coordinate) : string :=
  toString (c_lat start) ++ "," ++ toString (c_lng start) ++ "-" ++
  toString (c_lat end_) ++ "," ++ toString (c_lng end_).

(** [buildRouteGraph(start, end)]: the graph and the cache it leaves.
    [None]: the node generation does not end within [budget] passes. *)
Definition buildRouteGraph (cache : GraphCache) (world : World)
    (budget : nat) (start end_ : Coordinate)
    : option (Graph * GraphCache) :=
  let key := cacheKey start end_ in
  let build :=
    let bounds := calculateBounds start end_ 0.02 in
    match generateGridGraph (Math_random world) budget bounds 0.005 with
    | Some graph0 =>
        let graph :=
          Enrichment.enrichWithAccidentData turf_distance graph0
                                            (accidentQuery world) in
        Some (graph, <[key := (graph, now_store world)]> cache)
    | None => None
    end in
  match cache !! key with
  | Some (graph, timestamp) =>
      if Rlt_dec (now_lookup world - timestamp) cacheExpiry
      then Some (graph, cache)
      else build
  | None => build
  end.

(** Steps 2 to 5 of [calculateOptimalRoute], on the graph of step 1.
    [None]: the search gives no result within [budget] passes. *)
Definition routeOnGraph (graph : Graph) (budget : nat)
    (start end_ : Coordinate) (preferences : Preferences)
    : option RouteResult :=
  let options :=
    mkOptions (default true (p_prioritizeSafety preferences))
              (default true (p_avoidTraffic preferences))
              (p_maxDistance preferences)
              (default "general" (p_emergencyType preferences)) in
  match findNearestNode graph start, findNearestNode graph end_ with
  | Some startNode, Some endNode =>
      match aStarPathfinding graph budget startNode endNode options with
      | Some (Some route) =>
          let instructions := generateInstructions toFixed route in
          let metadata := calculateRouteMetadata route in
          Some (Success (convertToGeoJSON route) instructions metadata)
      | Some None => Some (Failure "No valid route found")
      | None => None
      end
  | _, _ => Some (Failure "Could not find valid route endpoints")
  end.

(** [calculateOptimalRoute(start, end, preferences)]: the result and the
    cache the call leaves. *)
Definition calculateOptimalRoute (cache : GraphCache) (world : World)
    (budget : nat) (start end_ : Coordinate) (preferences : Preferences)
    : option (RouteResult * GraphCache) :=
  match buildRouteGraph cache world budget start end_ with
  | Some (graph, cache') =>
      match routeOnGraph graph budget start end_ preferences with
      | Some result => Some (result, cache')
      | None => None
      end
  | None => None
  end.
End Route.

(** The turn classification in the words of the specification: straight
    below 30 degrees either way, right in the positive band from 30 to 150,
    left in the negative band from -30 to -150, u-turn from 150 on. *)
Definition spec_turn_action (turnAngle : R) : string :=
  if Rltb (Rabs turnAngle) 30 then "straight"
  else if Rleb 30 turnAngle && Rltb turnAngle 150 then "turn_right"
  else if Rleb turnAngle (-30) && Rltb (-150) turnAngle then "turn_left"
  else "u_turn".

End Service.

(* ================================================================== *)
(** * Route controller *)
(* ================================================================== *)

Module Controller.
Import Js Graph Service.

#[local] Set Warnings "-register-all".

(** The values of a parsed JSON request body, arrays left out, and
    [undefined].  The last constructor is no value of a body: it stands for
    the member of [Object.prototype] of that name, which a lookup in an
    object literal returns for a key that the literal does not define
    itself: a built-in function, which [res.json] leaves out of the answer
    (for ["__proto__"] the prototype object, which it writes as [{}]). *)
Inductive JsValue : Type :=
| JUndefined
| JNull
| JBool (b : bool)
| JNumber (x : R)
| JString (s : string)
| JObject (fields : list (string * JsValue))
| JNative (name : string).

(** [!!v]. *)
Definition truthy (v : JsValue) : bool :=
  match v with
  | JUndefined | JNull => false
  | JBool b => b
  | JNumber x => if Req_dec_T x 0 then false else true
  | JString s => negb (String.eqb s "")
  | JObject _ => true
  | JNative _ => true
  end.

Fixpoint lookup_field (fields : list (string * JsValue)) (key : string)
    : JsValue :=
  match fields with
  | [] => JUndefined
  | (k, v) :: rest => if String.eqb k key then v else lookup_field rest key
  end.

(** [v.key] for a [v] that is neither [null] nor [undefined]. *)
Definition prop (v : JsValue) (key : string) : JsValue :=
  match v with
  | JObject fields => lookup_field fields key
  | _ => JUndefined
  end.

(** The request: its body and what [validationResult(req)] holds after the
    chain [validateCalculateRoute()] has run. *)
Record Request : Type := mkRequest {
  body : JsValue;
  validationErrors : list string
}.

(** A facility as [findNearestService] returns it;
    [location.coordinates] is [[lng, lat]]. *)
Record ServiceInfo : Type := mkServiceInfo {
  service_name : string;
  service_type : string;
  service_lng : R;
  service_lat : R;
  distanceKm : R;
  service_timeMin : R
}.

(** Calls made to the routing service. *)
Inductive Call : Type :=
| CallFindNearestService (location serviceType : JsValue) (limit : nat)
| CallCalculateOptimalRoute (start destination preferences emergencyType : JsValue).

(** The bodies of the answers.  [NoServicesFound v] is the error message
    [`No ${destinationType} services found nearby`] for the destination
    type [v], which the template turns into text. *)
Inductive Payload : Type :=
| ValidationErrors (errors : list string)
| ErrorMessage (error : string)
| NoServicesFound (destinationType : JsValue)
| RouteFailure (result : RouteResult)
| RouteData (route : GeoJSON) (instructions : list Instruction)
            (metadata : Metadata) (destinationType : JsValue)
            (services : list ServiceInfo).

Record Response : Type := mkResponse {
  status : nat;
  payload : Payload
}.

(** The names that an object literal inherits from [Object.prototype]. *)
Definition inherited (key : string) : bool :=
  existsb (String.eqb key)
    ["constructor"; "hasOwnProperty"; "isPrototypeOf";
     "propertyIsEnumerable"; "toLocaleString"; "toString"; "valueOf";
     "__proto__"; "__defineGetter__"; "__defineSetter__";
     "__lookupGetter__"; "__lookupSetter__"].

(** Whether an object of a JSON body has an entry of the given name. *)
Definition has_own (fields : list (string * JsValue)) (key : string) : bool :=
  existsb (fun entry => String.eqb (fst entry) key) fields.

(** [table[key] || 'shelter'] for a table written as an object literal
    whose own entries are [own]: an own entry, else the inherited member of
    that name, which is truthy, else the default.  A key that is no text is
    turned into one ("undefined", "null", "true", a numeral, "[object
    Object]"), which names no entry; for an object with a "toString" entry
    of its own, which a JSON body cannot make a function, the conversion
    throws a [TypeError]: [None]. *)
Definition lookup_or_shelter (own : string -> option string)
    (key : JsValue) : option JsValue :=
  match key with
  | JString k =>
      match own k with
      | Some v => Some (JString v)
      | None => Some (if inherited k then JNative k else JString "shelter")
      end
  | JObject fields =>
      if has_own fields "toString" then None else Some (JString "shelter")
  | _ => Some (JString "shelter")
  end.

(** [destinationMap[emergencyType] || 'shelter'] of
    [autoDetermineDestination]. *)
Definition destinationMap (emergencyType : JsValue) : option JsValue :=
  lookup_or_shelter
    (fun k => match k with
              | "flood" | "earthquake" | "fire" | "storm" => Some "shelter"
              | "accident" | "medical" => Some "hospital"
              | "crime" => Some "police"
              | "fire_emergency" => Some "fire"
              | _ => None
              end%string)
    emergencyType.

(** [map[emergencyType] || 'shelter'] of [inferDestinationType]. *)
Definition inferDestinationType (emergencyType : JsValue)
    : option JsValue :=
  lookup_or_shelter
    (fun k => match k with
              | "flood" | "earthquake" | "fire" | "storm" => Some "shelter"
              | "accident" | "medical" => Some "hospital"
              | "crime" => Some "police"
              | _ => None
              end%string)
    emergencyType.

Definition location_of (s : ServiceInfo) : JsValue :=
  JObject [("lat", JNumber (service_lat s)); ("lng", JNumber (service_lng s))].

Section Handler.
(** The two operations of the routing service, as the controller sees
    them: each call is logged and answered by these functions. *)
Variable findNearestService : JsValue -> JsValue -> nat -> list ServiceInfo.
Variable calculateOptimalRoute :
  JsValue -> JsValue -> JsValue -> JsValue -> RouteResult.

(** What the handler leaves behind: the calls it made, in order, and the
    response it sent. *)
Definition Outcome : Type := (list Call * Response)%type.

Definition respond (calls : list Call) (code : nat) (p : Payload) : Outcome :=
  (calls, mkResponse code p).

(** [this] inside the handler: [true] when it is the controller object,
    [false] when it is [undefined], as it is for a method handed to the
    router without its object; a call [this.f(...)] then throws and the
    [catch] of the handler answers. *)
Variable this_bound : bool.

Definition internalError (calls : list Call) : Outcome :=
  respond calls 500 (ErrorMessage "Internal server error").

(** The end of [calculateRoute]: the route computation and the reply. *)
Definition routeAndReply (calls : list Call)
    (userLocation destination preferences emergencyType destinationType : JsValue)
    (services : list ServiceInfo) : Outcome :=
  let calls :=
    calls ++ [CallCalculateOptimalRoute userLocation destination
                                        preferences emergencyType] in
  match calculateOptimalRoute userLocation destination
                              preferences emergencyType with
  | Failure e => respond calls 500 (RouteFailure (Failure e))
  | Success route instructions metadata =>
      if truthy destinationType then
        respond calls 200
                (RouteData route instructions metadata destinationType
                           services)
      else if this_bound then
        match inferDestinationType emergencyType with
        | Some inferred =>
            respond calls 200
                    (RouteData route instructions metadata inferred services)
        | None => internalError calls
        end
      else internalError calls
  end.

(** [calculateRoute(req, res)]. *)
Definition calculateRoute (req : Request) : Outcome :=
  match validationErrors req with
  | _ :: _ => respond [] 400 (ValidationErrors (validationErrors req))
  | [] =>
      match body req with
      | JUndefined | JNull =>
          (* destructuring [req.body] throws *)
          internalError []
      | b =>
          let userLocation := prop b "userLocation" in
          let emergencyType := prop b "emergencyType" in
          let destinationType := prop b "destinationType" in
          let preferences := prop b "preferences" in
          if negb (truthy userLocation)
             || negb (truthy (prop userLocation "lat"))
             || negb (truthy (prop userLocation "lng")) then
            respond [] 400
              (ErrorMessage "Valid user location (lat, lng) is required")
          else if truthy destinationType then
            let services :=
              findNearestService userLocation destinationType 3 in
            let calls :=
              [CallFindNearestService userLocation destinationType 3] in
            match services with
            | [] => respond calls 404 (NoServicesFound destinationType)
            | first :: _ =>
                routeAndReply calls userLocation (location_of first)
                              preferences emergencyType destinationType
                              services
            end
          else if truthy (prop b "destination") then
            routeAndReply [] userLocation (prop b "destination")
                          preferences emergencyType destinationType []
          else if this_bound then
            (* [this.autoDetermineDestination(userLocation, emergencyType)] *)
            match destinationMap emergencyType with
            | Some serviceType =>
                let services :=
                  findNearestService userLocation serviceType 1 in
                let calls :=
                  [CallFindNearestService userLocation serviceType 1] in
                match services with
                | [] => respond calls 404
                          (ErrorMessage
                             "Could not determine appropriate destination")
                | first :: _ =>
                    routeAndReply calls userLocation (location_of first)
                                  preferences emergencyType destinationType
                                  services
                end
            | None => internalError []
            end
          else internalError []
      end
  end.
End Handler.

Section Validation.
(** The number a text denotes when express-validator's [isFloat] accepts
    it as a float. *)
Variable floatOfText : string -> option R.

Definition isObject (v : JsValue) : bool :=
  match v with JObject _ => true | _ => false end.

(** [isFloat({ min, max })] on a field that is not optional. *)
Definition isFloat (min max : R) (v : JsValue) : bool :=
  match v with
  | JNumber x => Rleb min x && Rleb x max
  | JString s =>
      match floatOfText s with
      | Some x => Rleb min x && Rleb x max
      | None => false
      end
  | _ => false
  end.

Definition isString (v : JsValue) : bool :=
  match v with JString _ => true | _ => false end.

Definition isIn (allowed : list string) (v : JsValue) : bool :=
  match v with
  | JString s => existsb (String.eqb s) allowed
  | _ => false
  end.

(** [.optional()]: the check is skipped on an absent field. *)
Definition optional (check : JsValue -> bool) (v : JsValue) : bool :=
  match v with JUndefined => true | _ => check v end.

Definition check (ok : bool) (message : string) : list string :=
  if ok then [] else [message].

(** The chain [validateCalculateRoute()] run on a body: the messages that
    [validationResult(req)] then holds. *)
Definition validateCalculateRoute (b : JsValue) : list string :=
  let userLocation := prop b "userLocation" in
  check (isObject userLocation) "userLocation must be an object" ++
  check (isFloat (-90) 90 (prop userLocation "lat")) "Invalid latitude" ++
  check (isFloat (-180) 180 (prop userLocation "lng")) "Invalid longitude" ++
  check (optional isString (prop b "emergencyType")) "Invalid value" ++
  check (optional (isIn ["shelter"; "hospital"; "police"; "fire"])
                  (prop b "destinationType")) "Invalid value" ++
  check (optional isObject (prop b "preferences")) "Invalid value".
End Validation.

End Controller.

(* ================================================================== *)
(** * Facility lookup *)
(* ================================================================== *)

Module Lookup.
Import Js Geodesy Graph Controller.

(** A row of the emergency-service table as the lookup reads it;
    [location.coordinates] is [[lng, lat]]. *)
Record ServiceRow : Type := mkServiceRow {
  row_name : string;
  row_type : string;
  row_lng : R;
  row_lat : R
}.

Section Query.
(** [EmergencyService.findAll] for a service type and a limit: the rows in
    the order the database returns them; [None] when the query is
    rejected, in which case the [catch] answers with no facility. *)
Variable findAll : string -> nat -> option (list ServiceRow).

(** [findNearestService(location, serviceType, limit)]. *)
Definition findNearestService (location : Coordinate) (serviceType : string)
    (limit : nat) : list ServiceInfo :=
  match findAll serviceType limit with
  | Some services =>
      map (fun service =>
             let distance :=
               haversineDistance (c_lat location) (c_lng location)
                                 (row_lat service) (row_lng service) in
             mkServiceInfo (row_name service) (row_type service)
                           (row_lng service) (row_lat service)
                           (Math_round (distance * 100) / 100)
                           (Math_round (distance * 2)))
          services
  | None => []
  end.
End Query.

End Lookup.

(* ================================================================== *)
(** * The source in binary64 *)
(* ================================================================== *)

(** Where the rounding of the JavaScript doubles decides what the source
    does, the function is given again over Rocq's primitive binary64
    floats, operation for operation: [+], [-], [*], [/], [Math.sqrt] and the
    comparisons are those of IEEE 754, which ECMAScript prescribes.
    [Math.sin], [Math.cos] and [Math.atan2], which ECMAScript leaves to the
    implementation, are parameters. *)
Module Binary64.
Import Graph Pathfinder.

Local Open Scope float_scope.

(** ** Nodes and connections *)

Record NodeRef64 : Type := mkRef64 {
  ref_id64 : string;
  ref_lat64 : float;
  ref_lng64 : float
}.

Record Connection64 : Type := mkConnection64 {
  node64 : NodeRef64;
  distance64 : float;
  trafficLevel64 : float;
  accidentRisk64 : float
}.





(** ** [calculateEdgeWeight] *)

(** [calculateEdgeWeight(connection, options)]. *)
Definition calculateEdgeWeight64 (connection : Connection64)
    (options : Options) : float :=
  let weight := distance64 connection in
  let weight :=
    if avoidTraffic options then
      let trafficMultiplier := 1 + trafficLevel64 connection * 2 in
      weight * trafficMultiplier
    else weight in
  let weight :=
    if prioritizeSafety options then
      let safetyMultiplier := 1 + accidentRisk64 connection * 3 in
      weight * safetyMultiplier
    else weight in
  let weight :=
    if String.eqb (emergencyType options) "fire" then
      weight * (1 + accidentRisk64 connection)
    else weight in
  weight.

(** ** [normalizeAngle] *)

(** The two loops, with a budget of passes; [None] when the budget is used
    up before the loop condition fails. *)
Fixpoint while_above64 (budget : nat) (angle : float) : option float :=
  match budget with
  | O => None
  | S k => if 180 <? angle then while_above64 k (angle - 360) else Some angle
  end.

Fixpoint while_below64 (budget : nat) (angle : float) : option float :=
  match budget with
  | O => None
  | S k => if angle <? -180 then while_below64 k (angle + 360) else Some angle
  end.

Definition normalizeAngle64 (budget : nat) (angle : float) : option float :=
  match while_above64 budget angle with
  | Some angle1 => while_below64 budget angle1
  | None => None
  end.

(** ** [haversineDistance] and the grid builder *)


Section Library.
Variable Math_sin : float -> float.
Variable Math_cos : float -> float.
Variable Math_atan2 : float -> float -> float.
Variable Math_random : nat -> float.








End Library.





End Binary64.

(* ================================================================== *)
(** * Notions used in the statements *)
(* ================================================================== *)

Module Notions.
Import Js Geodesy Graph Enrichment Pathfinder Service Controller.

(** ** The grid *)

(** The order in which the two loops of the builder create the nodes: row
    after row, and west to east within a row, one grid step apart. *)
Definition grid_before (gridSize : R) (n m : GraphNode) : Prop :=
  lat n + gridSize <= lat m \/
  (lat n = lat m /\ lng n + gridSize <= lng m).

(** A strip of grid on the equator, one grid step long, and the graph
    built on it: two nodes, 556 metres apart, without connection. *)
Definition equator_bounds : Bounds := mkBounds 0 0 0 0.005.

Definition equator_graph : Graph :=
  [ mkGraphNode "node_0" 0 0 "intersection" [];
    mkGraphNode "node_1" 0 (0 + 0.005) "intersection" [] ].



(** ** The edge weight *)

(** The multipliers that the options switch on, in the order in which the
    specification lists them: congestion, safety, fire. *)
Definition multipliers (connection : Connection) (options : Options)
    : list R :=
  (if avoidTraffic options then [1 + trafficLevel connection * 2] else []) ++
  (if prioritizeSafety options then [1 + accidentRisk connection * 3]
   else []) ++
  (if String.eqb (emergencyType options) "fire"
   then [1 + accidentRisk connection] else []).

(** The same list for the binary64 weight. *)
Definition multipliers64 (connection : Binary64.Connection64)
    (options : Options)
    : list float :=
  ((if avoidTraffic options
    then [1 + Binary64.trafficLevel64 connection * 2] else []) ++
   (if prioritizeSafety options
    then [1 + Binary64.accidentRisk64 connection * 3] else []) ++
   (if String.eqb (emergencyType options) "fire"
    then [1 + Binary64.accidentRisk64 connection] else []))%float.

(** ** The enrichment *)

(** Everything in a graph but the accident risks. *)
Definition topology (graph : Graph)
    : list (string * R * R * string * list (NodeRef * R * R)) :=
  map (fun n => (id n, lat n, lng n, type n,
                 map (fun c => (node c, distance c, trafficLevel c))
                     (connections n)))
      graph.

(** ** The queue and the predecessor chain *)

Definition by_priority (x y : GraphNode * R) : Prop := snd x <= snd y.

(** [ns] and [conns] follow the predecessor map: each node but the first
    is recorded with the node before it and the connection between them. *)
Fixpoint linked (cameFrom_ : gmap string (GraphNode * Connection))
    (ns : list GraphNode) (conns : list Connection) : Prop :=
  match ns, conns with
  | [_], [] => True
  | a :: ((b :: _) as rest), c :: cs =>
      cameFrom_ !! id b = Some (a, c) /\ linked cameFrom_ rest cs
  | _, _ => False
  end.

(** A predecessor map without cycle: a rank goes down along every link. *)
Definition acyclic (cameFrom_ : gmap string (GraphNode * Connection))
    (rank : string -> nat) : Prop :=
  forall key n connection,
    cameFrom_ !! key = Some (n, connection) -> (rank (id n) < rank key)%nat.

(** The keys of the map of rank at most [k]. *)
Definition below (cameFrom_ : gmap string (GraphNode * Connection))
    (rank : string -> nat) (k : nat) : gset string :=
  filter (fun key => (rank key <= k)%nat) (dom cameFrom_).

(** ** The nearest node *)

Definition distanceTo (point : Coordinate) (n : GraphNode) : R :=
  haversineDistance (c_lat point) (c_lng point) (lat n) (lng n).

(** The state of the loop of [findNearestNode] after the nodes
    [processed], for distances that are numbers or NaN: either no node had
    a number so far, or the state holds the first node at the least
    number. *)
Definition nearest_inv_by (dist : GraphNode -> option R)
    (processed : list GraphNode) (acc : option GraphNode * score) : Prop :=
  (acc = (None, Infinity) /\ Forall (fun m => dist m = None) processed) \/
  exists before n after d,
    processed = before ++ n :: after /\
    acc = (Some n, Fin d) /\ dist n = Some d /\
    Forall (fun m => forall dm, dist m = Some dm -> d < dm) before /\
    Forall (fun m => forall dm, dist m = Some dm -> d <= dm) after.

(** ** The controller *)

(** The destination type that a 200 answer carries: the one of the request
    when there is one; else what [inferDestinationType] returns, a text of
    its table or the default, or, for an emergency type named like a member
    of [Object.prototype], that member. *)
Definition answered_type (this_bound : bool)
    (emergencyType destinationType answered : JsValue) : Prop :=
  if truthy destinationType then answered = destinationType
  else
    this_bound = true /\
    inferDestinationType emergencyType = Some answered /\
    ((exists text, answered = JString text /\
                   In text ["shelter"; "hospital"; "police"]%string) \/
     (exists name, emergencyType = JString name /\ inherited name = true /\
                   answered = JNative name)).

(** The route computations among the calls of a handler run. *)
Definition routeCalls (calls : list Call) : list Call :=
  List.filter (fun c => match c with
                        | CallCalculateOptimalRoute _ _ _ _ => true
                        | _ => false
                        end) calls.

End Notions.

(* ================================================================== *)
(** * Properties of the geodesy utilities *)
(* ================================================================== *)

Module GeodesyFacts.
Import Js Geodesy.

Lemma haversine_a_sym lat1 lng1 lat2 lng2 :
  haversine_a lat1 lng1 lat2 lng2 = haversine_a lat2 lng2 lat1 lng1.
Proof.
  unfold haversine_a, toRadians.
  replace ((lat1 - lat2) * PI / 180 / 2)
    with (- ((lat2 - lat1) * PI / 180 / 2)) by field.
  replace ((lng1 - lng2) * PI / 180 / 2)
    with (- ((lng2 - lng1) * PI / 180 / 2)) by field.
  rewrite !sin_neg. ring.
Qed.

Lemma haversine_a_same lat lng : haversine_a lat lng lat lng = 0.
Proof.
  unfold haversine_a, toRadians.
  replace ((lat - lat) * PI / 180 / 2) with 0 by field.
  replace ((lng - lng) * PI / 180 / 2) with 0 by field.
  rewrite sin_0. ring.
Qed.

Lemma Math_atan2_0_1 : Math_atan2 0 1 = 0.
Proof.
  unfold Math_atan2.
  destruct (Rlt_dec 0 1) as [_ | H]; [| lra].
  replace (0 / 1) with 0 by field. apply atan_0.
Qed.

Lemma haversineDistance_sym lat1 lng1 lat2 lng2 :
  haversineDistance lat1 lng1 lat2 lng2 =
  haversineDistance lat2 lng2 lat1 lng1.
Proof.
  unfold haversineDistance. now rewrite (haversine_a_sym lat1 lng1 lat2 lng2).
Qed.

Lemma haversineDistance_same lat lng : haversineDistance lat lng lat lng = 0.
Proof.
  unfold haversineDistance.
  rewrite haversine_a_same, Rminus_0_r, sqrt_0, sqrt_1, Math_atan2_0_1.
  ring.
Qed.

(** C9.  The haversine distance is symmetric in its two coordinates, and
    it is 0 when both arguments are the same coordinate. *)
Theorem haversineDistance_symmetric_zero :
  (forall lat1 lng1 lat2 lng2,
      haversineDistance lat1 lng1 lat2 lng2 =
      haversineDistance lat2 lng2 lat1 lng1) /\
  (forall lat lng, haversineDistance lat lng lat lng = 0).
Proof.
  split; [exact haversineDistance_sym | exact haversineDistance_same].
Qed.

(** ** The haversine distance as a central angle *)

Lemma toRadians_minus x y : toRadians (x - y) = toRadians x - toRadians y.
Proof. unfold toRadians. field. Qed.

Lemma sin_half_sqr x : sin (x / 2) * sin (x / 2) = (1 - cos x) / 2.
Proof.
  replace x with (2 * (x / 2)) at 3 by field.
  rewrite cos_2a_sin. field.
Qed.

Lemma haversine_a_dot lat1 lng1 lat2 lng2 :
  haversine_a lat1 lng1 lat2 lng2 = (1 - sphere_dot lat1 lng1 lat2 lng2) / 2.
Proof.
  unfold haversine_a, sphere_dot, sphere_x, sphere_y, sphere_z.
  rewrite !toRadians_minus.
  set (p1 := toRadians lat1). set (p2 := toRadians lat2).
  set (l1 := toRadians lng1). set (l2 := toRadians lng2).
  rewrite sin_half_sqr.
  replace (cos p1 * cos p2 * sin ((l2 - l1) / 2) * sin ((l2 - l1) / 2))
    with (cos p1 * cos p2 * (sin ((l2 - l1) / 2) * sin ((l2 - l1) / 2)))
    by ring.
  rewrite sin_half_sqr, !cos_minus. field.
Qed.

Lemma sphere_norm la ln :
  sphere_x la ln * sphere_x la ln + sphere_y la ln * sphere_y la ln +
  sphere_z la ln * sphere_z la ln = 1.
Proof.
  unfold sphere_x, sphere_y, sphere_z.
  pose proof (sin2_cos2 (toRadians la)) as H1.
  pose proof (sin2_cos2 (toRadians ln)) as H2.
  unfold Rsqr in *. nra.
Qed.

Lemma sphere_dot_bounds lat1 lng1 lat2 lng2 :
  -1 <= sphere_dot lat1 lng1 lat2 lng2 <= 1.
Proof.
  unfold sphere_dot.
  pose proof (sphere_norm lat1 lng1) as H1.
  pose proof (sphere_norm lat2 lng2) as H2.
  set (x1 := sphere_x lat1 lng1) in *. set (y1 := sphere_y lat1 lng1) in *.
  set (z1 := sphere_z lat1 lng1) in *. set (x2 := sphere_x lat2 lng2) in *.
  set (y2 := sphere_y lat2 lng2) in *. set (z2 := sphere_z lat2 lng2) in *.
  pose proof (Rle_0_sqr (x1 - x2)). pose proof (Rle_0_sqr (y1 - y2)).
  pose proof (Rle_0_sqr (z1 - z2)). pose proof (Rle_0_sqr (x1 + x2)).
  pose proof (Rle_0_sqr (y1 + y2)). pose proof (Rle_0_sqr (z1 + z2)).
  unfold Rsqr in *. lra.
Qed.

Lemma haversine_a_range lat1 lng1 lat2 lng2 :
  0 <= haversine_a lat1 lng1 lat2 lng2 <= 1.
Proof.
  rewrite haversine_a_dot.
  pose proof (sphere_dot_bounds lat1 lng1 lat2 lng2). lra.
Qed.

(** The half angle [atan2 (sqrt a) (sqrt (1 - a))] lies in [0, PI/2] and
    has sine [sqrt a]. *)
Lemma half_angle_range a :
  0 <= a <= 1 ->
  0 <= Math_atan2 (sqrt a) (sqrt (1 - a)) <= PI / 2.
Proof.
  intros [Ha0 Ha1]. unfold Math_atan2.
  pose proof PI_RGT_0 as Hpi.
  pose proof (sqrt_pos a) as Hsa.
  pose proof (sqrt_pos (1 - a)) as Hsb.
  destruct (Rlt_dec 0 (sqrt (1 - a))) as [Hpos | Hnpos].
  - pose proof (atan_bound (sqrt a / sqrt (1 - a))) as [_ Hub].
    split; [| lra].
    rewrite <- atan_0.
    destruct (Req_dec (sqrt a) 0) as [Hz | Hnz].
    + rewrite Hz. unfold Rdiv. rewrite Rmult_0_l. lra.
    + left. apply atan_increasing. apply Rdiv_lt_0_compat; lra.
  - destruct (Rlt_dec (sqrt (1 - a)) 0) as [Hneg | _]; [lra |].
    destruct (Rlt_dec 0 (sqrt a)) as [_ | Hz]; [lra |].
    destruct (Rlt_dec (sqrt a) 0); lra.
Qed.

Lemma half_angle_sin a :
  0 <= a <= 1 ->
  sin (Math_atan2 (sqrt a) (sqrt (1 - a))) = sqrt a.
Proof.
  intros [Ha0 Ha1]. unfold Math_atan2.
  pose proof (sqrt_pos a) as Hsa.
  pose proof (sqrt_pos (1 - a)) as Hsb.
  destruct (Rlt_dec 0 (sqrt (1 - a))) as [Hpos | Hnpos].
  - rewrite sin_atan.
    assert (Hlt : 0 < 1 - a).
    { destruct (Rlt_dec 0 (1 - a)) as [H | H]; [exact H |].
      rewrite sqrt_neg_0 in Hpos by lra. lra. }
    assert (Hsq : sqrt (1 - a) * sqrt (1 - a) = 1 - a) by (apply sqrt_sqrt; lra).
    assert (Hsqa : sqrt a * sqrt a = a) by (apply sqrt_sqrt; lra).
    replace (1 + (sqrt a / sqrt (1 - a))²) with (/ (1 - a)).
    + rewrite sqrt_inv. field. lra.
    + unfold Rsqr. field_simplify_eq; [| split; lra]. nra.
  - assert (Hb0 : sqrt (1 - a) = 0) by lra.
    assert (Ha : a = 1).
    { apply sqrt_eq_0 in Hb0; lra. }
    destruct (Rlt_dec (sqrt (1 - a)) 0) as [Hneg | _]; [lra |].
    subst a. rewrite sqrt_1.
    destruct (Rlt_dec 0 1) as [_ | H]; [| lra].
    apply sin_PI2.
Qed.

Lemma centralAngle_range a : 0 <= a <= 1 -> 0 <= centralAngle a <= PI.
Proof.
  intros Ha. unfold centralAngle.
  pose proof (half_angle_range a Ha). lra.
Qed.

Lemma cos_centralAngle a : 0 <= a <= 1 -> cos (centralAngle a) = 1 - 2 * a.
Proof.
  intros Ha. unfold centralAngle.
  rewrite cos_2a_sin, half_angle_sin by exact Ha.
  assert (Hsqa : sqrt a * sqrt a = a) by (apply sqrt_sqrt; lra).
  lra.
Qed.

Lemma haversineDistance_angle lat1 lng1 lat2 lng2 :
  haversineDistance lat1 lng1 lat2 lng2 =
  6371 * centralAngle (haversine_a lat1 lng1 lat2 lng2).
Proof. reflexivity. Qed.

Lemma cos_haversine_angle lat1 lng1 lat2 lng2 :
  cos (centralAngle (haversine_a lat1 lng1 lat2 lng2)) =
  sphere_dot lat1 lng1 lat2 lng2.
Proof.
  rewrite cos_centralAngle by apply haversine_a_range.
  rewrite haversine_a_dot. field.
Qed.

Lemma haversineDistance_nonneg lat1 lng1 lat2 lng2 :
  0 <= haversineDistance lat1 lng1 lat2 lng2.
Proof.
  rewrite haversineDistance_angle.
  pose proof (centralAngle_range _ (haversine_a_range lat1 lng1 lat2 lng2)).
  lra.
Qed.

(** The Gram determinant of three unit vectors is a square. *)
Lemma gram_nonneg x1 y1 z1 x2 y2 z2 x3 y3 z3 :
  x1 * x1 + y1 * y1 + z1 * z1 = 1 ->
  x2 * x2 + y2 * y2 + z2 * z2 = 1 ->
  x3 * x3 + y3 * y3 + z3 * z3 = 1 ->
  let p := x1 * x2 + y1 * y2 + z1 * z2 in
  let q := x2 * x3 + y2 * y3 + z2 * z3 in
  let r := x1 * x3 + y1 * y3 + z1 * z3 in
  (r - p * q) * (r - p * q) <= (1 - p * p) * (1 - q * q).
Proof.
  intros H1 H2 H3 p q r.
  set (det := x1 * (y2 * z3 - z2 * y3) - y1 * (x2 * z3 - z2 * x3)
              + z1 * (x2 * y3 - y2 * x3)).
  assert (E : (x1 * x1 + y1 * y1 + z1 * z1) * (x2 * x2 + y2 * y2 + z2 * z2)
              * (x3 * x3 + y3 * y3 + z3 * z3)
              + 2 * p * q * r
              - (x1 * x1 + y1 * y1 + z1 * z1) * (q * q)
              - (x2 * x2 + y2 * y2 + z2 * z2) * (r * r)
              - (x3 * x3 + y3 * y3 + z3 * z3) * (p * p) = det * det).
  { subst p q r det. ring. }
  rewrite H1, H2, H3 in E.
  pose proof (Rle_0_sqr det) as Hd. unfold Rsqr in Hd.
  lra.
Qed.

Lemma centralAngle_triangle lat1 lng1 lat2 lng2 lat3 lng3 :
  centralAngle (haversine_a lat1 lng1 lat3 lng3) <=
  centralAngle (haversine_a lat1 lng1 lat2 lng2) +
  centralAngle (haversine_a lat2 lng2 lat3 lng3).
Proof.
  set (t12 := centralAngle (haversine_a lat1 lng1 lat2 lng2)).
  set (t23 := centralAngle (haversine_a lat2 lng2 lat3 lng3)).
  set (t13 := centralAngle (haversine_a lat1 lng1 lat3 lng3)).
  assert (R12 : 0 <= t12 <= PI) by apply centralAngle_range, haversine_a_range.
  assert (R23 : 0 <= t23 <= PI) by apply centralAngle_range, haversine_a_range.
  assert (R13 : 0 <= t13 <= PI) by apply centralAngle_range, haversine_a_range.
  destruct (Rle_dec PI (t12 + t23)) as [Hbig | Hsmall]; [lra |].
  destruct (Rle_dec t13 (t12 + t23)) as [Hok | Hbad]; [exact Hok | exfalso].
  assert (Hcos : cos t13 < cos (t12 + t23)).
  { apply cos_decreasing_1; lra. }
  rewrite cos_plus in Hcos.
  pose proof (cos_haversine_angle lat1 lng1 lat2 lng2) as C12.
  pose proof (cos_haversine_angle lat2 lng2 lat3 lng3) as C23.
  pose proof (cos_haversine_angle lat1 lng1 lat3 lng3) as C13.
  fold t12 in C12. fold t23 in C23. fold t13 in C13.
  pose proof (gram_nonneg _ _ _ _ _ _ _ _ _
                (sphere_norm lat1 lng1) (sphere_norm lat2 lng2)
                (sphere_norm lat3 lng3)) as G.
  cbv zeta in G. fold (sphere_dot lat1 lng1 lat2 lng2) in G.
  fold (sphere_dot lat2 lng2 lat3 lng3) in G.
  fold (sphere_dot lat1 lng1 lat3 lng3) in G.
  rewrite <- C12, <- C23, <- C13 in G.
  assert (S12 : 0 <= sin t12) by (apply sin_ge_0; lra).
  assert (S23 : 0 <= sin t23) by (apply sin_ge_0; lra).
  pose proof (sin2_cos2 t12) as Q12. pose proof (sin2_cos2 t23) as Q23.
  unfold Rsqr in Q12, Q23.
  assert (G' : (cos t13 - cos t12 * cos t23) * (cos t13 - cos t12 * cos t23)
               <= (sin t12 * sin t23) * (sin t12 * sin t23)).
  { replace (sin t12 * sin t23 * (sin t12 * sin t23))
      with ((1 - cos t12 * cos t12) * (1 - cos t23 * cos t23)) by nra.
    exact G. }
  assert (Hprod : 0 <= sin t12 * sin t23) by (apply Rmult_le_pos; lra).
  nra.
Qed.

Lemma haversineDistance_triangle lat1 lng1 lat2 lng2 lat3 lng3 :
  haversineDistance lat1 lng1 lat3 lng3 <=
  haversineDistance lat1 lng1 lat2 lng2 + haversineDistance lat2 lng2 lat3 lng3.
Proof.
  rewrite !haversineDistance_angle.
  pose proof (centralAngle_triangle lat1 lng1 lat2 lng2 lat3 lng3). lra.
Qed.

(** The distance is 0 exactly between two coordinates of one point of the
    sphere. *)
Lemma haversineDistance_zero_iff lat1 lng1 lat2 lng2 :
  haversineDistance lat1 lng1 lat2 lng2 = 0 <->
  same_point lat1 lng1 lat2 lng2.
Proof.
  pose proof (sphere_norm lat1 lng1) as N1.
  pose proof (sphere_norm lat2 lng2) as N2.
  split.
  - intros Hd. rewrite haversineDistance_angle in Hd.
    assert (Ht : centralAngle (haversine_a lat1 lng1 lat2 lng2) = 0) by lra.
    pose proof (cos_haversine_angle lat1 lng1 lat2 lng2) as Hc.
    rewrite Ht, cos_0 in Hc. unfold sphere_dot in Hc. unfold same_point.
    set (x1 := sphere_x lat1 lng1) in *. set (y1 := sphere_y lat1 lng1) in *.
    set (z1 := sphere_z lat1 lng1) in *. set (x2 := sphere_x lat2 lng2) in *.
    set (y2 := sphere_y lat2 lng2) in *. set (z2 := sphere_z lat2 lng2) in *.
    assert (Hsum : (x1 - x2) * (x1 - x2) + (y1 - y2) * (y1 - y2)
                   + (z1 - z2) * (z1 - z2) = 0) by lra.
    pose proof (Rle_0_sqr (x1 - x2)) as Hx.
    pose proof (Rle_0_sqr (y1 - y2)) as Hy.
    pose proof (Rle_0_sqr (z1 - z2)) as Hz. unfold Rsqr in *.
    assert (Ex : (x1 - x2) * (x1 - x2) = 0) by lra.
    assert (Ey : (y1 - y2) * (y1 - y2) = 0) by lra.
    assert (Ez : (z1 - z2) * (z1 - z2) = 0) by lra.
    apply Rsqr_0_uniq in Ex, Ey, Ez. repeat split; lra.
  - intros (Hx & Hy & Hz).
    assert (Ha : haversine_a lat1 lng1 lat2 lng2 = 0).
    { rewrite haversine_a_dot. unfold sphere_dot.
      rewrite Hx, Hy, Hz, N2. field. }
    unfold haversineDistance.
    rewrite Ha, Rminus_0_r, sqrt_0, sqrt_1, Math_atan2_0_1. ring.
Qed.


(** All longitudes meet at the pole. *)
Lemma haversineDistance_pole lng1 lng2 :
  haversineDistance 90 lng1 90 lng2 = 0.
Proof.
  apply haversineDistance_zero_iff.
  unfold same_point, sphere_x, sphere_y, sphere_z, toRadians.
  replace (90 * PI / 180) with (PI / 2) by field.
  rewrite cos_PI2. repeat split; ring.
Qed.

(** Half way round the equator. *)
Lemma haversineDistance_antipode :
  haversineDistance 0 0 0 180 = 6371 * PI.
Proof.
  rewrite haversineDistance_angle.
  assert (Ha : haversine_a 0 0 0 180 = 1).
  { rewrite haversine_a_dot.
    unfold sphere_dot, sphere_x, sphere_y, sphere_z, toRadians.
    replace (0 * PI / 180) with 0 by field.
    replace (180 * PI / 180) with PI by field.
    rewrite cos_0, sin_0, cos_PI, sin_PI. field. }
  rewrite Ha. unfold centralAngle, Math_atan2.
  replace (1 - 1) with 0 by ring. rewrite sqrt_0, sqrt_1.
  destruct (Rlt_dec 0 0) as [H | _]; [lra |].
  destruct (Rlt_dec 0 1) as [_ | H]; [field | lra].
Qed.

(** ** Two bearings *)

Lemma calculateBearing_north : calculateBearing (-1) 0 0 0 = 0.
Proof.
  unfold calculateBearing, toRadians, toDegrees.
  replace ((0 - 0) * PI / 180) with 0 by field.
  replace (0 * PI / 180) with 0 by field.
  rewrite sin_0, cos_0.
  replace (-1 * PI / 180) with (- (PI / 180)) by field.
  rewrite sin_neg, cos_neg.
  assert (Hs : 0 < sin (PI / 180)).
  { pose proof PI_RGT_0. apply sin_gt_0; lra. }
  unfold Math_atan2.
  destruct (Rlt_dec 0 (cos (PI / 180) * 0 - - sin (PI / 180) * 1 * 1))
    as [_ | H]; [| exfalso; lra].
  replace (0 * 1 / (cos (PI / 180) * 0 - - sin (PI / 180) * 1 * 1))
    with 0 by (field; lra).
  rewrite atan_0. field. pose proof PI_RGT_0; lra.
Qed.

Lemma atan_inv_sqrt3 : atan (/ sqrt 3) = PI / 6.
Proof.
  pose proof PI_RGT_0 as Hpi.
  replace (/ sqrt 3) with (tan (PI / 6)).
  - apply atan_tan. lra.
  - rewrite tan_PI6. unfold Rdiv. ring.
Qed.

Lemma calculateBearing_30 : calculateBearing 0 0 60 90 = 30.
Proof.
  unfold calculateBearing, toRadians, toDegrees.
  replace ((90 - 0) * PI / 180) with (PI / 2) by field.
  replace (0 * PI / 180) with 0 by field.
  replace (60 * PI / 180) with (PI / 3) by field.
  rewrite sin_0, cos_0, sin_PI2, cos_PI2, cos_PI3, sin_PI3.
  assert (H3 : 0 < sqrt 3) by (apply sqrt_lt_R0; lra).
  unfold Math_atan2.
  destruct (Rlt_dec 0 (1 * (sqrt 3 / 2) - 0 * (1 / 2) * 0)) as [_ | H];
    [| exfalso; lra].
  replace (1 * (1 / 2) / (1 * (sqrt 3 / 2) - 0 * (1 / 2) * 0))
    with (/ sqrt 3) by (field; lra).
  rewrite atan_inv_sqrt3. field. pose proof PI_RGT_0; lra.
Qed.

(** ** [normalizeAngle] *)

Lemma while_above_done n x : x <= 180 -> while_above n x = x.
Proof.
  intros Hx. destruct n; simpl; [reflexivity |].
  destruct (Rlt_dec 180 x); [lra | reflexivity].
Qed.

Lemma while_below_done n x : -180 <= x -> while_below n x = x.
Proof.
  intros Hx. destruct n; simpl; [reflexivity |].
  destruct (Rlt_dec x (-180)); [lra | reflexivity].
Qed.

(** With enough budget the first loop leaves through its condition, having
    subtracted 360 some number of times and never gone below -180. *)
Lemma while_above_spec n x :
  180 < x -> x < 360 * INR n ->
  -180 < while_above n x <= 180 /\
  exists k : Z, while_above n x = x + 360 * IZR k.
Proof.
  revert x. induction n as [| n IH]; intros x Hlo Hhi.
  - simpl in Hhi. lra.
  - rewrite S_INR in Hhi. simpl.
    destruct (Rlt_dec 180 x) as [_ | H]; [| lra].
    destruct (Rlt_dec 180 (x - 360)) as [Hbig | Hsmall].
    + destruct (IH (x - 360)) as [Hr [k Hk]]; [lra | lra |].
      split; [exact Hr |].
      exists (k - 1)%Z. rewrite Hk, minus_IZR. ring.
    + rewrite while_above_done by lra.
      split; [lra |]. exists (-1)%Z. ring.
Qed.

Lemma while_below_spec n x :
  x < -180 -> - (360 * INR n) < x ->
  -180 <= while_below n x < 180 /\
  exists k : Z, while_below n x = x + 360 * IZR k.
Proof.
  revert x. induction n as [| n IH]; intros x Hhi Hlo.
  - simpl in Hlo. lra.
  - rewrite S_INR in Hlo. simpl.
    destruct (Rlt_dec x (-180)) as [_ | H]; [| lra].
    destruct (Rlt_dec (x + 360) (-180)) as [Hsmall | Hbig].
    + destruct (IH (x + 360)) as [Hr [k Hk]]; [lra | lra |].
      split; [exact Hr |].
      exists (k + 1)%Z. rewrite Hk, plus_IZR. ring.
    + rewrite while_below_done by lra.
      split; [lra |]. exists 1%Z. ring.
Qed.

(** The budget [turns x] exceeds [|x| / 360]. *)
Lemma turns_enough x : Rabs x < 360 * INR (turns x).
Proof.
  unfold turns.
  assert (Hup : Rabs x / 360 < IZR (up (Rabs x / 360))) by apply archimed.
  assert (Habs : 0 <= Rabs x) by apply Rabs_pos.
  assert (Hpos : (0 <= up (Rabs x / 360))%Z).
  { apply le_IZR. assert (0 <= Rabs x / 360) by (apply Rmult_le_pos; lra). lra. }
  rewrite INR_IZR_INZ, Z2Nat.id by exact Hpos.
  lra.
Qed.

Lemma normalizeAngle_cases x :
  (x > 180 /\ -180 < normalizeAngle x <= 180 \/
   -180 <= x <= 180 /\ normalizeAngle x = x \/
   x < -180 /\ -180 <= normalizeAngle x < 180) /\
  exists k : Z, normalizeAngle x = x + 360 * IZR k.
Proof.
  unfold normalizeAngle.
  destruct (Rlt_dec 180 x) as [Hbig | Hnot].
  - assert (Hb : x < 360 * INR (turns x)).
    { pose proof (turns_enough x). pose proof (Rle_abs x). lra. }
    destruct (while_above_spec _ _ Hbig Hb) as [Hr Hk].
    rewrite while_below_done by lra.
    split; [left; split; [lra | exact Hr] | exact Hk].
  - rewrite while_above_done by lra.
    destruct (Rlt_dec x (-180)) as [Hsmall | Hmid].
    + assert (Hb : - (360 * INR (turns x)) < x).
      { pose proof (turns_enough x). pose proof (Rle_abs (- x)).
        rewrite Rabs_Ropp in *. lra. }
      destruct (while_below_spec _ _ Hsmall Hb) as [Hr Hk].
      split; [right; right; split; [lra | exact Hr] | exact Hk].
    + rewrite while_below_done by lra.
      split; [right; left; split; [lra | reflexivity] |].
      exists 0%Z. ring.
Qed.

(** Both loops of [normalizeAngle] are left through their condition: the
    budget [turns] never cuts a loop short. *)
Lemma normalizeAngle_loops_finish x :
  ~ 180 < while_above (turns x) x /\
  ~ normalizeAngle x < -180.
Proof.
  destruct (normalizeAngle_cases x) as [H _].
  split.
  - destruct (Rlt_dec 180 x) as [Hbig | Hnot].
    + assert (Hb : x < 360 * INR (turns x)).
      { pose proof (turns_enough x). pose proof (Rle_abs x). lra. }
      destruct (while_above_spec _ _ Hbig Hb) as [Hr _]. lra.
    + rewrite while_above_done by lra. lra.
  - destruct H as [[_ H] | [[H1 H2] | [_ H]]]; lra.
Qed.

Lemma normalizeAngle_closed_range x : -180 <= normalizeAngle x <= 180.
Proof.
  destruct (normalizeAngle_cases x) as [[[H0 H] | [[H1 H2] | [H0 H]]] _]; lra.
Qed.

(** C8, the claim at -180: the angle is returned as it is, outside the
    half-open interval. *)
Lemma normalizeAngle_minus_180_outside :
  normalizeAngle (-180) = -180 /\
  ~ (-180 < normalizeAngle (-180) <= 180).
Proof.
  assert (H : normalizeAngle (-180) = -180).
  { unfold normalizeAngle.
    rewrite while_above_done by lra. now rewrite while_below_done by lra. }
  split; [exact H |]. rewrite H. lra.
Qed.

(** The value -180 is returned for -180, -540, -900, ... and for no other
    angle. *)
Lemma normalizeAngle_minus_180_iff x :
  normalizeAngle x = -180 <-> exists k : nat, x = -180 - 360 * INR k.
Proof.
  destruct (normalizeAngle_cases x) as [H [k Hk]].
  split.
  - intros Hv. rewrite Hv in *.
    assert (Hx : x = -180 - 360 * IZR k) by lra.
    assert (Hpos : (0 <= k)%Z).
    { destruct H as [[H0 H] | [[H1 H2] | [H0 H]]]; [lra | |];
        apply le_IZR; lra. }
    exists (Z.to_nat k). rewrite INR_IZR_INZ, Z2Nat.id by exact Hpos.
    exact Hx.
  - intros [n Hn]. rewrite INR_IZR_INZ in Hn.
    assert (Hr : normalizeAngle x = -180 + 360 * IZR (k - Z.of_nat n)).
    { rewrite minus_IZR. lra. }
    assert (Hn0 : 0 <= IZR (Z.of_nat n)) by (apply IZR_le; lia).
    assert (Hrange : -180 <= normalizeAngle x < 180).
    { destruct H as [[H0 H] | [[H1 H2] | [H0 H]]]; lra. }
    assert (Hz : (k - Z.of_nat n = 0)%Z).
    { assert (H1 : (-1 < k - Z.of_nat n)%Z) by (apply lt_IZR; lra).
      assert (H2 : (k - Z.of_nat n < 1)%Z) by (apply lt_IZR; lra).
      lia. }
    rewrite Hr, Hz. lra.
Qed.

(** In binary64 the first loop makes no progress on an angle as large as
    1e20, where [angle - 360] rounds back to [angle]: no budget of passes
    ends it, and the call of the source does not return. *)
Lemma normalizeAngle64_stalls :
  forall budget, Binary64.normalizeAngle64 budget 1e20 = None.
Proof.
  intros budget. unfold Binary64.normalizeAngle64.
  assert (H : Binary64.while_above64 budget 1e20 = None).
  { induction budget as [| k IH]; [reflexivity |].
    change (Binary64.while_above64 (S k) 1e20)
      with (Binary64.while_above64 k 1e20).
    exact IH. }
  now rewrite H.
Qed.

(** On the angles of the theorem below the binary64 loops make the steps
    of the real ones: 540 comes back as 180 after one pass, -900 as -180
    after two. *)
Lemma normalizeAngle64_examples :
  Binary64.normalizeAngle64 3 540 = Some 180%float /\
  Binary64.normalizeAngle64 3 (-900) = Some (-180)%float.
Proof. split; reflexivity. Qed.

(** C8, amended.  For every angle [x] of magnitude at most 2^53,
    [normalizeAngle] returns a value of the closed interval [-180, 180]
    that differs from [x] by an integer multiple of 360; the value is -180
    exactly for the angles -180, -540, -900, ..., and lies in the half-open
    interval (-180, 180] for every other angle.  (Up to 2^53 both [x] and
    360 are multiples of the spacing of the doubles at [x], so each
    [angle -= 360] of the source is exact and the source makes the steps of
    the model; see [normalizeAngle64_stalls] for an angle beyond.) *)
Theorem normalizeAngle_range :
  forall x,
    Rabs x <= 9007199254740992 ->
    -180 <= normalizeAngle x <= 180 /\
    (normalizeAngle x = -180 <-> exists k : nat, x = -180 - 360 * INR k) /\
    ((forall k : nat, x <> -180 - 360 * INR k) ->
     -180 < normalizeAngle x <= 180) /\
    exists k : Z, normalizeAngle x = x + 360 * IZR k.
Proof.
  intros x _.
  pose proof (normalizeAngle_closed_range x) as Hc.
  pose proof (normalizeAngle_minus_180_iff x) as Hiff.
  destruct (normalizeAngle_cases x) as [_ Hk].
  split; [exact Hc |]. split; [exact Hiff |]. split; [| exact Hk].
  intros Hne.
  destruct (Req_dec (normalizeAngle x) (-180)) as [He | He]; [| lra].
  apply Hiff in He. destruct He as [k Hx]. now destruct (Hne k).
Qed.

(** C8, amended, at 540 degrees. *)
Lemma normalizeAngle_range_witness :
  Rabs 540 <= 9007199254740992 /\
  -180 <= normalizeAngle 540 <= 180 /\
  (normalizeAngle 540 = -180 <-> exists k : nat, 540 = -180 - 360 * INR k) /\
  ((forall k : nat, 540 <> -180 - 360 * INR k) ->
   -180 < normalizeAngle 540 <= 180) /\
  exists k : Z, normalizeAngle 540 = 540 + 360 * IZR k.
Proof.
  assert (H : Rabs 540 <= 9007199254740992).
  { unfold Rabs. destruct (Rcase_abs 540); lra. }
  split; [exact H | apply (normalizeAngle_range 540 H)].
Defined.

(** ** The range of the distance and of the bearing *)

Lemma haversineDistance_upper lat1 lng1 lat2 lng2 :
  haversineDistance lat1 lng1 lat2 lng2 <= 6371 * PI.
Proof.
  rewrite haversineDistance_angle.
  pose proof (centralAngle_range _ (haversine_a_range lat1 lng1 lat2 lng2)).
  lra.
Qed.

Lemma Math_atan2_range y x : - PI < Math_atan2 y x <= PI.
Proof.
  pose proof PI_RGT_0 as Hpi.
  unfold Math_atan2.
  destruct (Rlt_dec 0 x) as [Hx | Hx].
  - pose proof (atan_bound (y / x)). lra.
  - destruct (Rlt_dec x 0) as [Hneg | Hz].
    + assert (Hinv : / x < 0) by now apply Rinv_lt_0_compat.
      destruct (Rle_dec 0 y) as [Hy | Hy].
      * assert (Hq : y / x <= 0) by (unfold Rdiv; nra).
        pose proof (atan_bound (y / x)) as [Hlo _].
        assert (atan (y / x) <= 0).
        { rewrite <- atan_0. destruct Hq as [Hq | Hq].
          - left. now apply atan_increasing.
          - rewrite Hq. lra. }
        lra.
      * assert (Hq : 0 < y / x) by (unfold Rdiv; nra).
        pose proof (atan_bound (y / x)) as [_ Hhi].
        assert (0 < atan (y / x)).
        { rewrite <- atan_0. now apply atan_increasing. }
        lra.
    + destruct (Rlt_dec 0 y); [lra |]. destruct (Rlt_dec y 0); lra.
Qed.

(** On one meridian the bearing is the arc tangent of 0 over the sine of
    the difference of latitude. *)
Lemma calculateBearing_same_lng lat1 lat2 ln :
  calculateBearing lat1 ln lat2 ln =
  toDegrees (Math_atan2 0 (sin (toRadians lat2 - toRadians lat1))).
Proof.
  unfold calculateBearing. f_equal.
  replace (toRadians (ln - ln)) with 0 by (unfold toRadians; field).
  rewrite sin_0, cos_0, sin_minus. f_equal; ring.
Qed.

(** ** The distance and the difference of latitude *)

Lemma sphere_dot_lat lat1 lng1 lat2 lng2 :
  sphere_dot lat1 lng1 lat2 lng2 =
  cos (toRadians lat1) * cos (toRadians lat2) *
  cos (toRadians lng1 - toRadians lng2) +
  sin (toRadians lat1) * sin (toRadians lat2).
Proof.
  unfold sphere_dot, sphere_x, sphere_y, sphere_z. rewrite cos_minus. ring.
Qed.

Lemma cos_toRadians_nonneg la : -90 <= la <= 90 -> 0 <= cos (toRadians la).
Proof.
  intros H. pose proof PI_RGT_0.
  assert (la * PI <= 90 * PI) by (apply Rmult_le_compat_r; lra).
  assert ((-90) * PI <= la * PI) by (apply Rmult_le_compat_r; lra).
  apply cos_ge_0; unfold toRadians; lra.
Qed.

Lemma cos_Rabs x : cos (Rabs x) = cos x.
Proof.
  unfold Rabs. destruct (Rcase_abs x); [apply cos_neg | reflexivity].
Qed.

(** The central angle between two points is at least the angle between
    their parallels. *)
Lemma centralAngle_lat lat1 lng1 lat2 lng2 :
  -90 <= lat1 <= 90 -> -90 <= lat2 <= 90 ->
  Rabs (toRadians lat2 - toRadians lat1) <=
  centralAngle (haversine_a lat1 lng1 lat2 lng2).
Proof.
  intros H1 H2. pose proof PI_RGT_0 as Hpi.
  pose proof (centralAngle_range _ (haversine_a_range lat1 lng1 lat2 lng2))
    as Hrange.
  pose proof (cos_haversine_angle lat1 lng1 lat2 lng2) as Hcos.
  set (theta := centralAngle _) in *.
  set (d := Rabs (toRadians lat2 - toRadians lat1)).
  assert (Hd : 0 <= d <= PI).
  { unfold d, toRadians. split; [apply Rabs_pos |].
    assert (Hup : (lat2 - lat1) * PI <= 180 * PI)
      by (apply Rmult_le_compat_r; lra).
    assert (Hdn : (-180) * PI <= (lat2 - lat1) * PI)
      by (apply Rmult_le_compat_r; lra).
    apply Rabs_le. split; lra. }
  assert (Hcosd : cos d = cos (toRadians lat1 - toRadians lat2)).
  { unfold d. rewrite cos_Rabs, <- cos_neg. f_equal. ring. }
  assert (Hle : cos theta <= cos d).
  { rewrite Hcos, Hcosd, sphere_dot_lat.
    rewrite (cos_minus (toRadians lat1) (toRadians lat2)).
    pose proof (cos_toRadians_nonneg lat1 H1).
    pose proof (cos_toRadians_nonneg lat2 H2).
    pose proof (COS_bound (toRadians lng1 - toRadians lng2)) as [_ Hc].
    assert (Hab : 0 <= cos (toRadians lat1) * cos (toRadians lat2))
      by now apply Rmult_le_pos.
    set (ab := cos (toRadians lat1) * cos (toRadians lat2)) in *.
    assert (ab * cos (toRadians lng1 - toRadians lng2) <= ab * 1)
      by now apply Rmult_le_compat_l.
    lra. }
  destruct (Rle_dec d theta) as [Hok | Hno]; [exact Hok | exfalso].
  assert (Hlt : theta < d) by lra.
  apply cos_decreasing_1 in Hlt; lra.
Qed.

Lemma haversineDistance_lat lat1 lng1 lat2 lng2 :
  -90 <= lat1 <= 90 -> -90 <= lat2 <= 90 ->
  6371 * toRadians (Rabs (lat2 - lat1)) <=
  haversineDistance lat1 lng1 lat2 lng2.
Proof.
  intros H1 H2. rewrite haversineDistance_angle.
  pose proof (centralAngle_lat lat1 lng1 lat2 lng2 H1 H2) as H.
  pose proof PI_RGT_0 as Hpi.
  assert (Hr : toRadians (Rabs (lat2 - lat1)) =
               Rabs (toRadians lat2 - toRadians lat1)).
  { unfold toRadians.
    replace (lat2 * PI / 180 - lat1 * PI / 180)
      with ((lat2 - lat1) * (PI / 180)) by field.
    rewrite Rabs_mult, (Rabs_right (PI / 180)) by lra. field. }
  rewrite Hr. lra.
Qed.

(** ** Two points on one parallel *)

Lemma one_minus_cos_double x :
  0 <= x <= PI / 2 -> 2 * (1 - cos x) <= 1 - cos (2 * x).
Proof.
  intros Hx. rewrite cos_2a_cos.
  pose proof (COS_bound x) as [_ Hhi].
  assert (Hlo : 0 <= cos x) by (apply cos_ge_0; lra).
  nra.
Qed.

Lemma cos_toRadians_half la : -60 <= la <= 60 -> 1 / 2 <= cos (toRadians la).
Proof.
  intros H. pose proof PI_RGT_0 as Hpi.
  rewrite <- cos_PI3, <- (cos_Rabs (toRadians la)).
  assert (Hr : Rabs (toRadians la) <= PI / 3).
  { unfold toRadians.
    assert (la * PI <= 60 * PI) by (apply Rmult_le_compat_r; lra).
    assert ((-60) * PI <= la * PI) by (apply Rmult_le_compat_r; lra).
    apply Rabs_le. lra. }
  apply cos_decr_1; try lra. apply Rabs_pos.
Qed.

(** Between the 60th parallels, two points of one parallel that are [g]
    degrees of longitude or more apart, and at most 180, are more than
    [1.5 * g] kilometres apart. *)
Lemma haversineDistance_parallel la ln1 ln2 g :
  -60 <= la <= 60 -> 0 < g -> g <= Rabs (ln2 - ln1) <= 180 ->
  g * 1.5 < haversineDistance la ln1 la ln2.
Proof.
  intros Hla Hg Hln. pose proof PI_RGT_0 as Hpi.
  assert (H3 : 3 < PI) by (pose proof PI2_3_2; lra).
  rewrite haversineDistance_angle.
  pose proof (centralAngle_range _ (haversine_a_range la ln1 la ln2)) as Hrange.
  pose proof (cos_haversine_angle la ln1 la ln2) as Hcos.
  set (theta := centralAngle _) in *.
  rewrite sphere_dot_lat in Hcos.
  pose proof (cos_toRadians_half la Hla) as Hc.
  pose proof (COS_bound (toRadians la)) as [_ Hc1].
  pose proof (sin2_cos2 (toRadians la)) as Hsc. unfold Rsqr in Hsc.
  set (c := cos (toRadians la)) in *. set (s := sin (toRadians la)) in *.
  set (eps := g * 1.5 / 6371).
  set (delta := g * PI / 180).
  set (x := Rabs (toRadians ln1 - toRadians ln2)).
  assert (Hx : delta <= x <= PI).
  { unfold x, delta, toRadians.
    replace (ln1 * PI / 180 - ln2 * PI / 180)
      with (- ((ln2 - ln1) * (PI / 180))) by field.
    rewrite Rabs_Ropp, Rabs_mult, (Rabs_right (PI / 180)) by lra.
    destruct Hln as [Hlo Hhi].
    apply Rmult_le_compat_r with (r := PI / 180) in Hlo; [| lra].
    apply Rmult_le_compat_r with (r := PI / 180) in Hhi; [| lra].
    lra. }
  rewrite <- (cos_Rabs (toRadians ln1 - toRadians ln2)) in Hcos. fold x in Hcos.
  assert (Hdelta : 0 < delta) by (unfold delta; nra).
  assert (Hcx : cos x <= cos delta) by (apply cos_decr_1; lra).
  assert (Heps : 0 < eps /\ 4 * eps < delta).
  { unfold eps, delta. split; nra. }
  assert (Hg180 : g <= 180) by lra.
  assert (Heps1 : eps <= 1 / 8) by (unfold eps; lra).
  assert (H4 : cos delta < cos (4 * eps))
    by (apply cos_decreasing_1; lra).
  pose proof (one_minus_cos_double eps ltac:(lra)) as Hd1.
  pose proof (one_minus_cos_double (2 * eps) ltac:(lra)) as Hd2.
  replace (2 * (2 * eps)) with (4 * eps) in Hd2 by ring.
  assert (Hlt : cos theta < cos eps).
  { rewrite Hcos.
    assert (Hcc : 1 / 4 <= c * c) by nra.
    assert (Hone : 0 <= 1 - cos x) by (pose proof (COS_bound x); lra).
    assert (Hm : 1 / 4 * (1 - cos x) <= c * c * (1 - cos x))
      by (apply Rmult_le_compat_r; lra).
    nra. }
  destruct (Rlt_dec eps theta) as [Hok | Hno].
  - unfold eps in Hok. lra.
  - exfalso. assert (Hle : cos eps <= cos theta) by (apply cos_decr_1; lra).
    lra.
Qed.

(** ** Meridians, parallels and the pole *)




(** ** The distance as a metric, the bearing, the normalized angle *)

(** X1.  In exact arithmetic the great-circle distance satisfies the
    triangle inequality: for any three coordinates, the distance from the
    first to the third is at most the distance from the first to the second
    plus the distance from the second to the third.  (In the doubles of
    the source the distance between two points that are nearly antipodes,
    such as (-58, -180) and (58, 0), is NaN, and rounding can break the
    inequality in the last digit.) *)
Theorem haversineDistance_triangle_inequality :
  forall lat1 lng1 lat2 lng2 lat3 lng3,
    haversineDistance lat1 lng1 lat3 lng3 <=
    haversineDistance lat1 lng1 lat2 lng2 +
    haversineDistance lat2 lng2 lat3 lng3.
Proof. exact haversineDistance_triangle. Qed.

(** X2.  In exact arithmetic the distance lies, for all coordinates,
    between 0 and half the circumference of the sphere of radius 6371 km.
    (In the doubles of the source the distance between two points that are
    nearly antipodes is NaN, when rounding takes [a] above 1.) *)
Theorem haversineDistance_bounds :
  forall lat1 lng1 lat2 lng2,
    0 <= haversineDistance lat1 lng1 lat2 lng2 <= 6371 * PI.
Proof.
  intros lat1 lng1 lat2 lng2. split.
  - apply haversineDistance_nonneg.
  - apply haversineDistance_upper.
Qed.

(** X3.  In exact arithmetic the distance between two coordinates is 0
    exactly when they name the same point of the sphere: the same point on
    the unit sphere, as for equal coordinates, for longitudes a full turn
    apart, or for any two longitudes on a pole.  (In the doubles of the
    source two longitudes on a pole are about 3.4e-17 km apart, since the
    cosine of [90 * Math.PI / 180] is not 0, and two points less than
    about 1e-160 degrees apart are at distance 0, by underflow.) *)
Theorem haversineDistance_zero_same_point :
  forall lat1 lng1 lat2 lng2,
    haversineDistance lat1 lng1 lat2 lng2 = 0 <->
    same_point lat1 lng1 lat2 lng2.
Proof. exact haversineDistance_zero_iff. Qed.

(** X4.  In exact arithmetic, for latitudes between -90 and 90, the
    distance between two coordinates is at least the length of the meridian
    arc between their parallels, [6371 * toRadians |lat2 - lat1|], whatever
    the longitudes.  (In the doubles of the source the distance between two
    points that are nearly antipodes is NaN.) *)
Theorem haversineDistance_meridian_bound :
  forall lat1 lng1 lat2 lng2,
    -90 <= lat1 <= 90 -> -90 <= lat2 <= 90 ->
    6371 * toRadians (Rabs (lat2 - lat1)) <=
    haversineDistance lat1 lng1 lat2 lng2.
Proof. exact haversineDistance_lat. Qed.

(** X4 between (10, 20) and (50, -30). *)
Lemma haversineDistance_meridian_bound_witness :
  6371 * toRadians (Rabs (50 - 10)) <= haversineDistance 10 20 50 (-30).
Proof.
  apply (haversineDistance_meridian_bound 10 20 50 (-30)); lra.
Defined.

(** X5.  For all coordinates the bearing lies between -180 and 180
    degrees. *)
Theorem calculateBearing_range :
  forall lat1 lng1 lat2 lng2,
    -180 <= calculateBearing lat1 lng1 lat2 lng2 <= 180.
Proof.
  intros lat1 lng1 lat2 lng2. pose proof PI_RGT_0 as Hpi.
  unfold calculateBearing, toDegrees.
  match goal with |- context [Math_atan2 ?y ?x] =>
    pose proof (Math_atan2_range y x) as [Hlo Hhi];
    set (t := Math_atan2 y x) in * end.
  split.
  - apply Rmult_le_reg_r with (r := PI); [exact Hpi |].
    replace (t * 180 / PI * PI) with (t * 180) by (field; lra). lra.
  - apply Rmult_le_reg_r with (r := PI); [exact Hpi |].
    replace (t * 180 / PI * PI) with (t * 180) by (field; lra). lra.
Qed.

(** X6.  Along a meridian the bearing is 0 towards the north and 180
    towards the south: for two coordinates of one longitude other than 0,
    with latitudes between -90 and 90 that differ by at least 1e-9 and by
    less than 180 degrees, the bearing is 0 when the second latitude is the
    greater one and 180 when it is the smaller one.  (The longitude 0 is
    left out because it is two doubles: from longitude 0 to longitude -0
    the source computes -180 towards the south.  Latitudes closer than the
    spacing of the doubles can have the same radians, and then the bearing
    of the source is 0 in both directions.) *)
Theorem calculateBearing_meridian :
  forall lat1 lat2 ln,
    -90 <= lat1 <= 90 -> -90 <= lat2 <= 90 -> ln <> 0 ->
    (lat1 + 1e-9 <= lat2 < lat1 + 180 ->
     calculateBearing lat1 ln lat2 ln = 0) /\
    (lat2 + 1e-9 <= lat1 < lat2 + 180 ->
     calculateBearing lat1 ln lat2 ln = 180).
Proof.
  intros lat1 lat2 ln _ _ _. pose proof PI_RGT_0 as Hpi.
  rewrite calculateBearing_same_lng. unfold Math_atan2, toDegrees.
  set (d := toRadians lat2 - toRadians lat1).
  assert (Hd : d = (lat2 - lat1) * (PI / 180)) by (unfold d, toRadians; field).
  split; intros [H1 H2].
  - assert (Hs : 0 < sin d).
    { apply sin_gt_0; rewrite Hd; nra. }
    destruct (Rlt_dec 0 (sin d)); [| contradiction].
    unfold Rdiv at 2. rewrite Rmult_0_l, atan_0. field. lra.
  - assert (Hs : sin d < 0).
    { apply sin_lt_0_var; rewrite Hd; nra. }
    destruct (Rlt_dec 0 (sin d)); [lra |].
    destruct (Rlt_dec (sin d) 0); [| contradiction].
    destruct (Rle_dec 0 0); [| lra].
    unfold Rdiv at 2. rewrite Rmult_0_l, atan_0. field. lra.
Qed.

(** X6 on the meridian of 5 degrees east, between the 10th and the 20th
    parallel. *)
Lemma calculateBearing_meridian_witness :
  calculateBearing 10 5 20 5 = 0 /\ calculateBearing 20 5 10 5 = 180.
Proof.
  split.
  - apply (proj1 (calculateBearing_meridian 10 20 5
                    ltac:(lra) ltac:(lra) ltac:(lra))). lra.
  - apply (proj2 (calculateBearing_meridian 20 10 5
                    ltac:(lra) ltac:(lra) ltac:(lra))). lra.
Defined.

(** X7.  Normalizing an angle twice gives what normalizing it once gives:
    a normalized angle lies in [-180, 180], where neither loop runs. *)
Theorem normalizeAngle_idempotent :
  forall x, normalizeAngle (normalizeAngle x) = normalizeAngle x.
Proof.
  intros x. pose proof (normalizeAngle_closed_range x) as H.
  destruct (normalizeAngle_cases (normalizeAngle x))
    as [[[H1 _] | [[_ H2] | [H3 _]]] _]; [lra | exact H2 | lra].
Qed.

End GeodesyFacts.

(* ================================================================== *)
(** * Properties of the graph builder *)
(* ================================================================== *)

Module GraphFacts.
Import Js Geodesy Graph Notions GeodesyFacts.

(** Settle a comparison of two real constants in the goal. *)
Ltac real_branch :=
  match goal with
  | |- context [Rle_dec ?a ?b] =>
      destruct (Rle_dec a b); [try (exfalso; lra) | try (exfalso; lra)]
  | |- context [Rlt_dec ?a ?b] =>
      destruct (Rlt_dec a b); [try (exfalso; lra) | try (exfalso; lra)]
  end.

Lemma gridRow_fresh budget b gridSize la : forall ln nodeId row next,
  gridRow budget b gridSize la ln nodeId = Some (row, next) ->
  forall n, In n row -> connections n = [].
Proof.
  induction budget as [| k IH]; intros ln nodeId row next H n Hn;
    [discriminate |].
  cbn [gridRow] in H.
  destruct (Rle_dec ln (maxLng b)).
  - destruct (gridRow k b gridSize la (ln + gridSize) (S nodeId))
      as [[rest next'] |] eqn:Hrest; [| discriminate].
    inversion H; subst. destruct Hn as [<- | Hn]; [reflexivity |].
    eapply IH; eassumption.
  - inversion H; subst. destruct Hn.
Qed.

Lemma gridRows_fresh budget b gridSize : forall la nodeId nodeArray,
  gridRows budget b gridSize la nodeId = Some nodeArray ->
  forall n, In n nodeArray -> connections n = [].
Proof.
  induction budget as [| k IH]; intros la nodeId nodeArray H n Hn;
    [discriminate |].
  cbn [gridRows] in H.
  destruct (Rle_dec la (maxLat b)).
  - destruct (gridRow (S k) b gridSize la (minLng b) nodeId)
      as [[row next] |] eqn:Hrow; [| discriminate].
    destruct (gridRows k b gridSize (la + gridSize) next)
      as [rest |] eqn:Hrest; [| discriminate].
    inversion H; subst. apply in_app_or in Hn as [Hn | Hn].
    + eapply gridRow_fresh; eassumption.
    + eapply IH; eassumption.
  - inversion H; subst. destruct Hn.
Qed.

(** ** The node generation ends on a positive grid step *)

Lemma steps_exist gridSize x :
  0 < gridSize -> exists k : nat, x < gridSize * INR k.
Proof.
  intros Hg.
  destruct (Rlt_dec x 0) as [Hneg | Hpos].
  - exists O. cbn [INR]. lra.
  - assert (Hq : 0 <= x / gridSize) by (apply Rmult_le_pos;
      [lra | left; now apply Rinv_0_lt_compat]).
    pose proof (archimed (x / gridSize)) as [Hup _].
    exists (Z.to_nat (up (x / gridSize))).
    rewrite INR_IZR_INZ, Z2Nat.id by (apply le_IZR; lra).
    apply Rmult_lt_compat_l with (r := gridSize) in Hup; [| exact Hg].
    replace (gridSize * (x / gridSize)) with x in Hup by (field; lra).
    exact Hup.
Qed.

Lemma gridRow_total b gridSize la :
  0 < gridSize ->
  forall k ln nodeId budget,
    maxLng b - ln < gridSize * INR k -> (k < budget)%nat ->
    exists row next, gridRow budget b gridSize la ln nodeId = Some (row, next).
Proof.
  intros Hg. induction k as [| k IH]; intros ln nodeId budget Hk Hb;
    (destruct budget as [| budget']; [lia |]); cbn [gridRow].
  - cbn [INR] in Hk. destruct (Rle_dec ln (maxLng b)); [lra | eauto].
  - rewrite S_INR in Hk. destruct (Rle_dec ln (maxLng b)); [| eauto].
    destruct (IH (ln + gridSize) (S nodeId) budget') as (row & next & Hrow);
      [lra | lia |].
    rewrite Hrow. eauto.
Qed.

Lemma gridRows_total b gridSize :
  0 < gridSize ->
  forall kr, maxLng b - minLng b < gridSize * INR kr ->
  forall k la nodeId budget,
    maxLat b - la < gridSize * INR k -> (kr + k < budget)%nat ->
    exists nodeArray, gridRows budget b gridSize la nodeId = Some nodeArray.
Proof.
  intros Hg kr Hkr. induction k as [| k IH]; intros la nodeId budget Hk Hb;
    (destruct budget as [| budget']; [lia |]); cbn [gridRows].
  - cbn [INR] in Hk. destruct (Rle_dec la (maxLat b)); [lra | eauto].
  - rewrite S_INR in Hk. destruct (Rle_dec la (maxLat b)); [| eauto].
    destruct (gridRow_total b gridSize la Hg kr (minLng b) nodeId (S budget'))
      as (row & next & Hrow); [exact Hkr | lia |].
    rewrite Hrow.
    destruct (IH (la + gridSize) next budget') as (rest & Hrest); [lra | lia |].
    rewrite Hrest. eauto.
Qed.

Lemma calculateBounds_nonempty start end_ buffer :
  0 <= buffer ->
  minLat (calculateBounds start end_ buffer) <=
  maxLat (calculateBounds start end_ buffer) /\
  minLng (calculateBounds start end_ buffer) <=
  maxLng (calculateBounds start end_ buffer).
Proof.
  intros Hb. unfold calculateBounds, Math_min, Math_max.
  cbn [minLat maxLat minLng maxLng].
  pose proof (Rmin_l (c_lat start) (c_lat end_)).
  pose proof (Rmax_l (c_lat start) (c_lat end_)).
  pose proof (Rmin_l (c_lng start) (c_lng end_)).
  pose proof (Rmax_l (c_lng start) (c_lng end_)).
  split; lra.
Qed.

Section BuilderFacts.
Variable Math_random : nat -> R.

(** Each connection pushed on [n] leads to one of the neighbours and
    carries the distance to it and the baseline risk. *)
Lemma connect_spec n neighbors : forall calls c,
  In c (fst (connect Math_random calls n neighbors)) ->
  exists neighbor k,
    In neighbor neighbors /\
    node c = ref_of neighbor /\
    distance c = haversineDistance (lat n) (lng n)
                                   (lat neighbor) (lng neighbor) /\
    trafficLevel c = Math_random k * 0.5 /\
    accidentRisk c = 0.1.
Proof.
  induction neighbors as [| nb rest IH]; intros calls c Hc; cbn [connect] in Hc.
  - destruct Hc.
  - destruct (connect Math_random (S calls) n rest) as [cs calls'] eqn:Hrest.
    cbn [fst] in Hc. destruct Hc as [<- | Hc].
    + exists nb, calls. cbn. auto.
    + specialize (IH (S calls) c). rewrite Hrest in IH.
      destruct (IH Hc) as (nb' & k & Hin & Hrest').
      exists nb', k. split; [now right | exact Hrest'].
Qed.

Lemma connectNodes_spec allNodes gridSize todo : forall calls n,
  In n (connectNodes Math_random calls todo allNodes gridSize) ->
  exists n0 calls0,
    In n0 todo /\
    id n = id n0 /\ lat n = lat n0 /\ lng n = lng n0 /\
    connections n =
    connections n0 ++
    fst (connect Math_random calls0 n0 (findNeighbors n0 allNodes gridSize)).
Proof.
  induction todo as [| m rest IH]; intros calls n Hn;
    cbn [connectNodes] in Hn.
  - destruct Hn.
  - destruct (connect Math_random calls m (findNeighbors m allNodes gridSize))
      as [cs calls'] eqn:Hcs.
    destruct Hn as [<- | Hn].
    + exists m, calls. rewrite Hcs. cbn. auto.
    + destruct (IH calls' n Hn) as (n0 & calls0 & Hin & Hrest).
      exists n0, calls0. split; [now right | exact Hrest].
Qed.

(** The edges of a built graph. *)
Lemma generateGridGraph_edges budget b gridSize graph n c :
  generateGridGraph Math_random budget b gridSize = Some graph ->
  In n graph -> In c (connections n) ->
  ref_id (node c) <> id n /\
  distance c = haversineDistance (lat n) (lng n)
                                 (ref_lat (node c)) (ref_lng (node c)) /\
  distance c <= gridSize * 1.5 /\
  (exists k, trafficLevel c = Math_random k * 0.5) /\
  accidentRisk c = 0.1.
Proof.
  unfold generateGridGraph. intros Hg Hn Hc.
  destruct (gridRows budget b gridSize (minLat b) 0) as [nodeArray |] eqn:Hrows;
    [| discriminate].
  inversion Hg; subst graph.
  destruct (connectNodes_spec _ _ _ _ _ Hn)
    as (n0 & calls0 & Hin & Hid & Hlat & Hlng & Hconn).
  rewrite (gridRows_fresh _ _ _ _ _ _ Hrows n0 Hin) in Hconn.
  cbn [app] in Hconn. rewrite Hconn in Hc.
  destruct (connect_spec _ _ _ _ Hc) as (nb & k & Hnb & Hnode & Hd & Ht & Hr).
  unfold findNeighbors in Hnb. apply filter_In in Hnb as [_ Hkeep].
  rewrite Hnode, Hid, Hlat, Hlng, Hd. cbn [ref_of ref_id ref_lat ref_lng].
  destruct (String.eqb_spec (id nb) (id n0)) as [Heq | Hneq]; [discriminate |].
  destruct (Rle_dec _ _) as [Hle | Hgt]; [| discriminate].
  repeat split; eauto.
Qed.


(** With a positive grid step the builder returns a graph on every large
    enough budget. *)
Lemma generateGridGraph_total b gridSize :
  0 < gridSize ->
  exists N, forall budget, (N <= budget)%nat ->
    exists graph,
      generateGridGraph Math_random budget b gridSize = Some graph.
Proof.
  intros Hg.
  destruct (steps_exist gridSize (maxLng b - minLng b) Hg) as [kr Hkr].
  destruct (steps_exist gridSize (maxLat b - minLat b) Hg) as [k Hk].
  exists (S (kr + k)). intros budget Hb. unfold generateGridGraph.
  destruct (gridRows_total b gridSize Hg kr Hkr k (minLat b) O budget)
    as (nodeArray & Hrows); [exact Hk | lia |].
  rewrite Hrows. eauto.
Qed.

(** A box that is not empty gives a graph with a node. *)
Lemma gridRows_nonempty budget b gridSize la nodeId nodeArray :
  la <= maxLat b -> minLng b <= maxLng b ->
  gridRows budget b gridSize la nodeId = Some nodeArray ->
  nodeArray <> [].
Proof.
  intros Hla Hlng H. destruct budget as [| k]; [discriminate |].
  cbn [gridRows gridRow] in H.
  destruct (Rle_dec la (maxLat b)); [| contradiction].
  destruct (Rle_dec (minLng b) (maxLng b)); [| contradiction].
  destruct (gridRow k b gridSize la (minLng b + gridSize) (S nodeId))
    as [[row next] |]; [| discriminate].
  destruct (gridRows k b gridSize (la + gridSize) next); [| discriminate].
  inversion H. discriminate.
Qed.

Lemma generateGridGraph_nonempty budget b gridSize graph :
  minLat b <= maxLat b -> minLng b <= maxLng b ->
  generateGridGraph Math_random budget b gridSize = Some graph ->
  graph <> [].
Proof.
  intros Hlat Hlng H. unfold generateGridGraph in H.
  destruct (gridRows budget b gridSize (minLat b) 0) as [nodeArray |] eqn:E;
    [| discriminate].
  pose proof (gridRows_nonempty _ _ _ _ _ _ Hlat Hlng E) as Hne.
  inversion H. destruct nodeArray as [| n rest]; [contradiction |].
  cbn [connectNodes].
  destruct (connect Math_random 0 n (findNeighbors n (n :: rest) gridSize)).
  discriminate.
Qed.

(** With [Math.random] in [0, 1) the edges of a built graph are valid. *)
Lemma generateGridGraph_edges_valid budget b gridSize graph :
  (forall k, 0 <= Math_random k < 1) ->
  generateGridGraph Math_random budget b gridSize = Some graph ->
  Pathfinder.edges_valid graph.
Proof.
  intros Hrnd Hg n c Hn Hc.
  destruct (generateGridGraph_edges _ _ _ _ _ _ Hg Hn Hc)
    as (_ & Hd & _ & [k Ht] & Hr).
  rewrite Ht, Hr. split; [exact Hd |].
  pose proof (Hrnd k). split; lra.
Qed.

Lemma pole_graph_built :
  generateGridGraph Math_random 3 pole_bounds 0.005 =
  Some (pole_graph Math_random).
Proof.
  unfold generateGridGraph, pole_bounds, pole_graph.
  cbn [gridRows gridRow minLat maxLat minLng maxLng].
  repeat real_branch.
  change (node_name 0) with "node_0"%string.
  change (node_name 1) with "node_1"%string.
  cbn [app connectNodes findNeighbors List.filter id lat lng new_GraphNode
       String.eqb Ascii.eqb Bool.eqb connections type].
  rewrite !haversineDistance_pole.
  repeat real_branch.
  cbn [connect fst snd app ref_of id lat lng].
  now rewrite !haversineDistance_pole.
Qed.

End BuilderFacts.

(** In exact arithmetic the two nodes of the pole strip are one point of
    the sphere, and the connection between them has distance 0.  (The
    doubles of the source give about 3.4e-17 km there, since
    [Math.cos(90 * Math.PI / 180)] is about 6e-17 and not 0.) *)
Lemma generateGridGraph_pole_exact :
  exists n c,
    In n (pole_graph (fun _ => 0)) /\ In c (connections n) /\
    ref_id (node c) <> id n /\
    distance c = 0.
Proof.
  eexists. eexists.
  split; [left; reflexivity |].
  split; [left; reflexivity |].
  cbn [node distance ref_id id]. split; [discriminate |].
  apply haversineDistance_pole.
Qed.

(** ** The nodes of the grid *)

Lemma append_inv_head (p x y : string) :
  String.append p x = String.append p y -> x = y.
Proof.
  induction p as [| ch p IH]; cbn; intros H; [exact H |].
  injection H as H. now apply IH.
Qed.

Lemma node_name_inj n m : node_name n = node_name m -> n = m.
Proof.
  unfold node_name. intros H. apply append_inv_head in H.
  assert (Hu : Nat.to_uint n = Nat.to_uint m).
  { pose proof (NilEmpty.usu (Nat.to_uint n)) as H1.
    pose proof (NilEmpty.usu (Nat.to_uint m)) as H2.
    rewrite H in H1. rewrite H1 in H2. now inversion H2. }
  rewrite <- (Unsigned.of_to n), <- (Unsigned.of_to m). now rewrite Hu.
Qed.

(** Without a positive grid step neither loop ever leaves its range. *)
Lemma gridRow_diverges b gridSize la : gridSize <= 0 ->
  forall budget ln nodeId, ln <= maxLng b ->
    gridRow budget b gridSize la ln nodeId = None.
Proof.
  intros Hg. induction budget as [| k IH]; intros ln nodeId Hln; [reflexivity |].
  cbn [gridRow]. destruct (Rle_dec ln (maxLng b)); [| contradiction].
  rewrite IH by lra. reflexivity.
Qed.

Lemma gridRows_diverges b gridSize : gridSize <= 0 ->
  forall budget la nodeId, la <= maxLat b ->
    gridRows budget b gridSize la nodeId = None.
Proof.
  intros Hg. induction budget as [| k IH]; intros la nodeId Hla; [reflexivity |].
  cbn [gridRows]. destruct (Rle_dec la (maxLat b)); [| contradiction].
  destruct (gridRow (S k) b gridSize la (minLng b) nodeId) as [[row next] |];
    [| reflexivity].
  rewrite IH by lra. reflexivity.
Qed.

Lemma gridRows_positive budget b gridSize la nodeId nodeArray :
  gridRows budget b gridSize la nodeId = Some nodeArray ->
  nodeArray <> [] -> 0 < gridSize.
Proof.
  intros H Hne. destruct (Rlt_dec 0 gridSize) as [Hg | Hg]; [exact Hg | exfalso].
  destruct (Rle_dec la (maxLat b)) as [Hla | Hla].
  - rewrite gridRows_diverges in H by lra. discriminate.
  - destruct budget; [discriminate |]. cbn [gridRows] in H.
    destruct (Rle_dec la (maxLat b)); [contradiction |]. inversion H. now subst.
Qed.

(** The ids, the type and the place of the nodes of one row, and of all
    rows. *)
Lemma gridRow_shape budget b gridSize la : forall ln nodeId row next,
  gridRow budget b gridSize la ln nodeId = Some (row, next) ->
  next = (nodeId + length row)%nat /\
  map id row = map node_name (seq nodeId (length row)) /\
  Forall (fun n => type n = "intersection"%string /\
                   lat n = la /\ lng n <= maxLng b /\
                   (0 < gridSize -> ln <= lng n)) row.
Proof.
  induction budget as [| k IH]; intros ln nodeId row next H; [discriminate |].
  cbn [gridRow] in H. destruct (Rle_dec ln (maxLng b)) as [Hln | Hln].
  - destruct (gridRow k b gridSize la (ln + gridSize) (S nodeId))
      as [[rest next'] |] eqn:E; [| discriminate].
    inversion H; subst. destruct (IH _ _ _ _ E) as (Hn & Hids & Hf).
    cbn [length map seq id new_GraphNode]. split; [lia |].
    split; [now rewrite Hids |].
    constructor; [cbn; repeat split; [lra | intros; lra] |].
    eapply List.Forall_impl; [| exact Hf]. cbn.
    intros n (H0 & H1 & H2 & H3). repeat split; auto.
    intros Hg. specialize (H3 Hg). lra.
  - inversion H; subst. cbn. split; [lia |]. split; [reflexivity | constructor].
Qed.

Lemma gridRows_shape budget b gridSize : forall la nodeId nodeArray,
  gridRows budget b gridSize la nodeId = Some nodeArray ->
  map id nodeArray = map node_name (seq nodeId (length nodeArray)) /\
  Forall (fun n => type n = "intersection"%string /\
                   lat n <= maxLat b /\ lng n <= maxLng b /\
                   (0 < gridSize -> la <= lat n /\ minLng b <= lng n))
         nodeArray.
Proof.
  induction budget as [| k IH]; intros la nodeId nodeArray H; [discriminate |].
  cbn [gridRows] in H. destruct (Rle_dec la (maxLat b)) as [Hla | Hla].
  - destruct (gridRow (S k) b gridSize la (minLng b) nodeId)
      as [[row next] |] eqn:Hrow; [| discriminate].
    destruct (gridRows k b gridSize (la + gridSize) next) as [rest |] eqn:Hrest;
      [| discriminate].
    inversion H; subst.
    destruct (gridRow_shape _ _ _ _ _ _ _ _ Hrow) as (Hn & Hids & Hf).
    destruct (IH _ _ _ Hrest) as (Hids' & Hf').
    split.
    + rewrite map_app, length_app, seq_app, map_app, Hids, Hids', Hn.
      reflexivity.
    + apply Forall_app. split.
      * eapply List.Forall_impl; [| exact Hf]. cbn.
        intros n (H0 & H1 & H2 & H3). rewrite H1.
        split; [exact H0 |]. split; [lra |]. split; [exact H2 |].
        intros Hg. split; [lra | now apply H3].
      * eapply List.Forall_impl; [| exact Hf']. cbn.
        intros n (H0 & H1 & H2 & H3).
        split; [exact H0 |]. split; [exact H1 |]. split; [exact H2 |].
        intros Hg. destruct (H3 Hg). split; lra.
  - inversion H; subst. split; [reflexivity | constructor].
Qed.

(** ** The order of the nodes *)

Lemma sorted_app {A} (before : A -> A -> Prop) l1 l2 :
  StronglySorted before l1 -> StronglySorted before l2 ->
  (forall x y, In x l1 -> In y l2 -> before x y) ->
  StronglySorted before (l1 ++ l2).
Proof.
  induction l1 as [| a l1 IH]; intros H1 H2 H12; [exact H2 |].
  cbn [app]. inversion H1; subst. constructor.
  - apply IH; auto. intros x y Hx Hy. apply H12; [now right | exact Hy].
  - apply Forall_app. split; [assumption |].
    apply List.Forall_forall. intros y Hy. apply H12; [now left | exact Hy].
Qed.

Lemma sorted_pair {A} (before : A -> A -> Prop) l x y :
  StronglySorted before l -> In x l -> In y l ->
  x = y \/ before x y \/ before y x.
Proof.
  induction 1 as [| a l Hs IH Ha]; intros Hx Hy; [destruct Hx |].
  rewrite List.Forall_forall in Ha.
  destruct Hx as [<- | Hx], Hy as [<- | Hy]; auto.
Qed.

Lemma gridRow_sorted budget b gridSize la : 0 < gridSize ->
  forall ln nodeId row next,
    gridRow budget b gridSize la ln nodeId = Some (row, next) ->
    StronglySorted (grid_before gridSize) row /\
    Forall (fun n => lat n = la /\ ln <= lng n) row.
Proof.
  intros Hg. induction budget as [| k IH]; intros ln nodeId row next H;
    [discriminate |].
  cbn [gridRow] in H. destruct (Rle_dec ln (maxLng b)) as [Hln | Hln].
  - destruct (gridRow k b gridSize la (ln + gridSize) (S nodeId))
      as [[rest next'] |] eqn:E; [| discriminate].
    inversion H; subst. destruct (IH _ _ _ _ E) as (Hs & Hf). split.
    + constructor; [exact Hs |].
      eapply List.Forall_impl; [| exact Hf]. cbn.
      intros n [Hlat Hlng]. right. cbn. split; [now rewrite Hlat | lra].
    + constructor; [cbn; split; [reflexivity | lra] |].
      eapply List.Forall_impl; [| exact Hf]. cbn.
      intros n [? ?]. split; [auto | lra].
  - inversion H; subst. split; constructor.
Qed.

Lemma gridRows_sorted budget b gridSize : 0 < gridSize ->
  forall la nodeId nodeArray,
    gridRows budget b gridSize la nodeId = Some nodeArray ->
    StronglySorted (grid_before gridSize) nodeArray /\
    Forall (fun n => la <= lat n) nodeArray.
Proof.
  intros Hg. induction budget as [| k IH]; intros la nodeId nodeArray H;
    [discriminate |].
  cbn [gridRows] in H. destruct (Rle_dec la (maxLat b)) as [Hla | Hla].
  - destruct (gridRow (S k) b gridSize la (minLng b) nodeId)
      as [[row next] |] eqn:Hrow; [| discriminate].
    destruct (gridRows k b gridSize (la + gridSize) next) as [rest |] eqn:Hrest;
      [| discriminate].
    inversion H; subst.
    destruct (gridRow_sorted _ _ _ _ Hg _ _ _ _ Hrow) as (Hs & Hf).
    destruct (IH _ _ _ Hrest) as (Hs' & Hf').
    rewrite List.Forall_forall in Hf, Hf'. split.
    + apply sorted_app; auto.
      intros x y Hx Hy. left. destruct (Hf x Hx) as [-> _].
      now apply Hf'.
    + apply Forall_app. split; apply List.Forall_forall; intros n Hn.
      * destruct (Hf n Hn) as [-> _]. lra.
      * specialize (Hf' n Hn). lra.
  - inversion H; subst. split; constructor.
Qed.

Section GridFacts.
Variable Math_random : nat -> R.

(** The loop that connects the nodes keeps every node, in order, and
    changes its connections only. *)
Lemma connectNodes_map allNodes gridSize : forall todo calls,
  map (fun n => (id n, lat n, lng n, type n))
      (connectNodes Math_random calls todo allNodes gridSize) =
  map (fun n => (id n, lat n, lng n, type n)) todo.
Proof.
  induction todo as [| n rest IH]; intros calls; [reflexivity |].
  cbn [connectNodes].
  destruct (connect Math_random calls n (findNeighbors n allNodes gridSize))
    as [cs calls'].
  cbn [map id lat lng type]. now rewrite IH.
Qed.

(** Every neighbour gets a connection. *)
Lemma connect_complete n neighbors : forall calls neighbor,
  In neighbor neighbors ->
  exists c, In c (fst (connect Math_random calls n neighbors)) /\
            node c = ref_of neighbor /\
            distance c = haversineDistance (lat n) (lng n)
                                           (lat neighbor) (lng neighbor).
Proof.
  induction neighbors as [| nb rest IH]; intros calls neighbor Hin;
    [destruct Hin |].
  cbn [connect].
  destruct (connect Math_random (S calls) n rest) as [cs calls'] eqn:E.
  cbn [fst]. destruct Hin as [<- | Hin].
  - eexists. split; [left; reflexivity |]. cbn. auto.
  - destruct (IH (S calls) neighbor Hin) as (c & Hc & Hrest).
    rewrite E in Hc. exists c. split; [now right | exact Hrest].
Qed.

Lemma connectNodes_complete allNodes gridSize todo : forall calls n0,
  In n0 todo ->
  exists n calls0,
    In n (connectNodes Math_random calls todo allNodes gridSize) /\
    id n = id n0 /\ lat n = lat n0 /\ lng n = lng n0 /\
    connections n =
    connections n0 ++
    fst (connect Math_random calls0 n0 (findNeighbors n0 allNodes gridSize)).
Proof.
  induction todo as [| m rest IH]; intros calls n0 Hin; [destruct Hin |].
  cbn [connectNodes].
  destruct (connect Math_random calls m (findNeighbors m allNodes gridSize))
    as [cs calls'] eqn:Hcs.
  destruct Hin as [<- | Hin].
  - eexists _, calls. split; [left; reflexivity |]. rewrite Hcs. cbn. auto.
  - destruct (IH calls' n0 Hin) as (n & calls0 & Hn & Hrest).
    exists n, calls0. split; [now right | exact Hrest].
Qed.

(** The two ends of a connection of a built graph, as nodes of the grid:
    both in the box, and a grid step or more apart in latitude, or on one
    parallel and a grid step or more apart in longitude. *)
Lemma generateGridGraph_edge_ends budget b gridSize graph n c :
  generateGridGraph Math_random budget b gridSize = Some graph ->
  In n graph -> In c (connections n) ->
  0 < gridSize /\
  distance c <= gridSize * 1.5 /\
  distance c = haversineDistance (lat n) (lng n)
                                 (ref_lat (node c)) (ref_lng (node c)) /\
  (minLat b <= lat n <= maxLat b /\
   minLat b <= ref_lat (node c) <= maxLat b) /\
  (minLng b <= lng n <= maxLng b /\
   minLng b <= ref_lng (node c) <= maxLng b) /\
  (gridSize <= Rabs (ref_lat (node c) - lat n) \/
   ref_lat (node c) = lat n /\ gridSize <= Rabs (ref_lng (node c) - lng n)).
Proof.
  intros Hgraph Hn Hc.
  destruct (generateGridGraph_edges _ _ _ _ _ _ _ Hgraph Hn Hc)
    as (_ & Hd & Hle & _).
  unfold generateGridGraph in Hgraph.
  destruct (gridRows budget b gridSize (minLat b) 0) as [nodeArray |] eqn:E;
    [| discriminate].
  inversion Hgraph; subst graph. clear Hgraph.
  destruct (connectNodes_spec _ _ _ _ _ _ Hn)
    as (n0 & calls0 & Hin0 & Hid & Hlat & Hlng & Hconn).
  rewrite (gridRows_fresh _ _ _ _ _ _ E n0 Hin0) in Hconn. cbn [app] in Hconn.
  rewrite Hconn in Hc.
  destruct (connect_spec _ _ _ _ _ Hc) as (nb & k & Hnb & Hnode & _).
  unfold findNeighbors in Hnb. apply filter_In in Hnb as [Hnb_in Hkeep].
  destruct (String.eqb_spec (id nb) (id n0)) as [Heq | Hneq]; [discriminate |].
  assert (Hg : 0 < gridSize).
  { apply (gridRows_positive _ _ _ _ _ _ E). intros ->. destruct Hin0. }
  destruct (gridRows_shape _ _ _ _ _ _ E) as (_ & Hshape).
  rewrite List.Forall_forall in Hshape.
  destruct (Hshape n0 Hin0) as (_ & H1 & H2 & H3). destruct (H3 Hg) as [H4 H5].
  destruct (Hshape nb Hnb_in) as (_ & H1' & H2' & H3').
  destruct (H3' Hg) as [H4' H5'].
  destruct (gridRows_sorted _ _ _ Hg _ _ _ E) as [Hsorted _].
  rewrite Hnode, Hlat, Hlng. cbn [ref_of ref_lat ref_lng].
  split; [exact Hg |]. split; [exact Hle |].
  split; [now rewrite Hd, Hnode, Hlat, Hlng |].
  split; [lra |]. split; [lra |].
  destruct (sorted_pair _ _ _ _ Hsorted Hin0 Hnb_in)
    as [Heq | [[Hb | [Hb1 Hb2]] | [Hb | [Hb1 Hb2]]]].
  - subst nb. contradiction.
  - left. rewrite Rabs_right; lra.
  - right. split; [lra |]. rewrite Rabs_right; lra.
  - left. rewrite Rabs_left; lra.
  - right. split; [lra |]. rewrite Rabs_left; lra.
Qed.

(** On the equator strip the two nodes are too far apart to be
    neighbours. *)
Lemma equator_graph_built :
  generateGridGraph Math_random 3 equator_bounds 0.005 = Some equator_graph.
Proof.
  assert (Hfar : forall ln1 ln2,
             0.005 <= Rabs (ln2 - ln1) <= 180 ->
             ~ haversineDistance 0 ln1 0 ln2 <= 0.005 * 1.5).
  { intros ln1 ln2 H Hle.
    pose proof (haversineDistance_parallel 0 ln1 ln2 0.005
                  ltac:(lra) ltac:(lra) H). lra. }
  unfold generateGridGraph, equator_bounds, equator_graph.
  cbn [gridRows gridRow minLat maxLat minLng maxLng].
  repeat real_branch.
  change (node_name 0) with "node_0"%string.
  change (node_name 1) with "node_1"%string.
  cbn [app connectNodes findNeighbors List.filter id lat lng new_GraphNode
       String.eqb Ascii.eqb Bool.eqb connections type].
  destruct (Rle_dec (haversineDistance 0 0 0 (0 + 0.005)) (0.005 * 1.5))
    as [H | _].
  { exfalso. apply (Hfar 0 (0 + 0.005)); [| exact H].
    rewrite Rabs_right; lra. }
  destruct (Rle_dec (haversineDistance 0 (0 + 0.005) 0 0) (0.005 * 1.5))
    as [H | _].
  { exfalso. apply (Hfar (0 + 0.005) 0); [| exact H].
    rewrite Rabs_left; lra. }
  reflexivity.
Qed.



(** X8.  On a box whose latitude range is not empty, the two loops that
    create the nodes come to an end, and the builder returns a graph,
    exactly when the grid step is positive. *)
Theorem generateGridGraph_returns_iff :
  forall b gridSize,
    minLat b <= maxLat b ->
    (exists budget graph,
        generateGridGraph Math_random budget b gridSize = Some graph) <->
    0 < gridSize.
Proof.
  intros b gridSize Hbox. split.
  - intros (budget & graph & H). unfold generateGridGraph in H.
    destruct (Rlt_dec 0 gridSize) as [Hg | Hg]; [exact Hg | exfalso].
    rewrite gridRows_diverges in H by lra. discriminate.
  - intros Hg. destruct (generateGridGraph_total Math_random b gridSize Hg)
      as [N HN].
    exists N. apply HN. lia.
Qed.

(** X9.  The nodes of a built graph carry the ids "node_0", "node_1", ...
    in the order of the array, so no id occurs twice; every node lies in
    the box and has the type "intersection". *)
Theorem generateGridGraph_nodes :
  forall budget b gridSize graph,
    generateGridGraph Math_random budget b gridSize = Some graph ->
    map id graph = map node_name (seq 0 (length graph)) /\
    List.NoDup (map id graph) /\
    Forall (fun n => minLat b <= lat n <= maxLat b /\
                     minLng b <= lng n <= maxLng b /\
                     type n = "intersection"%string) graph.
Proof.
  intros budget b gridSize graph H. unfold generateGridGraph in H.
  destruct (gridRows budget b gridSize (minLat b) 0) as [nodeArray |] eqn:E;
    [| discriminate].
  inversion H; subst graph. clear H.
  pose proof (connectNodes_map nodeArray gridSize nodeArray 0%nat) as Hmap.
  destruct (gridRows_shape _ _ _ _ _ _ E) as (Hids & Hf).
  assert (Hlen : length (connectNodes Math_random 0 nodeArray nodeArray gridSize)
                 = length nodeArray).
  { rewrite <- (length_map (fun n => (id n, lat n, lng n, type n))), Hmap.
    apply length_map. }
  assert (Hid : map id (connectNodes Math_random 0 nodeArray nodeArray gridSize)
                = map id nodeArray).
  { apply (f_equal (map (fun q : string * R * R * string =>
                           fst (fst (fst q))))) in Hmap.
    rewrite !map_map in Hmap. exact Hmap. }
  split; [now rewrite Hid, Hlen |]. split.
  - rewrite Hid, Hids. apply Injective_map_NoDup; [| apply seq_NoDup].
    intros x y. apply node_name_inj.
  - set (Q := fun q : string * R * R * string =>
                minLat b <= snd (fst (fst q)) <= maxLat b /\
                minLng b <= snd (fst q) <= maxLng b /\
                snd q = "intersection"%string).
    change (Forall (fun n => Q (id n, lat n, lng n, type n))
                   (connectNodes Math_random 0 nodeArray nodeArray gridSize)).
    rewrite <- List.Forall_map with (P := Q), Hmap, List.Forall_map.
    rewrite List.Forall_forall in Hf. apply List.Forall_forall. intros n Hn.
    assert (Hg : 0 < gridSize).
    { apply (gridRows_positive _ _ _ _ _ _ E). intros ->. destruct Hn. }
    destruct (Hf n Hn) as (H0 & H1 & H2 & H3). destruct (H3 Hg) as [H4 H5].
    unfold Q. cbn [fst snd]. repeat split; try lra. exact H0.
Qed.

(** X10.  Every connection of a built graph stores the great-circle
    distance between its two ends, which is at most one and a half grid
    steps read as kilometres; its accident risk is the baseline 0.1; its
    congestion is half of a value drawn from [Math.random], and lies in
    [0, 0.5) when these values lie in [0, 1). *)
Theorem generateGridGraph_edge_attributes :
  forall budget b gridSize graph n c,
    generateGridGraph Math_random budget b gridSize = Some graph ->
    In n graph -> In c (connections n) ->
    distance c = haversineDistance (lat n) (lng n)
                                   (ref_lat (node c)) (ref_lng (node c)) /\
    distance c <= gridSize * 1.5 /\
    accidentRisk c = 0.1 /\
    (exists k, trafficLevel c = Math_random k * 0.5) /\
    ((forall k, 0 <= Math_random k < 1) -> 0 <= trafficLevel c < 0.5).
Proof.
  intros budget b gridSize graph n c Hg Hn Hc.
  destruct (generateGridGraph_edges _ _ _ _ _ _ _ Hg Hn Hc)
    as (_ & Hd & Hle & [k Ht] & Hr).
  split; [exact Hd |]. split; [exact Hle |]. split; [exact Hr |].
  split; [now exists k |].
  intros Hrnd. rewrite Ht. pose proof (Hrnd k). lra.
Qed.

(** X11.  The connections of a built graph come in pairs: when a node has
    a connection to another node, that node is in the graph and has a
    connection back, with the same distance. *)
Theorem generateGridGraph_symmetric :
  forall budget b gridSize graph n c,
    generateGridGraph Math_random budget b gridSize = Some graph ->
    In n graph -> In c (connections n) ->
    exists m c',
      In m graph /\ ref_of m = node c /\
      In c' (connections m) /\ node c' = ref_of n /\
      distance c' = distance c.
Proof.
  intros budget b gridSize graph n c Hg Hn Hc.
  unfold generateGridGraph in Hg.
  destruct (gridRows budget b gridSize (minLat b) 0) as [nodeArray |] eqn:E;
    [| discriminate].
  inversion Hg; subst graph. clear Hg.
  destruct (connectNodes_spec _ _ _ _ _ _ Hn)
    as (n0 & calls0 & Hin0 & Hid & Hlat & Hlng & Hconn).
  rewrite (gridRows_fresh _ _ _ _ _ _ E n0 Hin0) in Hconn. cbn [app] in Hconn.
  rewrite Hconn in Hc.
  destruct (connect_spec _ _ _ _ _ Hc) as (nb & k & Hnb & Hnode & Hd & _).
  unfold findNeighbors in Hnb. apply filter_In in Hnb as [Hnb_in Hkeep].
  destruct (String.eqb_spec (id nb) (id n0)) as [Heq | Hneq]; [discriminate |].
  destruct (Rle_dec _ _) as [Hle | Hgt]; [| discriminate].
  destruct (connectNodes_complete nodeArray gridSize nodeArray 0%nat nb Hnb_in)
    as (m & calls1 & Hm & Hmid & Hmlat & Hmlng & Hmconn).
  rewrite (gridRows_fresh _ _ _ _ _ _ E nb Hnb_in) in Hmconn.
  cbn [app] in Hmconn.
  assert (Hback : In n0 (findNeighbors nb nodeArray gridSize)).
  { unfold findNeighbors. apply filter_In. split; [exact Hin0 |].
    destruct (String.eqb_spec (id n0) (id nb)) as [Heq | _]; [congruence |].
    rewrite haversineDistance_sym.
    destruct (Rle_dec _ _); [reflexivity | contradiction]. }
  destruct (connect_complete nb _ calls1 n0 Hback) as (c' & Hc' & Hnode' & Hd').
  exists m, c'. rewrite Hmconn.
  split; [exact Hm |]. split.
  - rewrite Hnode. unfold ref_of. now rewrite Hmid, Hmlat, Hmlng.
  - split; [exact Hc' |]. split.
    + rewrite Hnode'. unfold ref_of. now rewrite Hid, Hlat, Hlng.
    + rewrite Hd', Hd. apply haversineDistance_sym.
Qed.

(** X12.  On a box between the 90th parallels and for a grid step of at
    least 1e-100 degrees, no connection of a built graph leaves its row:
    the two ends of every connection have the same latitude.  (Two rows
    are a grid step of latitude apart, more than 111 km per degree, and
    neighbours are at most 1.5 km per degree apart.  The bound on the grid
    step keeps the doubles of the source away from underflow: at a step
    of 1e-170 the squared sine is 0 and two rows are joined.) *)
Theorem generateGridGraph_edges_in_row :
  forall budget b gridSize graph n c,
    -90 <= minLat b -> maxLat b <= 90 ->
    1e-100 <= gridSize ->
    generateGridGraph Math_random budget b gridSize = Some graph ->
    In n graph -> In c (connections n) ->
    ref_lat (node c) = lat n.
Proof.
  intros budget b gridSize graph n c Hlo Hhi _ Hgraph Hn Hc.
  destruct (generateGridGraph_edge_ends _ _ _ _ _ _ Hgraph Hn Hc)
    as (Hg & Hle & Hd & [Hn1 Hn2] & _ & [Hfar | [Hsame _]]);
    [exfalso | exact Hsame].
  pose proof (haversineDistance_lat (lat n) (lng n)
                (ref_lat (node c)) (ref_lng (node c))
                ltac:(lra) ltac:(lra)) as Hlow.
  rewrite <- Hd in Hlow.
  assert (H3 : 3 < PI) by (pose proof PI2_3_2; lra).
  unfold toRadians in Hlow.
  assert (Hx : 6371 * (gridSize * PI / 180) <=
               6371 * (Rabs (ref_lat (node c) - lat n) * PI / 180)) by nra.
  assert (Hy : gridSize * 1.5 < 6371 * (gridSize * PI / 180)) by nra.
  lra.
Qed.

(** X13.  On a box between the 60th parallels that spans at most 180
    degrees of longitude, and for a grid step of at least 1e-100 degrees,
    a built graph has no connection at all: the neighbour test compares a
    distance in kilometres with one and a half grid steps in degrees, and
    two nodes of the grid are always farther apart than that.  (The bound
    on the grid step keeps the doubles of the source away from underflow:
    at a step of 1e-170 the distance of two neighbours of a row is 0 and
    they are joined.) *)
Theorem generateGridGraph_no_edges :
  forall budget b gridSize graph,
    -60 <= minLat b -> maxLat b <= 60 -> maxLng b - minLng b <= 180 ->
    1e-100 <= gridSize ->
    generateGridGraph Math_random budget b gridSize = Some graph ->
    Forall (fun n => connections n = []) graph.
Proof.
  intros budget b gridSize graph Hlo Hhi Hspan _ Hgraph.
  apply List.Forall_forall. intros n Hn.
  destruct (connections n) as [| c rest] eqn:Hconn; [reflexivity | exfalso].
  assert (Hc : In c (connections n)) by (rewrite Hconn; now left).
  destruct (generateGridGraph_edge_ends _ _ _ _ _ _ Hgraph Hn Hc)
    as (Hg & Hle & Hd & [Hn1 Hn2] & [Hl1 Hl2] & Hsep).
  destruct Hsep as [Hfar | [Hsame Hfar]].
  - pose proof (haversineDistance_lat (lat n) (lng n)
                  (ref_lat (node c)) (ref_lng (node c))
                  ltac:(lra) ltac:(lra)) as Hlow.
    rewrite <- Hd in Hlow.
    assert (H3 : 3 < PI) by (pose proof PI2_3_2; lra).
    unfold toRadians in Hlow.
    assert (Hx : 6371 * (gridSize * PI / 180) <=
                 6371 * (Rabs (ref_lat (node c) - lat n) * PI / 180)) by nra.
    assert (Hy : gridSize * 1.5 < 6371 * (gridSize * PI / 180)) by nra.
    lra.
  - assert (Hspan' : Rabs (ref_lng (node c) - lng n) <= 180)
      by (apply Rabs_le; lra).
    pose proof (haversineDistance_parallel (lat n) (lng n) (ref_lng (node c))
                  gridSize ltac:(lra) Hg (conj Hfar Hspan')) as Hlow.
    rewrite Hsame in Hd. rewrite <- Hd in Hlow. lra.
Qed.
End GridFacts.

(** ** The edge invariant *)







(** X8 on the equator strip with the grid step of the service. *)
Lemma generateGridGraph_returns_iff_witness :
  (exists budget graph,
      generateGridGraph (fun _ => 0) budget equator_bounds 0.005 = Some graph)
  <-> 0 < 0.005.
Proof.
  apply (generateGridGraph_returns_iff (fun _ => 0) equator_bounds 0.005).
  cbn. lra.
Defined.

(** X9 on the graph of the equator strip. *)
Lemma generateGridGraph_nodes_witness :
  map id equator_graph = map node_name (seq 0 (length equator_graph)) /\
  List.NoDup (map id equator_graph) /\
  Forall (fun n => minLat equator_bounds <= lat n <= maxLat equator_bounds /\
                   minLng equator_bounds <= lng n <= maxLng equator_bounds /\
                   type n = "intersection"%string) equator_graph.
Proof.
  apply (generateGridGraph_nodes (fun _ => 0) 3 equator_bounds 0.005
                                 equator_graph).
  apply equator_graph_built.
Defined.

(** X10 on the connection from "node_0" to "node_1" of the graph built on
    the pole. *)
Lemma generateGridGraph_edge_attributes_witness :
  let c := mkConnection (mkRef "node_1" 90 (0 + 0.005))
                        (haversineDistance 90 0 90 (0 + 0.005))
                        (0 * 0.5) 0.1 in
  let n := mkGraphNode "node_0" 90 0 "intersection" [c] in
  distance c = haversineDistance (lat n) (lng n)
                                 (ref_lat (node c)) (ref_lng (node c)) /\
  distance c <= 0.005 * 1.5 /\
  accidentRisk c = 0.1 /\
  (exists k : nat, trafficLevel c = (fun _ : nat => 0) k * 0.5) /\
  ((forall k : nat, 0 <= (fun _ : nat => 0) k < 1) ->
   0 <= trafficLevel c < 0.5).
Proof.
  intros c n.
  apply (generateGridGraph_edge_attributes (fun _ => 0) 3 pole_bounds 0.005
           (pole_graph (fun _ => 0)) n c).
  - apply pole_graph_built.
  - left. reflexivity.
  - left. reflexivity.
Defined.

(** X11 on the same connection. *)
Lemma generateGridGraph_symmetric_witness :
  let c := mkConnection (mkRef "node_1" 90 (0 + 0.005))
                        (haversineDistance 90 0 90 (0 + 0.005))
                        (0 * 0.5) 0.1 in
  let n := mkGraphNode "node_0" 90 0 "intersection" [c] in
  exists m c',
    In m (pole_graph (fun _ => 0)) /\ ref_of m = node c /\
    In c' (connections m) /\ node c' = ref_of n /\
    distance c' = distance c.
Proof.
  intros c n.
  apply (generateGridGraph_symmetric (fun _ => 0) 3 pole_bounds 0.005
           (pole_graph (fun _ => 0)) n c).
  - apply pole_graph_built.
  - left. reflexivity.
  - left. reflexivity.
Defined.

(** X12 on the same connection. *)
Lemma generateGridGraph_edges_in_row_witness :
  let c := mkConnection (mkRef "node_1" 90 (0 + 0.005))
                        (haversineDistance 90 0 90 (0 + 0.005))
                        (0 * 0.5) 0.1 in
  let n := mkGraphNode "node_0" 90 0 "intersection" [c] in
  ref_lat (node c) = lat n.
Proof.
  intros c n.
  apply (generateGridGraph_edges_in_row (fun _ => 0) 3 pole_bounds 0.005
           (pole_graph (fun _ => 0)) n c).
  - cbn. lra.
  - cbn. lra.
  - lra.
  - apply pole_graph_built.
  - left. reflexivity.
  - left. reflexivity.
Defined.

(** X13 on the graph of the equator strip. *)
Lemma generateGridGraph_no_edges_witness :
  Forall (fun n => connections n = []) equator_graph.
Proof.
  apply (generateGridGraph_no_edges (fun _ => 0) 3 equator_bounds 0.005
                                    equator_graph).
  - cbn. lra.
  - cbn. lra.
  - cbn. lra.
  - lra.
  - apply equator_graph_built.
Defined.

End GraphFacts.

(* ================================================================== *)
(** * Properties of the risk enrichment *)
(* ================================================================== *)

Module EnrichmentFacts.
Import Js Geodesy Graph Enrichment Notions GeodesyFacts.

Section EnrichFacts.
Variable turf_distance : R * R -> R * R -> R.
Variable edgePoint : R * R.

Local Abbreviation step := (tally_step turf_distance edgePoint).
Local Abbreviation count l := (fst (tally turf_distance edgePoint l)).
Local Abbreviation total l := (snd (tally turf_distance edgePoint l)).

Lemma tally_step_shift a k t :
  step (k, t) a =
  ((k + fst (step (O, 0%R) a))%nat, t + snd (step (O, 0) a)).
Proof.
  unfold tally_step.
  destruct (Rlt_dec (turf_distance edgePoint (acc_lng a, acc_lat a)) 200);
    cbn [fst snd]; f_equal; try lia; lra.
Qed.

(** The loop started from any pair adds what it adds from [(0, 0)]. *)
Lemma tally_shift accidents : forall k t,
  fold_left step accidents (k, t) =
  ((k + count accidents)%nat, t + total accidents).
Proof.
  unfold tally.
  induction accidents as [| a rest IH]; intros k t; cbn [fold_left].
  - cbn [fst snd]. f_equal; [lia | lra].
  - rewrite (tally_step_shift a k t).
    destruct (step (O, 0) a) as [k0 t0]. cbn [fst snd].
    rewrite (IH (k + k0)%nat (t + t0)), (IH k0 t0). cbn [fst snd].
    f_equal; [lia | lra].
Qed.


Lemma tally_cons_near a rest :
  turf_distance edgePoint (acc_lng a, acc_lat a) < 200 ->
  tally turf_distance edgePoint (a :: rest) =
  (S (count rest), severity_or_5 (severity a) + total rest).
Proof.
  intros Hnear. unfold tally at 1. cbn [fold_left].
  unfold tally_step at 2.
  destruct (Rlt_dec (turf_distance edgePoint (acc_lng a, acc_lat a)) 200);
    [| contradiction].
  rewrite tally_shift. f_equal. lra.
Qed.

Lemma tally_cons_far a rest :
  ~ turf_distance edgePoint (acc_lng a, acc_lat a) < 200 ->
  tally turf_distance edgePoint (a :: rest) =
  tally turf_distance edgePoint rest.
Proof.
  intros Hfar. unfold tally at 1. cbn [fold_left].
  unfold tally_step at 2.
  destruct (Rlt_dec (turf_distance edgePoint (acc_lng a, acc_lat a)) 200);
    [contradiction | reflexivity].
Qed.


Lemma tally_total_nonneg accidents :
  (forall a, In a accidents -> 0 <= severity_or_5 (severity a)) ->
  0 <= total accidents.
Proof.
  induction accidents as [| a rest IH]; intros Hsev.
  - cbn. lra.
  - assert (Hrest : 0 <= total rest) by (apply IH; intros; apply Hsev; now right).
    destruct (Rlt_dec (turf_distance edgePoint (acc_lng a, acc_lat a)) 200)
      as [Hnear | Hfar].
    + rewrite (tally_cons_near a rest Hnear). cbn [snd].
      pose proof (Hsev a (or_introl eq_refl)). lra.
    + now rewrite (tally_cons_far a rest Hfar).
Qed.
End EnrichFacts.

Section RiskFacts.
Variable turf_distance : R * R -> R * R -> R.

(** The risk as a function of the two sums. *)
Lemma enrichedRisk_formula accidents n connection :
  enrichedRisk turf_distance accidents n connection =
  let (nearbyAccidents, totalSeverity) :=
    tally turf_distance (turf_point (edgeCenter n connection)) accidents in
  if (0 <? nearbyAccidents)%nat then
    Math_min 1 ((INR nearbyAccidents * (totalSeverity / INR nearbyAccidents)) / 50)
  else accidentRisk connection.
Proof.
  unfold enrichedRisk, enrichConnection.
  destruct (tally _ _ accidents) as [k t].
  destruct (0 <? k)%nat; reflexivity.
Qed.


(** The enrichment keeps the edges valid when no severity is negative. *)
Lemma enrichWithAccidentData_edges_valid graph query :
  Pathfinder.edges_valid graph ->
  (forall accidents a,
      query = Some accidents -> In a accidents ->
      0 <= severity_or_5 (severity a)) ->
  Pathfinder.edges_valid (enrichWithAccidentData turf_distance graph query).
Proof.
  intros Hvalid Hsev. destruct query as [accidents |]; [| exact Hvalid].
  intros n' c' Hn' Hc'. cbn [enrichWithAccidentData] in Hn'.
  apply in_map_iff in Hn' as (n & <- & Hn). cbn [connections lat lng] in *.
  apply in_map_iff in Hc' as (c & <- & Hc).
  destruct (Hvalid n c Hn Hc) as (Hd & Ht & Hr).
  pose proof (enrichedRisk_formula accidents n c) as Hrisk.
  unfold enrichedRisk in Hrisk.
  assert (Hsame : node (enrichConnection turf_distance accidents n c) = node c /\
                  distance (enrichConnection turf_distance accidents n c)
                  = distance c /\
                  trafficLevel (enrichConnection turf_distance accidents n c)
                  = trafficLevel c).
  { unfold enrichConnection.
    destruct (tally _ _ accidents) as [k t]. destruct (0 <? k)%nat; auto. }
  destruct Hsame as (-> & -> & ->).
  split; [exact Hd |]. split; [exact Ht |].
  rewrite Hrisk.
  pose proof (tally_total_nonneg turf_distance
                (turf_point (edgeCenter n c)) accidents
                (fun a Ha => Hsev accidents a eq_refl Ha)) as Htot.
  destruct (tally _ _ accidents) as [k t]. cbn [snd] in Htot.
  destruct (0 <? k)%nat eqn:Hk; [| exact Hr].
  apply Nat.ltb_lt in Hk.
  replace (INR k * (t / INR k) / 50) with (t / 50)
    by (field; apply not_0_INR; lia).
  unfold Math_min, Rmin. destruct (Rle_dec 1 (t / 50)); lra.
Qed.
End RiskFacts.







(** ** What the enrichment changes *)

Lemma enrichConnection_frame turf_distance accidents n c :
  node (enrichConnection turf_distance accidents n c) = node c /\
  distance (enrichConnection turf_distance accidents n c) = distance c /\
  trafficLevel (enrichConnection turf_distance accidents n c) = trafficLevel c.
Proof.
  unfold enrichConnection.
  destruct (tally _ _ accidents) as [k t]. destruct (0 <? k)%nat; auto.
Qed.

(** X14.  The enrichment changes accident risks only: whatever the
    outcome of the accident query, the graph keeps its nodes, in order,
    with their ids, coordinates and types, and every node keeps its
    connections, in order, with their targets, distances and congestion
    levels. *)
Theorem enrichWithAccidentData_topology :
  forall turf_distance graph query,
    topology (enrichWithAccidentData turf_distance graph query) =
    topology graph.
Proof.
  intros turf_distance graph [accidents |]; [| reflexivity].
  unfold topology, enrichWithAccidentData. rewrite map_map.
  apply map_ext. intros n. cbn [id lat lng type connections].
  f_equal. rewrite map_map. apply map_ext. intros c.
  destruct (enrichConnection_frame turf_distance accidents n c)
    as (-> & -> & ->).
  reflexivity.
Qed.

(** X15.  When no accident counts with a negative severity, the
    enrichment keeps the accident risks in [0, 1]: if every connection of
    the graph has its risk in [0, 1] before, so has every connection
    after. *)
Theorem enrichWithAccidentData_risk_range :
  forall turf_distance graph accidents,
    (forall a, In a accidents -> 0 <= severity_or_5 (severity a)) ->
    (forall n c, In n graph -> In c (connections n) ->
                 0 <= accidentRisk c <= 1) ->
    forall n c,
      In n (enrichWithAccidentData turf_distance graph (Some accidents)) ->
      In c (connections n) ->
      0 <= accidentRisk c <= 1.
Proof.
  intros turf_distance graph accidents Hsev Hrange n' c' Hn' Hc'.
  cbn [enrichWithAccidentData] in Hn'.
  apply in_map_iff in Hn' as (n & <- & Hn). cbn [connections] in Hc'.
  apply in_map_iff in Hc' as (c & <- & Hc).
  pose proof (enrichedRisk_formula turf_distance accidents n c) as Hrisk.
  unfold enrichedRisk in Hrisk. rewrite Hrisk.
  pose proof (tally_total_nonneg turf_distance
                (turf_point (edgeCenter n c)) accidents Hsev) as Htot.
  destruct (tally _ _ accidents) as [k t]. cbn [snd] in Htot.
  destruct (0 <? k)%nat eqn:Hk; [| exact (Hrange n c Hn Hc)].
  apply Nat.ltb_lt in Hk.
  replace (INR k * (t / INR k) / 50) with (t / 50)
    by (field; apply not_0_INR; lia).
  unfold Math_min, Rmin. destruct (Rle_dec 1 (t / 50)); lra.
Qed.

(** X15 on the graph built on the pole and one accident of severity 2
    there. *)
Lemma enrichWithAccidentData_risk_range_witness :
  Forall (fun n => Forall (fun c => 0 <= accidentRisk c <= 1) (connections n))
         (enrichWithAccidentData turf_haversine (pole_graph (fun _ => 0))
                                 (Some [mkAccident 0 90 (Some 2)])).
Proof.
  apply List.Forall_forall. intros n Hn.
  apply List.Forall_forall. intros c Hc.
  apply (enrichWithAccidentData_risk_range turf_haversine
           (pole_graph (fun _ => 0)) [mkAccident 0 90 (Some 2)]
           ltac:(intros a [<- | []]; cbn [severity]; unfold severity_or_5;
                 destruct (Req_dec_T 2 0); lra)
           ltac:(intros n0 c0 [<- | [<- | []]] [<- | []];
                 cbn [accidentRisk]; lra)
           n c Hn Hc).
Defined.

End EnrichmentFacts.

(* ================================================================== *)
(** * Properties of the pathfinder *)
(* ================================================================== *)

Module PathfinderFacts.
Import Js Geodesy Graph Pathfinder Notions.

Lemma calculateEdgeWeight_product connection options :
  calculateEdgeWeight connection options =
  distance connection
  * (if avoidTraffic options then 1 + trafficLevel connection * 2 else 1)
  * (if prioritizeSafety options then 1 + accidentRisk connection * 3 else 1)
  * (if String.eqb (emergencyType options) "fire"
     then 1 + accidentRisk connection else 1).
Proof.
  unfold calculateEdgeWeight.
  destruct (avoidTraffic options), (prioritizeSafety options),
    (String.eqb (emergencyType options) "fire"); ring.
Qed.

(** The multipliers one after the other, from the distance on. *)
Lemma calculateEdgeWeight_in_order connection options :
  calculateEdgeWeight connection options =
  fold_left Rmult (multipliers connection options) (distance connection).
Proof.
  unfold calculateEdgeWeight, multipliers.
  destruct (avoidTraffic options), (prioritizeSafety options),
    (String.eqb (emergencyType options) "fire"); reflexivity.
Qed.

(** In binary64 the multiplications round, and the weight is the result of
    this one sequence of roundings. *)
Lemma calculateEdgeWeight64_in_order connection options :
  Binary64.calculateEdgeWeight64 connection options =
  fold_left PrimFloat.mul (multipliers64 connection options)
            (Binary64.distance64 connection).
Proof.
  unfold Binary64.calculateEdgeWeight64, multipliers64.
  destruct (avoidTraffic options), (prioritizeSafety options),
    (String.eqb (emergencyType options) "fire"); reflexivity.
Qed.

(** An edge of 1.5 km with congestion 0.05 and risk 0.65: whichever two
    multipliers the options switch on, taking them in the opposite order
    gives another weight (4.867500000000001 and 4.8675000000000015 for
    congestion and safety, 7.3012500000000005 and 7.30125 for safety and
    fire, 2.7225 and 2.7224999999999997 for congestion and fire). *)
Lemma calculateEdgeWeight64_exchange :
  let connection :=
    Binary64.mkConnection64 (Binary64.mkRef64 "node_1" 0 0.005)
                            1.5 0.05 0.65 in
  forall options,
    length (multipliers64 connection options) = 2%nat ->
    fold_left PrimFloat.mul (rev (multipliers64 connection options))
              (Binary64.distance64 connection)
    <> Binary64.calculateEdgeWeight64 connection options.
Proof.
  intros connection [safety traffic limit category].
  unfold multipliers64, Binary64.calculateEdgeWeight64, connection.
  cbn [avoidTraffic prioritizeSafety emergencyType Binary64.distance64
       Binary64.trafficLevel64 Binary64.accidentRisk64].
  destruct safety, traffic, (String.eqb category "fire");
    cbn [app length rev fold_left]; intros Hlen; try discriminate Hlen;
    intros H;
    match type of H with
    | _ = ?w => apply (f_equal (fun v => PrimFloat.eqb v w)) in H
    end;
    vm_compute in H; discriminate H.
Qed.

(** C4.  For every edge and every preference setting the edge cost is the
    distance multiplied first by [1 + congestion * 2] when [avoidTraffic]
    is set, then by [1 + accidentRisk * 3] when [prioritizeSafety] is set,
    then by [1 + accidentRisk] when the emergency type is "fire": over the
    reals, and in binary64, where each multiplication rounds and the order
    can be told from the result, since there is an edge on which any two of
    the multipliers, taken in the opposite order, give another weight. *)
Theorem calculateEdgeWeight_composition :
  (forall (connection : Connection) (options : Options),
     calculateEdgeWeight connection options =
     fold_left Rmult (multipliers connection options)
               (distance connection)) /\
  (forall (connection : Binary64.Connection64) (options : Options),
     Binary64.calculateEdgeWeight64 connection options =
     fold_left PrimFloat.mul (multipliers64 connection options)
               (Binary64.distance64 connection)) /\
  (exists connection : Binary64.Connection64,
     forall options : Options,
       length (multipliers64 connection options) = 2%nat ->
       fold_left PrimFloat.mul (rev (multipliers64 connection options))
                 (Binary64.distance64 connection)
       <> Binary64.calculateEdgeWeight64 connection options).
Proof.
  split; [exact calculateEdgeWeight_in_order |].
  split; [exact calculateEdgeWeight64_in_order |].
  eexists. exact calculateEdgeWeight64_exchange.
Qed.

(** Every multiplier is at least 1 on an edge with non-negative congestion
    and risk, so the weight of an edge of non-negative length is at least
    its length. *)
Lemma calculateEdgeWeight_ge_distance connection options :
  0 <= distance connection ->
  0 <= trafficLevel connection ->
  0 <= accidentRisk connection ->
  distance connection <= calculateEdgeWeight connection options.
Proof.
  intros Hd Ht Hr. rewrite calculateEdgeWeight_product.
  set (d := distance connection) in *.
  set (m1 := if avoidTraffic options then _ else _).
  set (m2 := if prioritizeSafety options then _ else _).
  set (m3 := if String.eqb _ _ then _ else _).
  assert (H1 : 1 <= m1) by (subst m1; destruct (avoidTraffic options); lra).
  assert (H2 : 1 <= m2) by (subst m2; destruct (prioritizeSafety options); lra).
  assert (H3 : 1 <= m3) by (subst m3; destruct (String.eqb _ _); lra).
  assert (Ha : d <= d * m1) by nra.
  assert (Hb : d * m1 <= d * m1 * m2) by nra.
  assert (Hc : d * m1 * m2 <= d * m1 * m2 * m3) by nra.
  lra.
Qed.

(** ** The search *)

Lemma orInfinity_zero : orInfinity (Some 0) = Infinity.
Proof.
  unfold orInfinity. destruct (Req_dec_T 0 0) as [_ | H]; [reflexivity | lra].
Qed.

(** A node whose recorded cost is 0 relaxes none of its connections:
    [0 || Infinity] is [Infinity], and [Infinity] is below no score. *)
Lemma relax_from_zero graph endNode options current st connection :
  gScore st !! id current = Some 0 ->
  relax graph endNode options current st connection = st.
Proof.
  intros Hg. unfold relax.
  destruct (decide (ref_id (node connection) ∈ closedSet st)); [reflexivity |].
  rewrite Hg, orInfinity_zero. reflexivity.
Qed.

Lemma fold_relax_from_zero graph endNode options current conns st :
  gScore st !! id current = Some 0 ->
  fold_left (relax graph endNode options current) conns st = st.
Proof.
  intros Hg. induction conns as [| c conns IH]; simpl; [reflexivity |].
  now rewrite relax_from_zero.
Qed.

(** What the pathfinder returns: the one-node path when start and goal
    carry the same id, [null] otherwise, in at most two passes of the
    loop. *)
Lemma aStarPathfinding_outcome graph budget startNode endNode options :
  (2 <= budget)%nat ->
  aStarPathfinding graph budget startNode endNode options =
  Some (if String.eqb (id startNode) (id endNode)
        then Some (mkRoute [startNode] [])
        else None).
Proof.
  intros Hb. destruct budget as [| [| k]]; [lia | lia |].
  unfold aStarPathfinding.
  change (enqueue startNode ?h []) with [(startNode, h)].
  cbn [search dequeue openSet fst].
  destruct (String.eqb (id startNode) (id endNode)).
  - cbn [cameFrom]. unfold reconstructPath.
    rewrite map_size_empty. cbn [walk_back].
    now rewrite lookup_empty.
  - cbn [closedSet cameFrom gScore fScore].
    rewrite fold_relax_from_zero.
    + reflexivity.
    + cbn [gScore]. apply lookup_singleton_eq.
Qed.

(** ** Admissibility of the heuristic *)

Lemma heuristic_triangle a b c :
  heuristic a c <= heuristic a b + heuristic b c.
Proof. unfold heuristic. apply GeodesyFacts.haversineDistance_triangle. Qed.

(** Along every walk of a graph with valid edges, the great-circle distance
    from the first node to the last is at most the weighted cost. *)
Lemma path_cost_lower_bound graph options :
  edges_valid graph ->
  forall start path goal,
    graph_path graph start path goal ->
    heuristic start goal <= path_cost options path.
Proof.
  intros Hvalid start path goal Hpath.
  induction Hpath as [r | n c rest goal Hn Hc Hrest IH].
  - unfold heuristic. rewrite GeodesyFacts.haversineDistance_same.
    cbn [path_cost fold_right]. lra.
  - destruct (Hvalid n c Hn Hc) as (Hd & Ht & Hr).
    assert (Hw : distance c <= calculateEdgeWeight c options).
    { apply calculateEdgeWeight_ge_distance; try lra.
      rewrite Hd. apply GeodesyFacts.haversineDistance_nonneg. }
    pose proof (heuristic_triangle (ref_of n) (node c) goal) as Htri.
    assert (Hfirst : heuristic (ref_of n) (node c) = distance c).
    { now rewrite Hd. }
    cbn [path_cost fold_right]. fold (path_cost options rest). lra.
Qed.

(** C2.  For every edge of non-negative length whose congestion level and
    accident risk lie in [0, 1], and for every preference setting, the
    weight returned by [calculateEdgeWeight] is at least the distance of the
    edge; so, on a graph whose edges carry the great-circle distance of
    their ends, the heuristic never exceeds the weighted cost of a walk to
    the goal. *)
Theorem heuristic_admissible :
  (forall connection options,
      0 <= distance connection ->
      0 <= trafficLevel connection <= 1 ->
      0 <= accidentRisk connection <= 1 ->
      distance connection <= calculateEdgeWeight connection options) /\
  (forall graph options start path goal,
      edges_valid graph ->
      graph_path graph start path goal ->
      heuristic start goal <= path_cost options path).
Proof.
  split.
  - intros connection options Hd Ht Hr.
    apply calculateEdgeWeight_ge_distance; lra.
  - intros graph options start path goal Hvalid Hpath.
    now apply path_cost_lower_bound with (graph := graph).
Qed.

(** C2 on an edge of half a kilometre and on the one-edge walk of a graph
    of two nodes. *)
Lemma heuristic_admissible_witness :
  let options := mkOptions true true None "fire" in
  let edge := mkConnection (mkRef "node_1" 0 0.005) 0.5 0.25 0.1 in
  let c := mkConnection (mkRef "node_1" 0 1) (haversineDistance 0 0 0 1)
                        0.25 0.1 in
  let n0 := mkGraphNode "node_0" 0 0 "intersection" [c] in
  let n1 := mkGraphNode "node_1" 0 1 "intersection" [] in
  distance edge <= calculateEdgeWeight edge options /\
  heuristic (ref_of n0) (ref_of n1) <= path_cost options [c].
Proof.
  intros options edge c n0 n1. split.
  - apply (proj1 heuristic_admissible edge options); cbn; lra.
  - apply (proj2 heuristic_admissible [n0; n1] options
                 (ref_of n0) [c] (ref_of n1)).
    + intros n c' Hn Hc'.
      destruct Hn as [<- | [<- | []]]; cbn in Hc'.
      * destruct Hc' as [<- | []]. cbn. repeat split; lra.
      * destruct Hc'.
    + apply (path_go [n0; n1] n0 c [] (ref_of n1)).
      * left. reflexivity.
      * left. reflexivity.
      * apply path_stop.
Defined.

(** ** The weight of an edge *)

Lemma calculateEdgeWeight_mono c c' options :
  distance c = distance c' -> 0 <= distance c ->
  0 <= trafficLevel c <= trafficLevel c' ->
  0 <= accidentRisk c <= accidentRisk c' ->
  calculateEdgeWeight c options <= calculateEdgeWeight c' options.
Proof.
  intros Hd Hd0 Ht Hr. rewrite !calculateEdgeWeight_product, <- Hd.
  set (d := distance c) in *.
  set (m1 := if avoidTraffic options then 1 + trafficLevel c * 2 else 1).
  set (m1' := if avoidTraffic options then 1 + trafficLevel c' * 2 else 1).
  set (m2 := if prioritizeSafety options then 1 + accidentRisk c * 3 else 1).
  set (m2' := if prioritizeSafety options then 1 + accidentRisk c' * 3 else 1).
  set (m3 := if String.eqb _ _ then 1 + accidentRisk c else 1).
  set (m3' := if String.eqb _ _ then 1 + accidentRisk c' else 1).
  assert (H1 : 1 <= m1 <= m1')
    by (subst m1 m1'; destruct (avoidTraffic options); lra).
  assert (H2 : 1 <= m2 <= m2')
    by (subst m2 m2'; destruct (prioritizeSafety options); lra).
  assert (H3 : 1 <= m3 <= m3')
    by (subst m3 m3'; destruct (String.eqb _ _); lra).
  assert (Ha : d * m1 <= d * m1') by nra.
  assert (Ha0 : 0 <= d * m1) by nra.
  assert (Hb : d * m1 * m2 <= d * m1' * m2') by nra.
  assert (Hb0 : 0 <= d * m1 * m2) by nra.
  nra.
Qed.

Lemma calculateEdgeWeight_le_24 c options :
  0 <= distance c -> 0 <= trafficLevel c <= 1 -> 0 <= accidentRisk c <= 1 ->
  calculateEdgeWeight c options <= 24 * distance c.
Proof.
  intros Hd Ht Hr. rewrite calculateEdgeWeight_product.
  set (d := distance c) in *.
  set (m1 := if avoidTraffic options then _ else _).
  set (m2 := if prioritizeSafety options then _ else _).
  set (m3 := if String.eqb _ _ then _ else _).
  assert (H1 : 1 <= m1 <= 3) by (subst m1; destruct (avoidTraffic options); lra).
  assert (H2 : 1 <= m2 <= 4)
    by (subst m2; destruct (prioritizeSafety options); lra).
  assert (H3 : 1 <= m3 <= 2) by (subst m3; destruct (String.eqb _ _); lra).
  assert (Ha : 0 <= d * m1 <= 3 * d) by nra.
  assert (Hb : 0 <= d * m1 * m2 <= 12 * d) by nra.
  nra.
Qed.

(** ** The priority queue *)

Lemma sort_insert_perm x items : Permutation (sort_insert x items) (x :: items).
Proof.
  induction items as [| y rest IH]; cbn [sort_insert]; [reflexivity |].
  destruct (Rle_dec (snd x) (snd y)); [reflexivity |].
  rewrite IH. apply perm_swap.
Qed.

Lemma sort_items_perm items : Permutation (sort_items items) items.
Proof.
  induction items as [| x rest IH]; cbn [sort_items fold_right]; [reflexivity |].
  fold (sort_items rest). rewrite sort_insert_perm. now constructor.
Qed.

Lemma sort_insert_sorted x items :
  StronglySorted by_priority items ->
  StronglySorted by_priority (sort_insert x items).
Proof.
  induction 1 as [| y rest Hrest IH Hy]; cbn [sort_insert].
  - repeat constructor.
  - destruct (Rle_dec (snd x) (snd y)) as [Hle | Hgt].
    + constructor; [now constructor |].
      constructor; [exact Hle |].
      eapply List.Forall_impl; [| exact Hy]. unfold by_priority. intros; lra.
    + constructor; [exact IH |].
      rewrite List.Forall_forall. intros z Hz.
      apply (Permutation_in _ (sort_insert_perm x rest)) in Hz.
      destruct Hz as [<- | Hz].
      * unfold by_priority. lra.
      * rewrite List.Forall_forall in Hy. now apply Hy.
Qed.

Lemma sort_items_sorted items : StronglySorted by_priority (sort_items items).
Proof.
  induction items as [| x rest IH]; cbn [sort_items fold_right];
    [constructor |].
  now apply sort_insert_sorted.
Qed.

Lemma sort_insert_head x items :
  Forall (by_priority x) items -> sort_insert x items = x :: items.
Proof.
  intros H. destruct items as [| y rest]; [reflexivity |]. cbn [sort_insert].
  inversion H; subst. destruct (Rle_dec (snd x) (snd y)); [reflexivity |].
  unfold by_priority in *. lra.
Qed.

(** X16.  After [enqueue] the queue holds what it held and the new entry,
    ordered by priority, whatever the order before; so the next [dequeue]
    returns an entry of least priority. *)
Theorem enqueue_sorted_permutation :
  forall (q : PriorityQueue) (item : GraphNode) (priority : R),
    let q' := enqueue item priority q in
    Permutation q' (q ++ [(item, priority)]) /\
    StronglySorted by_priority q' /\
    exists first rest,
      dequeue q' = (Some (fst first), rest) /\ q' = first :: rest /\
      Forall (by_priority first) rest.
Proof.
  intros q item priority q'.
  assert (Hperm : Permutation q' (q ++ [(item, priority)]))
    by apply sort_items_perm.
  assert (Hsorted : StronglySorted by_priority q') by apply sort_items_sorted.
  split; [exact Hperm |]. split; [exact Hsorted |].
  destruct q' as [| first rest] eqn:E.
  - apply Permutation_nil in Hperm. now destruct q.
  - exists first, rest. repeat split. now inversion Hsorted.
Qed.

(** X17.  On a queue that is ordered, [enqueue] leaves the entries where
    they are and puts the new entry behind every entry of lower or equal
    priority and before every entry of higher priority: entries of equal
    priority leave the queue in the order they entered it. *)
Theorem enqueue_fifo :
  forall (q : PriorityQueue) (item : GraphNode) (priority : R),
    StronglySorted by_priority q ->
    exists before after,
      q = before ++ after /\
      enqueue item priority q = before ++ (item, priority) :: after /\
      Forall (fun y => snd y <= priority) before /\
      Forall (fun y => priority < snd y) after.
Proof.
  intros q item priority.
  unfold enqueue, sort_items. rewrite fold_right_app.
  cbn [fold_right sort_insert].
  induction 1 as [| y rest Hrest IH Hy].
  - exists [], []. repeat split; constructor.
  - destruct IH as (before & after & Hq & He & Hb & Ha).
    cbn [fold_right]. rewrite He.
    destruct before as [| h before'].
    + cbn [app] in *. subst after. cbn [sort_insert snd].
      destruct (Rle_dec (snd y) priority) as [Hle | Hgt].
      * exists [y], rest. repeat split; auto.
      * exists [], (y :: rest). rewrite (sort_insert_head y rest Hy).
        repeat split; auto. constructor; [lra |].
        eapply List.Forall_impl; [| exact Hy]. unfold by_priority. intros; lra.
    + cbn [app sort_insert].
      assert (Hyh : snd y <= snd h).
      { rewrite Hq in Hy. inversion Hy; subst. assumption. }
      destruct (Rle_dec (snd y) (snd h)); [| lra].
      exists (y :: h :: before'), after. rewrite Hq. repeat split; auto.
      constructor; [| exact Hb]. inversion Hb; subst. lra.
Qed.

(** X17 on a queue of two entries of priorities 1 and 2 and a new entry of
    priority 1. *)
Lemma enqueue_fifo_witness :
  let n0 := new_GraphNode "node_0" 0 0 in
  let n1 := new_GraphNode "node_1" 0 1 in
  let n2 := new_GraphNode "node_2" 0 2 in
  let q : PriorityQueue := [(n0, 1); (n1, 2)] in
  exists before after,
    q = before ++ after /\
    enqueue n2 1 q = before ++ (n2, 1) :: after /\
    Forall (fun y => snd y <= 1) before /\
    Forall (fun y => 1 < snd y) after.
Proof.
  intros n0 n1 n2 q.
  apply (enqueue_fifo q n2 1).
  repeat constructor. unfold by_priority. cbn [snd]. lra.
Defined.

(** ** The search never leaves the start *)

(** X18.  Whatever the graph, within two passes of its loop the
    pathfinder returns [null] when start and goal have different ids, also
    when the goal is one connection away; a route it returns is the start
    node alone, without connection, start and goal having the same id.
    (The cost 0 recorded for the start is read back as [0 || Infinity], so
    no neighbour of the start is ever entered in the open set.) *)
Theorem aStarPathfinding_start_only :
  forall graph budget startNode endNode options,
    (2 <= budget)%nat ->
    (id startNode <> id endNode ->
     aStarPathfinding graph budget startNode endNode options = Some None) /\
    (forall route,
        aStarPathfinding graph budget startNode endNode options =
        Some (Some route) ->
        id startNode = id endNode /\
        nodes route = [startNode] /\ path_connections route = []).
Proof.
  intros graph budget s e options Hb.
  rewrite aStarPathfinding_outcome by exact Hb.
  destruct (String.eqb_spec (id s) (id e)) as [Heq | Hne]; split.
  - intros H. contradiction.
  - intros route H. inversion H; subst. auto.
  - reflexivity.
  - intros route H. discriminate H.
Qed.

(** X18 on a graph of two nodes with a connection from the start to the
    goal. *)
Lemma aStarPathfinding_start_only_witness :
  let c := mkConnection (mkRef "node_1" 0 1) (haversineDistance 0 0 0 1)
                        0.25 0.1 in
  let n0 := mkGraphNode "node_0" 0 0 "intersection" [c] in
  let n1 := mkGraphNode "node_1" 0 1 "intersection" [] in
  let options := mkOptions true true None "general" in
  graph_path [n0; n1] (ref_of n0) [c] (ref_of n1) /\
  ((id n0 <> id n1 ->
    aStarPathfinding [n0; n1] 2 n0 n1 options = Some None) /\
   (forall route,
       aStarPathfinding [n0; n1] 2 n0 n1 options = Some (Some route) ->
       id n0 = id n1 /\ nodes route = [n0] /\ path_connections route = [])).
Proof.
  intros c n0 n1 options. split.
  - apply (path_go [n0; n1] n0 c [] (ref_of n1)).
    + left. reflexivity.
    + left. reflexivity.
    + apply path_stop.
  - apply (aStarPathfinding_start_only [n0; n1] 2 n0 n1 options). lia.
Defined.

(** X19.  The weight of an edge grows with congestion and risk: of two
    connections of the same non-negative length, the one with the higher
    (non-negative) congestion level and accident risk weighs at least as
    much, for every preference setting. *)
Theorem calculateEdgeWeight_monotone :
  forall c c' options,
    distance c = distance c' -> 0 <= distance c ->
    0 <= trafficLevel c <= trafficLevel c' ->
    0 <= accidentRisk c <= accidentRisk c' ->
    calculateEdgeWeight c options <= calculateEdgeWeight c' options.
Proof. exact calculateEdgeWeight_mono. Qed.

(** X19 on two connections of half a kilometre. *)
Lemma calculateEdgeWeight_monotone_witness :
  calculateEdgeWeight (mkConnection (mkRef "node_1" 0 0.005) 0.5 0.1 0.1)
                      (mkOptions true true None "fire") <=
  calculateEdgeWeight (mkConnection (mkRef "node_1" 0 0.005) 0.5 0.3 0.2)
                      (mkOptions true true None "fire").
Proof.
  apply (calculateEdgeWeight_monotone
           (mkConnection (mkRef "node_1" 0 0.005) 0.5 0.1 0.1)
           (mkConnection (mkRef "node_1" 0 0.005) 0.5 0.3 0.2)
           (mkOptions true true None "fire")); cbn; lra.
Defined.

(** X20.  For an edge of non-negative length whose congestion level and
    accident risk lie in [0, 1], the weight is at most 24 times the
    distance, for every preference setting (the three multipliers are at
    most 3, 4 and 2). *)
Theorem calculateEdgeWeight_upper :
  forall c options,
    0 <= distance c -> 0 <= trafficLevel c <= 1 -> 0 <= accidentRisk c <= 1 ->
    calculateEdgeWeight c options <= 24 * distance c.
Proof. exact calculateEdgeWeight_le_24. Qed.

(** X20 on a connection of half a kilometre with congestion and risk 1. *)
Lemma calculateEdgeWeight_upper_witness :
  calculateEdgeWeight (mkConnection (mkRef "node_1" 0 0.005) 0.5 1 1)
                      (mkOptions true true None "fire") <=
  24 * distance (mkConnection (mkRef "node_1" 0 0.005) 0.5 1 1).
Proof.
  apply (calculateEdgeWeight_upper
           (mkConnection (mkRef "node_1" 0 0.005) 0.5 1 1)
           (mkOptions true true None "fire")); cbn; lra.
Defined.

(** ** The path read back from the predecessor map *)

Lemma walk_back_spec cf target : forall budget current tail conns route,
  linked cf (current :: tail) conns ->
  (exists pre, current :: tail = pre ++ [target]) ->
  walk_back budget cf current (current :: tail) conns = Some route ->
  linked cf (nodes route) (path_connections route) /\
  (exists pre, nodes route = pre ++ [target]) /\
  (exists first rest, nodes route = first :: rest /\ cf !! id first = None).
Proof.
  induction budget as [| k IH]; intros current tail conns route Hl Hp H;
    [discriminate |].
  cbn [walk_back] in H.
  destruct (cf !! id current) as [[n connection] |] eqn:E.
  - apply IH in H; [exact H | |].
    + cbn [linked]. split; [exact E | exact Hl].
    + destruct Hp as [pre Hp]. exists (n :: pre). cbn [app]. now rewrite Hp.
  - inversion H; subst. cbn [nodes path_connections].
    split; [exact Hl |]. split; [exact Hp |]. eauto.
Qed.

Lemma linked_length cf ns conns :
  linked cf ns conns -> length ns = S (length conns).
Proof.
  revert conns. induction ns as [| a ns IH]; intros conns H; [destruct H |].
  destruct ns as [| b ns'].
  - destruct conns; [reflexivity | destruct H].
  - destruct conns as [| c cs]; [destruct H |]. destruct H as [_ H].
    cbn [length]. f_equal. now apply IH.
Qed.

(** Along a map without cycle the walk ends within the budget. *)
Lemma walk_back_returns cf rank :
  acyclic cf rank ->
  forall budget current path conns,
    (size (below cf rank (rank (id current))) < budget)%nat ->
    exists route, walk_back budget cf current path conns = Some route.
Proof.
  intros Hacyclic. induction budget as [| k IH]; intros current path conns Hb;
    [lia |].
  cbn [walk_back].
  destruct (cf !! id current) as [[n connection] |] eqn:E; [| eauto].
  apply IH.
  pose proof (Hacyclic _ _ _ E) as Hlt.
  assert (Hsub : below cf rank (rank (id n)) ⊂
                 below cf rank (rank (id current))).
  { unfold below. split.
    - intros key Hk. apply elem_of_filter in Hk as [Hk Hd].
      apply elem_of_filter. split; [lia | exact Hd].
    - intros Hall.
      assert (Hin : id current ∈
                    filter (fun key => (rank key <= rank (id current))%nat)
                           (dom cf)).
      { apply elem_of_filter. split; [lia |]. apply elem_of_dom. eauto. }
      apply Hall in Hin. apply elem_of_filter in Hin as [Hin _]. lia. }
  apply subset_size in Hsub. lia.
Qed.

Lemma reconstructPath_returns cf rank current :
  acyclic cf rank ->
  exists route, reconstructPath cf current = Some route.
Proof.
  intros H. unfold reconstructPath. apply (walk_back_returns cf rank H).
  assert (Hle : (size (below cf rank (rank (id current))) <= size (dom cf))%nat).
  { apply subseteq_size. unfold below. intros key Hk.
    now apply elem_of_filter in Hk as [_ Hk]. }
  rewrite size_dom in Hle. lia.
Qed.

(** X21.  On a predecessor map without cycle, [reconstructPath] returns a
    route: its nodes end with the node it was called on and start with a
    node that has no predecessor; each node but the first is recorded in
    the map with the node before it and the connection at the same place
    of the route; there is one connection less than there are nodes. *)
Theorem reconstructPath_chain :
  forall cameFrom_ rank current,
    acyclic cameFrom_ rank ->
    exists route,
      reconstructPath cameFrom_ current = Some route /\
      linked cameFrom_ (nodes route) (path_connections route) /\
      length (nodes route) = S (length (path_connections route)) /\
      (exists pre, nodes route = pre ++ [current]) /\
      (exists first rest, nodes route = first :: rest /\
                          cameFrom_ !! id first = None).
Proof.
  intros cf rank current Hacyclic.
  destruct (reconstructPath_returns cf rank current Hacyclic) as [route H].
  exists route. split; [exact H |].
  unfold reconstructPath in H.
  apply (walk_back_spec cf current) in H.
  - destruct H as (Hl & Hp & Hf). repeat split; auto.
    now apply linked_length with (cf := cf).
  - exact I.
  - now exists [].
Qed.

(** X21 on the map that records "node_0" as the predecessor of
    "node_1". *)
Lemma reconstructPath_chain_witness :
  let c := mkConnection (mkRef "node_1" 0 1) (haversineDistance 0 0 0 1)
                        0.25 0.1 in
  let n0 := mkGraphNode "node_0" 0 0 "intersection" [c] in
  let n1 := mkGraphNode "node_1" 0 1 "intersection" [] in
  let cameFrom_ : gmap string (GraphNode * Connection) :=
    {["node_1"%string := (n0, c)]} in
  exists route,
    reconstructPath cameFrom_ n1 = Some route /\
    linked cameFrom_ (nodes route) (path_connections route) /\
    length (nodes route) = S (length (path_connections route)) /\
    (exists pre, nodes route = pre ++ [n1]) /\
    (exists first rest, nodes route = first :: rest /\
                        cameFrom_ !! id first = None).
Proof.
  intros c n0 n1 cameFrom_.
  apply (reconstructPath_chain cameFrom_
           (fun key => if String.eqb key "node_1" then 1%nat else 0%nat) n1).
  intros key n connection H.
  apply lookup_singleton_Some in H as [<- H]. inversion H; subst.
  cbn. lia.
Defined.

End PathfinderFacts.

(* ================================================================== *)
(** * Properties of the route service *)
(* ================================================================== *)

Module ServiceFacts.
Import Js Geodesy Graph Pathfinder Service Notions PathfinderFacts.

Lemma Math_round_IZR z : Math_round (IZR z) = IZR z.
Proof.
  unfold Math_round. f_equal. symmetry. apply Int_part_spec. lra.
Qed.

Lemma Math_round_0 : Math_round 0 = 0.
Proof. exact (Math_round_IZR 0). Qed.

(** The metadata of a path without connections. *)
Lemma calculateRouteMetadata_single ns :
  calculateRouteMetadata (mkRoute ns []) =
  mkMetadata 0 0 (length ns) 0 0 100 (mkCriteria true true true true).
Proof.
  unfold calculateRouteMetadata. cbn [path_connections nodes fold_left length].
  cbn [Nat.ltb Nat.leb].
  replace (0 * 100) with 0 by ring.
  replace ((1 - 0) * 100) with 100 by ring.
  rewrite Math_round_0, (Math_round_IZR 100).
  replace (0 / 100) with 0 by field.
  unfold Rltb.
  destruct (Rlt_dec 0 0.3) as [_ | H]; [| lra].
  destruct (Rlt_dec 70 100) as [_ | H]; [| lra].
  destruct (Rlt_dec 0 30) as [_ | H]; [| lra].
  reflexivity.
Qed.

(** A graph with a node always has a nearest node. *)
Lemma nearest_step_keeps point acc n :
  fst acc <> None -> fst (nearest_step point acc n) <> None.
Proof.
  intros H. unfold nearest_step.
  destruct (score_ltb _ _); [discriminate | exact H].
Qed.

Lemma findNearestNode_nonempty graph point :
  graph <> [] -> exists n, findNearestNode graph point = Some n.
Proof.
  intros Hne. destruct graph as [| first rest]; [contradiction |].
  unfold findNearestNode. cbn [fold_left].
  assert (H : forall l acc,
             fst acc <> None ->
             fst (fold_left (nearest_step point) l acc) <> None).
  { induction l as [| x l IH]; intros acc Hacc; cbn [fold_left];
      [exact Hacc |].
    apply IH. now apply nearest_step_keeps. }
  specialize (H rest (nearest_step point (None, Infinity) first)).
  destruct (fst (fold_left _ rest _)) as [n |] eqn:E.
  - now exists n.
  - exfalso. apply H; [| reflexivity]. cbn. discriminate.
Qed.

Section RouteFacts.
Variable toFixed : R -> nat -> string.
Variable toString : R -> string.
Variable turf_distance : R * R -> R * R -> R.

(** The route computed when start and end have the same nearest node. *)
Lemma routeOnGraph_same_node graph budget start end_ preferences n :
  (2 <= budget)%nat ->
  findNearestNode graph start = Some n ->
  findNearestNode graph end_ = Some n ->
  routeOnGraph toFixed graph budget start end_ preferences =
  Some (Success (convertToGeoJSON (mkRoute [n] [])) []
                (mkMetadata 0 0 1 0 0 100 (mkCriteria true true true true))).
Proof.
  intros Hb Hs He. unfold routeOnGraph.
  rewrite Hs, He, aStarPathfinding_outcome by exact Hb.
  rewrite String.eqb_refl.
  now rewrite calculateRouteMetadata_single.
Qed.

(** The route computed when the two nearest nodes carry different ids. *)
Lemma routeOnGraph_two_nodes graph budget start end_ preferences
      startNode endNode :
  (2 <= budget)%nat ->
  findNearestNode graph start = Some startNode ->
  findNearestNode graph end_ = Some endNode ->
  String.eqb (id startNode) (id endNode) = false ->
  routeOnGraph toFixed graph budget start end_ preferences =
  Some (Failure "No valid route found").
Proof.
  intros Hb Hs He Hne. unfold routeOnGraph.
  rewrite Hs, He, aStarPathfinding_outcome by exact Hb.
  now rewrite Hne.
Qed.

(** C1, amended.  If the start and end coordinates map to the same
    nearest node of the graph of the request, the route computation
    succeeds with a path of exactly one node (that node), total distance 0,
    estimated time 0, and an empty instruction list. *)
Theorem calculateOptimalRoute_trivial :
  forall cache world budget start end_ preferences graph cache' n,
    (2 <= budget)%nat ->
    buildRouteGraph toString turf_distance cache world budget start end_ =
    Some (graph, cache') ->
    findNearestNode graph start = Some n ->
    findNearestNode graph end_ = Some n ->
    exists route metadata,
      calculateOptimalRoute toFixed toString turf_distance cache world budget
                            start end_ preferences =
      Some (Success route [] metadata, cache') /\
      geometry_coordinates route = [(lng n, lat n)] /\
      waypoints metadata = 1%nat /\
      totalDistanceKm metadata = 0 /\
      estimatedTimeMin metadata = 0.
Proof.
  intros cache world budget start end_ preferences graph cache' n
         Hb Hg Hs He.
  eexists _, _. split.
  - unfold calculateOptimalRoute. rewrite Hg.
    now rewrite (routeOnGraph_same_node _ _ _ _ _ n Hb Hs He).
  - repeat split.
Qed.

(** C5.  When the goal node cannot be reached from the start node, the
    pathfinder returns the no-path outcome, and the route computation
    returns a failure result that carries a reason, within two passes of
    the search loop. *)
Theorem calculateOptimalRoute_no_path :
  forall cache world budget start end_ preferences graph cache'
         startNode endNode,
    (2 <= budget)%nat ->
    buildRouteGraph toString turf_distance cache world budget start end_ =
    Some (graph, cache') ->
    findNearestNode graph start = Some startNode ->
    findNearestNode graph end_ = Some endNode ->
    ~ reachable graph startNode (id endNode) ->
    (forall options,
        aStarPathfinding graph budget startNode endNode options = Some None) /\
    calculateOptimalRoute toFixed toString turf_distance cache world budget
                          start end_ preferences =
    Some (Failure "No valid route found", cache') /\
    (forall result cache'',
        calculateOptimalRoute toFixed toString turf_distance cache world budget
                              start end_ preferences =
        Some (result, cache'') -> success result = false).
Proof.
  intros cache world budget start end_ preferences graph cache'
         startNode endNode Hb Hg Hs He Hun.
  assert (Hne : String.eqb (id startNode) (id endNode) = false).
  { destruct (String.eqb_spec (id startNode) (id endNode)) as [Heq | Hneq];
      [| reflexivity].
    exfalso. apply Hun. rewrite <- Heq. constructor. }
  assert (Hsearch : forall options,
             aStarPathfinding graph budget startNode endNode options =
             Some None).
  { intros options. rewrite aStarPathfinding_outcome by exact Hb.
    now rewrite Hne. }
  assert (Hroute :
            calculateOptimalRoute toFixed toString turf_distance cache world
                                  budget start end_ preferences =
            Some (Failure "No valid route found", cache')).
  { unfold calculateOptimalRoute. rewrite Hg.
    now rewrite (routeOnGraph_two_nodes _ _ _ _ _ _ _ Hb Hs He Hne). }
  split; [exact Hsearch |]. split; [exact Hroute |].
  intros result cache'' Hr. rewrite Hroute in Hr. now inversion Hr.
Qed.

(** ** Turn classification *)

Lemma classifyTurn_cases t :
  (Rabs t <= 30 -> fst (classifyTurn t) = "straight") /\
  (30 < t < 150 -> fst (classifyTurn t) = "turn_right") /\
  (-150 < t < -30 -> fst (classifyTurn t) = "turn_left") /\
  (150 <= Rabs t -> fst (classifyTurn t) = "u_turn").
Proof.
  unfold classifyTurn, Rltb, Rleb, Math_abs, Rabs.
  destruct (Rcase_abs t);
    destruct (Rlt_dec 30 t), (Rlt_dec t 150), (Rlt_dec t (-30)),
      (Rlt_dec (-150) t);
    cbn [andb];
    match goal with
    | |- context [Rle_dec ?a ?b] => destruct (Rle_dec a b)
    | _ => idtac
    end;
    cbn [fst]; repeat split; intros; try reflexivity; lra.
Qed.

(** C7, the claim at 30 degrees: the source names the turn "straight", the
    classification of the specification puts 30 in the right-turn band. *)
Lemma classifyTurn_30_not_spec :
  fst (classifyTurn 30) = "straight" /\
  spec_turn_action 30 = "turn_right" /\
  fst (classifyTurn 30) <> spec_turn_action 30.
Proof.
  assert (H1 : fst (classifyTurn 30) = "straight").
  { apply classifyTurn_cases. rewrite Rabs_right; lra. }
  assert (H2 : spec_turn_action 30 = "turn_right").
  { unfold spec_turn_action, Rltb, Rleb. rewrite Rabs_right by lra.
    destruct (Rlt_dec 30 30); [lra |].
    destruct (Rle_dec 30 30); [| lra].
    destruct (Rlt_dec 30 150); [reflexivity | lra]. }
  repeat split; [exact H1 | exact H2 |].
  rewrite H1, H2. discriminate.
Qed.

(** Away from the two bounds 30 and -30 the source and the classification
    of the specification agree. *)
Lemma classifyTurn_spec_elsewhere t :
  t <> 30 -> t <> -30 -> fst (classifyTurn t) = spec_turn_action t.
Proof.
  intros H30 Hm30.
  unfold classifyTurn, spec_turn_action, Rltb, Rleb, Math_abs, Rabs.
  destruct (Rcase_abs t);
    destruct (Rlt_dec 30 t), (Rlt_dec t 150), (Rlt_dec t (-30)),
      (Rlt_dec (-150) t), (Rle_dec 30 t), (Rle_dec t (-30));
    cbn [andb];
    repeat match goal with
           | |- context [Rle_dec ?a ?b] => destruct (Rle_dec a b)
           | |- context [Rlt_dec ?a ?b] => destruct (Rlt_dec a b)
           end;
    cbn [fst]; try reflexivity; exfalso; lra.
Qed.

Lemma intermediate_unfold i a b c l conns :
  intermediate i (a :: b :: c :: l) conns =
  mkInstruction (i + 1) (fst (classifyTurn (turnAngleAt a b c)))
                (snd (classifyTurn (turnAngleAt a b c)))
                (distance_or_0 conns i)
                (Some (mkCoordinate (lat b) (lng b)))
  :: intermediate (S i) (b :: c :: l) conns.
Proof. reflexivity. Qed.

(** The instruction written for the node that follows [pre] and [prev]. *)
Lemma intermediate_nth pre prev curr next post conns : forall i,
  nth_error (intermediate i (pre ++ prev :: curr :: next :: post) conns)
            (length pre) =
  Some (mkInstruction (i + length pre + 1)
          (fst (classifyTurn (turnAngleAt prev curr next)))
          (snd (classifyTurn (turnAngleAt prev curr next)))
          (distance_or_0 conns (i + length pre))
          (Some (mkCoordinate (lat curr) (lng curr)))).
Proof.
  induction pre as [| p pre IH]; intros i.
  - cbn [app length]. rewrite intermediate_unfold. cbn [nth_error].
    now rewrite !Nat.add_0_r.
  - assert (Hshape : exists b c l,
               pre ++ prev :: curr :: next :: post = b :: c :: l).
    { destruct pre as [| x [| y pre']]; cbn [app]; eauto. }
    destruct Hshape as (b & c & l & Hl).
    change ((p :: pre) ++ prev :: curr :: next :: post)
      with (p :: (pre ++ prev :: curr :: next :: post)).
    rewrite Hl, intermediate_unfold, <- Hl. cbn [length nth_error].
    rewrite IH. do 3 f_equal; lia.
Qed.

(** C7, amended.  For every intermediate node of a route, the instruction
    written for it carries the turn angle
    [normalizeAngle (bearing_out - bearing_in)], which lies in [-180, 180],
    classified as: "straight" when its absolute value is at most 30,
    "turn right" when it is strictly between 30 and 150, "turn left" when it
    is strictly between -150 and -30, "u-turn" when its absolute value is
    at least 150. *)
Theorem generateInstructions_turns :
  forall route pre prev curr next post,
    nodes route = pre ++ prev :: curr :: next :: post ->
    exists instr,
      nth_error (generateInstructions toFixed route) (S (length pre)) =
      Some instr /\
      let t := normalizeAngle
                 (calculateBearing (lat curr) (lng curr) (lat next) (lng next)
                  - calculateBearing (lat prev) (lng prev) (lat curr) (lng curr))
      in
      -180 <= t <= 180 /\
      (Rabs t <= 30 -> action instr = "straight") /\
      (30 < t < 150 -> action instr = "turn_right") /\
      (-150 < t < -30 -> action instr = "turn_left") /\
      (150 <= Rabs t -> action instr = "u_turn").
Proof.
  intros route pre prev curr next post Hn.
  eexists. split.
  - unfold generateInstructions. rewrite Hn.
    assert (Hlen : (length (pre ++ prev :: curr :: next :: post) <? 2)%nat
                   = false).
    { apply Nat.ltb_ge. rewrite length_app. cbn [length]. lia. }
    rewrite Hlen.
    rewrite nth_error_app1.
    + cbn [nth_error]. apply intermediate_nth.
    + cbn [length]. apply -> Nat.succ_lt_mono.
      apply nth_error_Some. rewrite intermediate_nth. discriminate.
  - cbn [action]. split.
    + apply GeodesyFacts.normalizeAngle_closed_range.
    + apply classifyTurn_cases.
Qed.

(** The graph built on an empty cache has valid edges, and so the
    heuristic is a lower bound of the weighted cost of its walks. *)
Lemma buildRouteGraph_fresh_valid world budget start end_ graph cache' :
  (forall k, 0 <= Math_random world k < 1) ->
  (forall accidents a,
      accidentQuery world = Some accidents -> In a accidents ->
      0 <= Enrichment.severity_or_5 (Enrichment.severity a)) ->
  buildRouteGraph toString turf_distance ∅ world budget start end_ =
  Some (graph, cache') ->
  edges_valid graph.
Proof.
  intros Hrnd Hsev H. unfold buildRouteGraph in H.
  rewrite lookup_empty in H.
  destruct (generateGridGraph _ budget _ 0.005) as [graph0 |] eqn:Hg;
    [| discriminate].
  inversion H; subst.
  apply EnrichmentFacts.enrichWithAccidentData_edges_valid; [| exact Hsev].
  eapply GraphFacts.generateGridGraph_edges_valid; eassumption.
Qed.

Lemma buildRouteGraph_fresh_admissible
      world budget start end_ graph cache' options from path goal :
  (forall k, 0 <= Math_random world k < 1) ->
  (forall accidents a,
      accidentQuery world = Some accidents -> In a accidents ->
      0 <= Enrichment.severity_or_5 (Enrichment.severity a)) ->
  buildRouteGraph toString turf_distance ∅ world budget start end_ =
  Some (graph, cache') ->
  graph_path graph from path goal ->
  heuristic from goal <= path_cost options path.
Proof.
  intros Hrnd Hsev H Hpath.
  apply path_cost_lower_bound with (graph := graph); [| exact Hpath].
  now apply buildRouteGraph_fresh_valid
    with (world := world) (budget := budget) (start := start) (end_ := end_)
         (cache' := cache').
Qed.

End RouteFacts.

(** ** The route between a point and itself, on a fresh cache *)

Lemma enrichWithAccidentData_nonempty turf_distance graph query :
  graph <> [] ->
  Enrichment.enrichWithAccidentData turf_distance graph query <> [].
Proof.
  intros Hne. destruct query, graph; try contradiction; discriminate.
Qed.

(** With an empty cache the graph is built, on every large enough budget,
    and the route from a point to itself is the nearest node alone, without
    any instruction. *)
Lemma calculateOptimalRoute_same_point
      toFixed toString turf_distance world point preferences :
  exists N, forall budget, (N <= budget)%nat ->
    exists n cache',
      calculateOptimalRoute toFixed toString turf_distance ∅ world budget
                            point point preferences =
      Some (Success (convertToGeoJSON (mkRoute [n] [])) []
                    (mkMetadata 0 0 1 0 0 100
                                (mkCriteria true true true true)),
            cache').
Proof.
  set (bounds := calculateBounds point point 0.02).
  destruct (GraphFacts.generateGridGraph_total (Math_random world) bounds 0.005)
    as [N HN]; [lra |].
  exists (Nat.max N 2). intros budget Hb.
  destruct (HN budget) as [graph0 Hg0]; [lia |].
  destruct (GraphFacts.calculateBounds_nonempty point point 0.02)
    as [Hlat Hlng]; [lra |].
  pose proof (GraphFacts.generateGridGraph_nonempty _ _ _ _ _ Hlat Hlng Hg0)
    as Hne0.
  pose proof (enrichWithAccidentData_nonempty turf_distance graph0
                (accidentQuery world) Hne0) as Hne.
  destruct (findNearestNode_nonempty _ point Hne) as [n Hn].
  exists n. eexists.
  unfold calculateOptimalRoute, buildRouteGraph.
  rewrite lookup_empty. fold bounds. rewrite Hg0.
  rewrite (routeOnGraph_same_node toFixed _ budget point point preferences n);
    [reflexivity | lia | exact Hn | exact Hn].
Qed.

(** ** The properties at concrete routes *)

(** C1, the claim on the route from (0, 0) to (0, 0) on a fresh cache: the
    route succeeds and its instruction list is empty, so it has no
    "arrive" entry. *)
Lemma trivial_route_without_arrive :
  let world := mkWorld (fun _ => 0) (Some []) 0 0 in
  let here := mkCoordinate 0 0 in
  exists budget result cache',
    calculateOptimalRoute (fun _ _ => "") (fun _ => "")
                          Enrichment.turf_haversine ∅ world budget
                          here here noPreferences =
    Some (result, cache') /\
    (exists route metadata, result = Success route [] metadata) /\
    ~ exists route instr metadata,
        result = Success route [instr] metadata /\ action instr = "arrive".
Proof.
  intros world here.
  destruct (calculateOptimalRoute_same_point
              (fun _ _ => "") (fun _ => "") Enrichment.turf_haversine
              world here noPreferences) as [N HN].
  destruct (HN N (Nat.le_refl N)) as (n & cache' & H).
  exists N. eexists. exists cache'.
  split; [exact H |]. split; [eauto |].
  intros (route & instr & metadata & Hr & _). discriminate Hr.
Qed.

(** A cache that holds [graph] for the key of a request, stored at time 0
    and looked up one millisecond later. *)
Lemma buildRouteGraph_cached toString turf_distance graph budget start end_ :
  let cache : GraphCache := {[cacheKey toString start end_ := (graph, 0)]} in
  buildRouteGraph toString turf_distance cache
                  (mkWorld (fun _ => 0) None 1 1) budget start end_ =
  Some (graph, cache).
Proof.
  intros cache. unfold buildRouteGraph, cache.
  rewrite lookup_singleton_eq. cbn [now_lookup].
  unfold cacheExpiry.
  destruct (Rlt_dec (1 - 0) (5 * 60 * 1000)); [reflexivity | lra].
Qed.

(** C1, amended, on a cached graph of one node. *)
Lemma calculateOptimalRoute_trivial_witness :
  let n := new_GraphNode "node_0" 0 0 in
  let here := mkCoordinate 0 0 in
  let cache : GraphCache :=
    {[cacheKey (fun _ => "") here here := ([n], 0)]} in
  exists route metadata,
    calculateOptimalRoute (fun _ _ => "") (fun _ => "")
                          Enrichment.turf_haversine cache
                          (mkWorld (fun _ => 0) None 1 1) 2 here here
                          noPreferences =
    Some (Success route [] metadata, cache) /\
    geometry_coordinates route = [(lng n, lat n)] /\
    waypoints metadata = 1%nat /\
    totalDistanceKm metadata = 0 /\
    estimatedTimeMin metadata = 0.
Proof.
  intros n here cache.
  apply (calculateOptimalRoute_trivial
           (fun _ _ => "") (fun _ => "") Enrichment.turf_haversine
           cache (mkWorld (fun _ => 0) None 1 1) 2%nat here here
           noPreferences [n] cache n).
  - lia.
  - apply buildRouteGraph_cached.
  - reflexivity.
  - reflexivity.
Defined.

(** Two nodes half the equator apart, without connection. *)
Lemma findNearestNode_two_nodes :
  let a := new_GraphNode "node_0" 0 0 in
  let b := new_GraphNode "node_1" 0 180 in
  findNearestNode [a; b] (mkCoordinate 0 0) = Some a /\
  findNearestNode [a; b] (mkCoordinate 0 180) = Some b.
Proof.
  intros a b. pose proof PI_RGT_0 as Hpi.
  assert (Hfar : Rltb (6371 * PI) 0 = false).
  { unfold Rltb. destruct (Rlt_dec (6371 * PI) 0); [lra | reflexivity]. }
  assert (Hnear : Rltb 0 (6371 * PI) = true).
  { unfold Rltb. destruct (Rlt_dec 0 (6371 * PI)); [reflexivity | lra]. }
  unfold findNearestNode, nearest_step.
  cbn [fold_left score_ltb fst snd c_lat c_lng lat lng a b new_GraphNode].
  rewrite (GeodesyFacts.haversineDistance_sym 0 180 0 0).
  rewrite !GeodesyFacts.haversineDistance_same,
    GeodesyFacts.haversineDistance_antipode.
  cbn [score_ltb snd]. rewrite Hfar, Hnear.
  split; reflexivity.
Qed.

Lemma isolated_unreachable graph n goal :
  connections n = [] -> goal <> id n -> ~ reachable graph n goal.
Proof.
  intros Hc Hg Hr. inversion Hr as [m Hm | m c g Hin Hrest]; subst.
  - now apply Hg.
  - rewrite Hc in Hin. destruct Hin.
Qed.

(** C5 on a cached graph of two nodes half the equator apart, without
    connection. *)
Lemma calculateOptimalRoute_no_path_witness :
  let a := new_GraphNode "node_0" 0 0 in
  let b := new_GraphNode "node_1" 0 180 in
  let start := mkCoordinate 0 0 in
  let end_ := mkCoordinate 0 180 in
  let cache : GraphCache :=
    {[cacheKey (fun _ => "") start end_ := ([a; b], 0)]} in
  let world := mkWorld (fun _ => 0) None 1 1 in
  (forall options,
      aStarPathfinding [a; b] 2 a b options = Some None) /\
  calculateOptimalRoute (fun _ _ => "") (fun _ => "")
                        Enrichment.turf_haversine cache world 2
                        start end_ noPreferences =
  Some (Failure "No valid route found", cache) /\
  (forall result cache'',
      calculateOptimalRoute (fun _ _ => "") (fun _ => "")
                            Enrichment.turf_haversine cache world 2
                            start end_ noPreferences =
      Some (result, cache'') -> success result = false).
Proof.
  intros a b start end_ cache world.
  apply (calculateOptimalRoute_no_path
           (fun _ _ => "") (fun _ => "") Enrichment.turf_haversine
           cache world 2%nat start end_ noPreferences [a; b] cache a b).
  - lia.
  - apply buildRouteGraph_cached.
  - apply findNearestNode_two_nodes.
  - apply findNearestNode_two_nodes.
  - apply isolated_unreachable; [reflexivity | discriminate].
Defined.

(** C7, amended, at the middle node of a route of three nodes. *)
Lemma generateInstructions_turns_witness :
  let prev := new_GraphNode "node_0" (-1) 0 in
  let curr := new_GraphNode "node_1" 0 0 in
  let next := new_GraphNode "node_2" 60 90 in
  let route := mkRoute [prev; curr; next] [] in
  exists instr,
    nth_error (generateInstructions (fun _ _ => "") route) 1 = Some instr /\
    let t := normalizeAngle
               (calculateBearing (lat curr) (lng curr) (lat next) (lng next)
                - calculateBearing (lat prev) (lng prev) (lat curr) (lng curr))
    in
    -180 <= t <= 180 /\
    (Rabs t <= 30 -> action instr = "straight") /\
    (30 < t < 150 -> action instr = "turn_right") /\
    (-150 < t < -30 -> action instr = "turn_left") /\
    (150 <= Rabs t -> action instr = "u_turn").
Proof.
  intros prev curr next route.
  apply (generateInstructions_turns (fun _ _ => "") route [] prev curr next []).
  reflexivity.
Defined.

(** The classification seen in an instruction list: from a point one
    degree south of (0, 0) through (0, 0) to (60, 90) the turn angle is
    exactly 30 and the instruction reads "straight". *)
Lemma generateInstructions_straight_at_30 :
  let prev := new_GraphNode "node_0" (-1) 0 in
  let curr := new_GraphNode "node_1" 0 0 in
  let next := new_GraphNode "node_2" 60 90 in
  let route := mkRoute [prev; curr; next] [] in
  turnAngleAt prev curr next = 30 /\
  option_map action
             (nth_error (generateInstructions (fun _ _ => "") route) 1) =
  Some "straight".
Proof.
  intros prev curr next route.
  assert (Hangle : turnAngleAt prev curr next = 30).
  { unfold turnAngleAt. cbn [lat lng prev curr next new_GraphNode].
    rewrite GeodesyFacts.calculateBearing_north,
      GeodesyFacts.calculateBearing_30.
    replace (30 - 0) with 30 by ring.
    destruct (GeodesyFacts.normalizeAngle_cases 30)
      as [[[H _] | [[_ H] | [H _]]] _]; [lra | exact H | lra]. }
  split; [exact Hangle |].
  change (nth_error (generateInstructions (fun _ _ => "") route) 1)
    with (Some (mkInstruction 2
                  (fst (classifyTurn (turnAngleAt prev curr next)))
                  (snd (classifyTurn (turnAngleAt prev curr next)))
                  0 (Some (mkCoordinate 0 0)))).
  cbn [option_map action]. rewrite Hangle.
  f_equal. apply classifyTurn_cases. rewrite Rabs_right; lra.
Qed.

(** ** The nearest node *)

Lemma nearest_step_by_inv dist processed acc m :
  nearest_inv_by dist processed acc ->
  nearest_inv_by dist (processed ++ [m]) (nearest_step_by dist acc m).
Proof.
  unfold nearest_step_by.
  intros [[-> Hnan] | (before & n & after & d & -> & -> & Hn & Hb & Ha)].
  - destruct (dist m) as [dm |] eqn:Hm.
    + right. exists processed, m, [], dm. cbn [snd score_ltb].
      repeat split; [exact Hm | | constructor].
      eapply List.Forall_impl; [| exact Hnan]. cbn. intros a Ha da Hda.
      rewrite Ha in Hda. discriminate.
    + left. split; [reflexivity |].
      apply Forall_app. split; [exact Hnan |]. now constructor.
  - right. destruct (dist m) as [dm |] eqn:Hm.
    + cbn [snd score_ltb]. unfold Rltb.
      destruct (Rlt_dec dm d) as [Hlt | Hge].
      * exists (before ++ n :: after), m, [], dm.
        repeat split; [exact Hm | | constructor].
        apply Forall_app. split.
        -- eapply List.Forall_impl; [| exact Hb]. cbn. intros a H da Hda.
           specialize (H da Hda). lra.
        -- constructor.
           ++ intros dn Hdn. rewrite Hn in Hdn. injection Hdn as <-. exact Hlt.
           ++ eapply List.Forall_impl; [| exact Ha]. cbn. intros a H da Hda.
              specialize (H da Hda). lra.
      * exists before, n, (after ++ [m]), d. rewrite <- app_assoc. cbn [app].
        repeat split; [exact Hn | exact Hb |].
        apply Forall_app. split; [exact Ha |]. constructor; [| constructor].
        intros da Hda. rewrite Hm in Hda. injection Hda as <-. lra.
    + exists before, n, (after ++ [m]), d. rewrite <- app_assoc. cbn [app].
      repeat split; [exact Hn | exact Hb |].
      apply Forall_app. split; [exact Ha |]. constructor; [| constructor].
      intros da Hda. rewrite Hm in Hda. discriminate.
Qed.

Lemma nearest_fold_by_inv dist rest : forall processed acc,
  nearest_inv_by dist processed acc ->
  nearest_inv_by dist (processed ++ rest)
                 (fold_left (nearest_step_by dist) rest acc).
Proof.
  induction rest as [| m rest IH]; intros processed acc H; cbn [fold_left].
  - now rewrite app_nil_r.
  - replace (processed ++ m :: rest) with ((processed ++ [m]) ++ rest)
      by (rewrite <- app_assoc; reflexivity).
    apply IH. now apply nearest_step_by_inv.
Qed.

Lemma findNearestNode_by graph point :
  findNearestNode graph point =
  findNearestNodeBy (fun n => Some (distanceTo point n)) graph.
Proof. reflexivity. Qed.

(** X22.  [findNearestNode] is the loop [findNearestNodeBy] run on the
    distances from the point; whatever these are, numbers or NaN, the loop
    returns [null] exactly when no node of the graph has a number for
    distance (so on the empty graph, and on a graph whose nodes are all
    nearly antipodes of the point), and otherwise the first node, in the
    order of the array, among those at the least distance: every node
    before it is strictly farther or at NaN, every node after it is at
    least as far or at NaN. *)
Theorem findNearestNode_spec :
  (forall graph point,
      findNearestNode graph point =
      findNearestNodeBy (fun n => Some (distanceTo point n)) graph) /\
  (forall (dist : GraphNode -> option R) graph,
      match findNearestNodeBy dist graph with
      | None => Forall (fun m => dist m = None) graph
      | Some n =>
          exists before after d,
            graph = before ++ n :: after /\ dist n = Some d /\
            Forall (fun m => forall dm, dist m = Some dm -> d < dm) before /\
            Forall (fun m => forall dm, dist m = Some dm -> d <= dm) after
      end).
Proof.
  split; [exact findNearestNode_by |].
  intros dist graph. unfold findNearestNodeBy.
  pose proof (nearest_fold_by_inv dist graph [] (None, Infinity)
                (or_introl (conj eq_refl (List.Forall_nil _)))) as H.
  cbn [app] in H.
  destruct H as [[H Hnan] | (before & n & after & d & Hg & H & Hn & Hb & Ha)];
    rewrite H; cbn [fst]; eauto 10.
Qed.

(** ** The list of instructions *)

Lemma intermediate_steps conns : forall ns i,
  map step (intermediate i ns conns) = seq (i + 1) (length ns - 2).
Proof.
  induction ns as [| a ns IH]; intros i; [reflexivity |].
  destruct ns as [| b [| c ns']]; try reflexivity.
  rewrite intermediate_unfold. cbn [map step].
  rewrite IH. cbn [length Nat.sub]. rewrite Nat.sub_0_r.
  cbn [seq]. now replace (S i + 1)%nat with (S (i + 1)) by lia.
Qed.

Lemma intermediate_actions conns : forall ns i,
  Forall (fun ins =>
            In (action ins)
               ["straight"; "turn_right"; "turn_left"; "u_turn"]%string)
         (intermediate i ns conns).
Proof.
  induction ns as [| a ns IH]; intros i; [constructor |].
  destruct ns as [| b [| c ns']]; try constructor.
  - cbn [action]. unfold classifyTurn.
    destruct (_ && _); [cbn; auto |].
    destruct (_ && _); [cbn; auto |].
    destruct (Rleb _ _); cbn; auto.
  - apply IH.
Qed.

(** ** The metadata *)

Lemma Math_round_near x : x - / 2 < Math_round x <= x + / 2.
Proof.
  unfold Math_round. destruct (base_Int_part (x + / 2)) as [H1 H2]. lra.
Qed.

Lemma Math_round_integer x : exists z : Z, Math_round x = IZR z.
Proof. unfold Math_round. eauto. Qed.

Lemma Math_round_nonneg x : 0 <= x -> 0 <= Math_round x.
Proof.
  intros Hx. unfold Math_round.
  pose proof (base_Int_part (x + / 2)) as [H1 H2].
  assert (H : -1 < IZR (Int_part (x + / 2))) by lra.
  apply lt_IZR in H. apply IZR_le. lia.
Qed.

Lemma Math_round_gt x (z : Z) : IZR z < Math_round x <-> IZR z + / 2 <= x.
Proof.
  unfold Math_round. destruct (base_Int_part (x + / 2)) as [H1 H2]. split.
  - intros H. apply lt_IZR in H.
    assert (Hz : (z + 1 <= Int_part (x + / 2))%Z) by lia.
    apply IZR_le in Hz. rewrite plus_IZR in Hz. lra.
  - intros H. lra.
Qed.

Lemma metadata_fold_risk conns : forall acc,
  snd (fold_left metadata_step conns acc) =
  fold_left (fun r c => Rmax r (accidentRisk c)) conns (snd acc).
Proof.
  induction conns as [| c conns IH]; intros acc; cbn [fold_left];
    [reflexivity |].
  rewrite IH. destruct acc as [[[d t] a] r]. reflexivity.
Qed.

Lemma fold_max_le conns bound : forall r,
  fold_left (fun r c => Rmax r (accidentRisk c)) conns r <= bound <->
  r <= bound /\ Forall (fun c => accidentRisk c <= bound) conns.
Proof.
  induction conns as [| c conns IH]; intros r; cbn [fold_left].
  - split; [intros; split; [assumption | constructor] | tauto].
  - rewrite IH. split.
    + intros [Hm Hf].
      pose proof (Rmax_l r (accidentRisk c)).
      pose proof (Rmax_r r (accidentRisk c)).
      split; [lra |]. constructor; [lra | exact Hf].
    + intros [Hr Hf]. inversion Hf; subst. split; [| assumption].
      apply Rmax_lub; assumption.
Qed.

Lemma fold_max_ge conns : forall r,
  r <= fold_left (fun r c => Rmax r (accidentRisk c)) conns r.
Proof.
  induction conns as [| c conns IH]; intros r; cbn [fold_left]; [lra |].
  pose proof (IH (Rmax r (accidentRisk c))).
  pose proof (Rmax_l r (accidentRisk c)). lra.
Qed.

(** X24.  In the metadata of a route, [waypoints] is the number of nodes;
    [safePassage] is set exactly when no connection of the route has an
    accident risk above 0.295 (the score [round((1 - maxRisk) * 100)] is
    above 70 from 70.5 on); and when no risk is above 1 the safety score
    is a whole number between 0 and 100. *)
Theorem calculateRouteMetadata_safety :
  forall route,
    let m := calculateRouteMetadata route in
    waypoints m = length (nodes route) /\
    (safePassage (criteria m) = true <->
     Forall (fun c => accidentRisk c <= 0.295) (path_connections route)) /\
    (Forall (fun c => accidentRisk c <= 1) (path_connections route) ->
     0 <= safetyScore m <= 100 /\ exists z : Z, safetyScore m = IZR z).
Proof.
  intros route m. subst m. unfold calculateRouteMetadata.
  pose proof (metadata_fold_risk (path_connections route) (0, 0, 0, 0)) as Hr.
  destruct (fold_left metadata_step (path_connections route) (0, 0, 0, 0))
    as [[[d t] a] r]. cbn [snd] in Hr.
  cbn [waypoints criteria safePassage safetyScore].
  split; [reflexivity |].
  pose proof (fold_max_ge (path_connections route) 0) as Hge.
  rewrite <- Hr in Hge.
  split.
  - unfold Rltb. destruct (Rlt_dec 70 (Math_round ((1 - r) * 100))) as [H | H].
    + split; [intros _ | reflexivity].
      apply (Math_round_gt _ 70) in H.
      assert (Hb : r <= 0.295) by lra. rewrite Hr in Hb.
      now apply fold_max_le in Hb.
    + split; [discriminate |]. intros Hf. exfalso. apply H.
      apply (Math_round_gt _ 70).
      assert (Hb : r <= 0.295).
      { rewrite Hr. apply fold_max_le. split; [lra | exact Hf]. }
      lra.
  - intros Hf.
    assert (Hb : r <= 1).
    { rewrite Hr. apply fold_max_le. split; [lra | exact Hf]. }
    split; [| apply Math_round_integer].
    destruct (Math_round_integer ((1 - r) * 100)) as [z Hz].
    pose proof (Math_round_near ((1 - r) * 100)) as [Hlo Hhi].
    rewrite Hz in *.
    assert (H0 : (-1 < z)%Z) by (apply lt_IZR; lra).
    assert (H1 : (z < 101)%Z) by (apply lt_IZR; lra).
    split; [apply (IZR_le 0); lia | apply (IZR_le z 100); lia].
Qed.

(** X24 on a route of one connection of risk 0.1. *)
Lemma calculateRouteMetadata_safety_witness :
  let c := mkConnection (mkRef "node_1" 0 1) (haversineDistance 0 0 0 1)
                        0.25 0.1 in
  let n0 := mkGraphNode "node_0" 0 0 "intersection" [c] in
  let n1 := mkGraphNode "node_1" 0 1 "intersection" [] in
  let m := calculateRouteMetadata (mkRoute [n0; n1] [c]) in
  safePassage (criteria m) = true /\
  0 <= safetyScore m <= 100 /\ exists z : Z, safetyScore m = IZR z.
Proof.
  intros c n0 n1 m.
  destruct (calculateRouteMetadata_safety (mkRoute [n0; n1] [c]))
    as (_ & Hsafe & Hscore).
  split.
  - apply Hsafe. repeat constructor. cbn. lra.
  - apply Hscore. repeat constructor. cbn. lra.
Defined.

Section ServiceResults.
Variable toFixed : R -> nat -> string.
Variable toString : R -> string.
Variable turf_distance : R * R -> R * R -> R.

(** X23.  For a route of two nodes or more, the instruction list has one
    entry per node, numbered 1, 2, ... in order: first a "start" entry,
    last an "arrive" entry of distance 0, and between them one entry per
    intermediate node, each a "straight", "turn_right", "turn_left" or
    "u_turn". *)
Theorem generateInstructions_shape :
  forall route,
    (2 <= length (nodes route))%nat ->
    let instructions := generateInstructions toFixed route in
    map step instructions = seq 1 (length (nodes route)) /\
    exists first middle last,
      instructions = first :: middle ++ [last] /\
      action first = "start"%string /\
      action last = "arrive"%string /\
      instr_distance last = 0 /\
      Forall (fun ins =>
                In (action ins)
                   ["straight"; "turn_right"; "turn_left"; "u_turn"]%string)
             middle.
Proof.
  intros route Hlen instructions. subst instructions.
  unfold generateInstructions.
  assert (Hb : (length (nodes route) <? 2)%nat = false) by now apply Nat.ltb_ge.
  rewrite Hb. split.
  - rewrite map_app. cbn [map step]. rewrite intermediate_steps.
    cbn [length].
    set (n := length (nodes route)) in *.
    assert (Hl : length (intermediate 1 (nodes route) (path_connections route))
                 = (n - 2)%nat).
    { rewrite <- (length_map step), intermediate_steps. apply length_seq. }
    rewrite Hl.
    replace (seq 1 n) with (seq 1 (S (n - 2) + 1)) by (f_equal; lia).
    rewrite seq_app. cbn [seq app Nat.add].
    do 3 f_equal. lia.
  - eexists _, _, _. split; [reflexivity |]. cbn [action instr_distance].
    repeat split. apply intermediate_actions.
Qed.

Lemma routeOnGraph_results graph budget start end_ preferences :
  (2 <= budget)%nat ->
  exists result,
    routeOnGraph toFixed graph budget start end_ preferences = Some result /\
    match result with
    | Success route instructions metadata =>
        instructions = [] /\ waypoints metadata = 1%nat /\
        length (geometry_coordinates route) = 1%nat /\
        totalDistanceKm metadata = 0 /\ estimatedTimeMin metadata = 0
    | Failure e =>
        e = "No valid route found"%string \/
        (e = "Could not find valid route endpoints"%string /\
         (findNearestNode graph start = None \/
          findNearestNode graph end_ = None))
    end.
Proof.
  intros Hb. unfold routeOnGraph.
  destruct (findNearestNode graph start) as [s |].
  - destruct (findNearestNode graph end_) as [e |].
    + rewrite aStarPathfinding_outcome by exact Hb.
      destruct (String.eqb (id s) (id e)).
      * rewrite calculateRouteMetadata_single. eexists. split; [reflexivity |].
        cbn. repeat split.
      * eexists. split; [reflexivity |]. now left.
    + eexists. split; [reflexivity |]. right. auto.
  - destruct (findNearestNode graph end_); eexists;
      (split; [reflexivity | right; auto]).
Qed.

(** X25.  Once the graph of the request is there, the route computation
    returns within two passes of the search loop, and what it returns is
    one of three results: a success whose route is a single point, with
    one waypoint, distance 0, time 0 and no instruction; the failure "No
    valid route found"; or, only when [findNearestNode] has no node for
    the start or for the end, the failure "Could not find valid route
    endpoints".  No route of two nodes or more is ever returned. *)
Theorem calculateOptimalRoute_results :
  forall cache world budget start end_ preferences graph cache',
    (2 <= budget)%nat ->
    buildRouteGraph toString turf_distance cache world budget start end_ =
    Some (graph, cache') ->
    exists result,
      calculateOptimalRoute toFixed toString turf_distance cache world budget
                            start end_ preferences = Some (result, cache') /\
      match result with
      | Success route instructions metadata =>
          instructions = [] /\ waypoints metadata = 1%nat /\
          length (geometry_coordinates route) = 1%nat /\
          totalDistanceKm metadata = 0 /\ estimatedTimeMin metadata = 0
      | Failure e =>
          e = "No valid route found"%string \/
          (e = "Could not find valid route endpoints"%string /\
           (findNearestNode graph start = None \/
            findNearestNode graph end_ = None))
      end.
Proof.
  intros cache world budget start end_ preferences graph cache' Hb Hg.
  destruct (routeOnGraph_results graph budget start end_ preferences Hb)
    as (result & Hr & Hres).
  exists result. split; [| exact Hres].
  unfold calculateOptimalRoute. now rewrite Hg, Hr.
Qed.

(** X26.  The graph that [buildRouteGraph] returns is the one the cache
    then holds under the key of the request; the entries under other keys
    are as before; and a second call for the same request, made less than
    five minutes after the time stamp of the entry, returns the same graph
    and leaves the cache as it is, without building anything. *)
Theorem buildRouteGraph_cache_round_trip :
  forall cache world budget start end_ graph cache1,
    buildRouteGraph toString turf_distance cache world budget start end_ =
    Some (graph, cache1) ->
    exists timestamp,
      cache1 !! cacheKey toString start end_ = Some (graph, timestamp) /\
      (forall key, key <> cacheKey toString start end_ ->
                   cache1 !! key = cache !! key) /\
      forall world2 budget2,
        now_lookup world2 - timestamp < cacheExpiry ->
        buildRouteGraph toString turf_distance cache1 world2 budget2
                        start end_ =
        Some (graph, cache1).
Proof.
  intros cache world budget start end_ graph cache1 H.
  unfold buildRouteGraph in H.
  assert (Hbuild :
    match generateGridGraph (Math_random world) budget
                            (calculateBounds start end_ 0.02) 0.005 with
    | Some graph0 =>
        Some (Enrichment.enrichWithAccidentData turf_distance graph0
                                                (accidentQuery world),
              <[cacheKey toString start end_ :=
                  (Enrichment.enrichWithAccidentData turf_distance graph0
                                                     (accidentQuery world),
                   now_store world)]> cache)
    | None => None
    end = Some (graph, cache1) ->
    cache1 !! cacheKey toString start end_ = Some (graph, now_store world) /\
    forall key, key <> cacheKey toString start end_ ->
                cache1 !! key = cache !! key).
  { destruct (generateGridGraph _ _ _ _); [| discriminate].
    intros Hs. inversion Hs; subst. split.
    - apply lookup_insert_eq.
    - intros key Hk. now apply lookup_insert_ne. }
  assert (Hfound : exists timestamp,
             cache1 !! cacheKey toString start end_ = Some (graph, timestamp) /\
             forall key, key <> cacheKey toString start end_ ->
                         cache1 !! key = cache !! key).
  { destruct (cache !! cacheKey toString start end_) as [[g t] |] eqn:Hc.
    - destruct (Rlt_dec _ _).
      + inversion H; subst. eauto.
      + destruct (Hbuild H); eauto.
    - destruct (Hbuild H); eauto. }
  destruct Hfound as (t & Ht & Hframe). exists t.
  split; [exact Ht |]. split; [exact Hframe |].
  intros world2 budget2 Hfresh. unfold buildRouteGraph. rewrite Ht.
  destruct (Rlt_dec _ _); [reflexivity | contradiction].
Qed.
End ServiceResults.

(** X23 on a route of two nodes. *)
Lemma generateInstructions_shape_witness :
  let c := mkConnection (mkRef "node_1" 0 1) (haversineDistance 0 0 0 1)
                        0.25 0.1 in
  let n0 := mkGraphNode "node_0" 0 0 "intersection" [c] in
  let n1 := mkGraphNode "node_1" 0 1 "intersection" [] in
  let instructions := generateInstructions (fun _ _ => "") (mkRoute [n0; n1] [c]) in
  map step instructions = seq 1 2 /\
  exists first middle last,
    instructions = first :: middle ++ [last] /\
    action first = "start"%string /\
    action last = "arrive"%string /\
    instr_distance last = 0 /\
    Forall (fun ins =>
              In (action ins)
                 ["straight"; "turn_right"; "turn_left"; "u_turn"]%string)
           middle.
Proof.
  intros c n0 n1.
  apply (generateInstructions_shape (fun _ _ => "") (mkRoute [n0; n1] [c])).
  cbn. lia.
Defined.

(** X25 on a cached graph of one node. *)
Lemma calculateOptimalRoute_results_witness :
  let n := new_GraphNode "node_0" 0 0 in
  let here := mkCoordinate 0 0 in
  let cache : GraphCache :=
    {[cacheKey (fun _ => "") here here := ([n], 0)]} in
  exists result,
    calculateOptimalRoute (fun _ _ => "") (fun _ => "")
                          Enrichment.turf_haversine cache
                          (mkWorld (fun _ => 0) None 1 1) 2 here here
                          noPreferences = Some (result, cache) /\
    match result with
    | Success route instructions metadata =>
        instructions = [] /\ waypoints metadata = 1%nat /\
        length (geometry_coordinates route) = 1%nat /\
        totalDistanceKm metadata = 0 /\ estimatedTimeMin metadata = 0
    | Failure e =>
        e = "No valid route found"%string \/
        (e = "Could not find valid route endpoints"%string /\
         (findNearestNode [n] here = None \/
          findNearestNode [n] here = None))
    end.
Proof.
  intros n here cache.
  apply (calculateOptimalRoute_results
           (fun _ _ => "") (fun _ => "") Enrichment.turf_haversine
           cache (mkWorld (fun _ => 0) None 1 1) 2%nat here here
           noPreferences [n] cache).
  - lia.
  - apply buildRouteGraph_cached.
Defined.

(** X26 on the same cache. *)
Lemma buildRouteGraph_cache_round_trip_witness :
  let n := new_GraphNode "node_0" 0 0 in
  let here := mkCoordinate 0 0 in
  let cache : GraphCache :=
    {[cacheKey (fun _ => "") here here := ([n], 0)]} in
  exists timestamp,
    cache !! cacheKey (fun _ => "") here here = Some ([n], timestamp) /\
    (forall key, key <> cacheKey (fun _ => "") here here ->
                 cache !! key = cache !! key) /\
    forall world2 budget2,
      now_lookup world2 - timestamp < cacheExpiry ->
      buildRouteGraph (fun _ => "") Enrichment.turf_haversine cache world2
                      budget2 here here =
      Some ([n], cache).
Proof.
  intros n here cache.
  apply (buildRouteGraph_cache_round_trip
           (fun _ => "") Enrichment.turf_haversine
           cache (mkWorld (fun _ => 0) None 1 1) 2%nat here here [n] cache).
  apply buildRouteGraph_cached.
Defined.

End ServiceFacts.

(* ================================================================== *)
(** * Properties of the facility lookup *)
(* ================================================================== *)

Module LookupFacts.
Import Js Geodesy Graph Controller Lookup GeodesyFacts ServiceFacts.

(** X27.  [findNearestService] answers with no facility when the query is
    rejected; otherwise it returns one entry per row of the query, in the
    order of the rows, with the name and the coordinates of the row.  With
    [d] the great-circle distance from the location to the facility, and
    for a facility at most 10000 km away, the entry's [distanceKm] is [d]
    rounded to a hundredth of a kilometre, so non-negative and less than
    0.006 away from [d], and its [estimatedTimeMin] is a whole,
    non-negative number of minutes less than 0.6 away from [2 * d] (half
    a unit of rounding, and room for the last digit).  (The query has no
    radius; for a facility that is nearly the antipode of the location the
    source computes NaN for both fields.) *)
Theorem findNearestService_distances :
  forall findAll location serviceType limit,
    let found := findNearestService findAll location serviceType limit in
    match findAll serviceType limit with
    | None => found = []
    | Some services =>
        Forall2 (fun service s =>
                   let d := haversineDistance (c_lat location) (c_lng location)
                                              (row_lat service)
                                              (row_lng service) in
                   service_name s = row_name service /\
                   service_lat s = row_lat service /\
                   service_lng s = row_lng service /\
                   (d <= 10000 ->
                    0 <= distanceKm s /\
                    d - 0.006 < distanceKm s < d + 0.006 /\
                    (exists minutes : Z,
                        service_timeMin s = IZR minutes /\
                        (0 <= minutes)%Z /\
                        2 * d - 0.6 < IZR minutes < 2 * d + 0.6)))
                services found
    end.
Proof.
  intros findAll location serviceType limit found. subst found.
  unfold findNearestService.
  destruct (findAll serviceType limit) as [services |]; [| reflexivity].
  induction services as [| service rest IH]; cbn [map]; constructor;
    [| exact IH].
  cbn [service_name service_lat service_lng distanceKm service_timeMin].
  set (d := haversineDistance _ _ _ _).
  assert (Hd : 0 <= d) by apply haversineDistance_nonneg.
  pose proof (Math_round_near (d * 100)) as Hr.
  pose proof (Math_round_nonneg (d * 100) ltac:(lra)) as Hr0.
  pose proof (Math_round_near (d * 2)) as Ht.
  pose proof (Math_round_nonneg (d * 2) ltac:(lra)) as Ht0.
  split; [reflexivity |]. split; [reflexivity |]. split; [reflexivity |].
  intros _. repeat split; try lra.
  exists (Int_part (d * 2 + / 2)). unfold Math_round in *.
  repeat split; try lra. apply le_IZR. exact Ht0.
Qed.

End LookupFacts.

(* ================================================================== *)
(** * Properties of the route controller *)
(* ================================================================== *)

Module ControllerFacts.
Import Js Service Controller Notions.

Lemma truthy_zero : truthy (JNumber 0) = false.
Proof.
  unfold truthy. destruct (Req_dec_T 0 0) as [_ | H]; [reflexivity | lra].
Qed.

(** C6.  For every request whose [userLocation] has latitude exactly 0 or
    longitude exactly 0, the route controller answers 400 without a call to
    the routing service; when the validation chain found no error, the
    answer is the invalid-location message. *)
Theorem calculateRoute_rejects_zero_coordinate :
  forall findNearestService calculateOptimalRoute this_bound (req : Request),
    prop (prop (body req) "userLocation") "lat" = JNumber 0 \/
    prop (prop (body req) "userLocation") "lng" = JNumber 0 ->
    let outcome :=
      calculateRoute findNearestService calculateOptimalRoute this_bound req in
    fst outcome = [] /\
    status (snd outcome) = 400%nat /\
    (validationErrors req = [] ->
     payload (snd outcome) =
     ErrorMessage "Valid user location (lat, lng) is required").
Proof.
  intros fns cor this_bound req Hzero. unfold calculateRoute.
  destruct (validationErrors req) as [| e es].
  - assert (Hcheck :
              negb (truthy (prop (body req) "userLocation"))
              || negb (truthy (prop (prop (body req) "userLocation") "lat"))
              || negb (truthy (prop (prop (body req) "userLocation") "lng"))
              = true).
    { destruct Hzero as [H | H]; rewrite H, truthy_zero; cbn [negb];
        now rewrite ?orb_true_r. }
    destruct (body req) eqn:Hb;
      try (destruct Hzero as [H | H]; discriminate H);
      rewrite Hcheck; cbn; auto.
  - cbn. repeat split. discriminate.
Qed.

(** C6 at a request for the point (0, 10). *)
Lemma calculateRoute_rejects_zero_coordinate_witness :
  let req :=
    mkRequest
      (JObject [("userLocation",
                 JObject [("lat", JNumber 0); ("lng", JNumber 10)])])
      [] in
  let outcome :=
    calculateRoute (fun _ _ _ => []) (fun _ _ _ _ => Failure "unused") false
                   req in
  fst outcome = [] /\
  status (snd outcome) = 400%nat /\
  (validationErrors req = [] ->
   payload (snd outcome) =
   ErrorMessage "Valid user location (lat, lng) is required").
Proof.
  intros req outcome.
  apply (calculateRoute_rejects_zero_coordinate
           (fun _ _ _ => []) (fun _ _ _ _ => Failure "unused") false req).
  left. reflexivity.
Defined.

(** A body that passes the validation chain, its latitude 0 being in
    range, and is then refused by the handler. *)
Lemma equator_request_valid_but_rejected floatOfText fns cor this_bound :
  let b := JObject [("userLocation",
                     JObject [("lat", JNumber 0); ("lng", JNumber 10)])] in
  validateCalculateRoute floatOfText b = [] /\
  calculateRoute fns cor this_bound
                 (mkRequest b (validateCalculateRoute floatOfText b)) =
  ([], mkResponse 400
         (ErrorMessage "Valid user location (lat, lng) is required")).
Proof.
  intros b.
  assert (Hv : validateCalculateRoute floatOfText b = []).
  { unfold validateCalculateRoute, b. cbn [prop lookup_field String.eqb
      Ascii.eqb Bool.eqb isObject isFloat optional check app].
    unfold Rleb.
    destruct (Rle_dec (-90) 0); [| lra]. destruct (Rle_dec 0 90); [| lra].
    destruct (Rle_dec (-180) 10); [| lra]. destruct (Rle_dec 10 180); [| lra].
    reflexivity. }
  split; [exact Hv |]. rewrite Hv.
  unfold calculateRoute, b. cbn [validationErrors body prop lookup_field
    String.eqb Ascii.eqb Bool.eqb].
  rewrite truthy_zero. reflexivity.
Qed.

(** ** The answers of the handler *)

(** What the lookup finds is truthy: a text of the table, the default, or
    an inherited member. *)
Lemma lookup_or_shelter_truthy own key found :
  (forall k v, own k = Some v -> v <> ""%string) ->
  lookup_or_shelter own key = Some found ->
  truthy found = true.
Proof.
  intros Hown. unfold lookup_or_shelter.
  destruct key; try (intros [= <-]; reflexivity).
  - destruct (own s) as [v |] eqn:E; intros [= <-].
    + cbn. apply negb_true_iff. apply String.eqb_neq. now apply (Hown s).
    + destruct (inherited s); reflexivity.
  - destruct (has_own fields "toString"); intros [= <-]. reflexivity.
Qed.

(** What [inferDestinationType] returns: a text of its table or the
    default, or, for an emergency type named like a member of
    [Object.prototype], that member. *)
Lemma inferDestinationType_cases emergencyType found :
  inferDestinationType emergencyType = Some found ->
  (exists text, found = JString text /\
                In text ["shelter"; "hospital"; "police"]%string) \/
  (exists name, emergencyType = JString name /\ inherited name = true /\
                found = JNative name).
Proof.
  unfold inferDestinationType, lookup_or_shelter.
  destruct emergencyType as [| | b | x | name | fields | name];
    try (intros [= <-]; left; eexists; split; [reflexivity | cbn; auto]).
  - match goal with
    | |- match ?o with _ => _ end = _ -> _ => destruct o as [v |] eqn:E
    end.
    + intros [= <-]. left. exists v. split; [reflexivity |].
      repeat match type of E with
             | match ?x with _ => _ end = _ => destruct x
             end; inversion E; cbn; auto.
    + destruct (inherited name) eqn:Hin; intros [= <-].
      * right. exists name. auto.
      * left. eexists. split; [reflexivity | cbn; auto].
  - destruct (has_own fields "toString"); intros [= <-].
    left. eexists. split; [reflexivity | cbn; auto].
Qed.

(** The end of the handler makes one route computation and answers 200 or
    500. *)
Lemma routeAndReply_replies cor this_bound calls loc dest prefs et dt svcs :
  routeCalls calls = [] ->
  let outcome := routeAndReply cor this_bound calls loc dest prefs et dt svcs in
  (status (snd outcome) = 200%nat \/ status (snd outcome) = 500%nat) /\
  routeCalls (fst outcome) = [CallCalculateOptimalRoute loc dest prefs et] /\
  (status (snd outcome) = 200%nat ->
   exists route instructions metadata answered,
     cor loc dest prefs et = Success route instructions metadata /\
     payload (snd outcome) =
     RouteData route instructions metadata answered svcs /\
     answered_type this_bound et dt answered).
Proof.
  intros Hcalls outcome. subst outcome. unfold routeAndReply, answered_type.
  assert (Hlast : routeCalls (calls ++ [CallCalculateOptimalRoute loc dest
                                                                   prefs et])
                  = [CallCalculateOptimalRoute loc dest prefs et]).
  { unfold routeCalls in *. now rewrite List.filter_app, Hcalls. }
  destruct (cor loc dest prefs et) as [route instructions metadata | e].
  - destruct (truthy dt) eqn:Hdt.
    + cbn [respond fst snd status payload]. repeat split; auto. eauto 10.
    + destruct this_bound.
      * destruct (inferDestinationType et) as [found |] eqn:Hfound.
        -- cbn [respond fst snd status payload]. repeat split; auto.
           exists route, instructions, metadata, found.
           repeat split. now apply inferDestinationType_cases.
        -- cbn [internalError respond fst snd status payload].
           repeat split; auto; discriminate.
      * cbn [internalError respond fst snd status payload].
        repeat split; auto; discriminate.
  - cbn [respond fst snd status payload]. repeat split; auto; discriminate.
Qed.

Lemma calculateRoute_zero_status fns cor this_bound (req : Request) :
  prop (prop (body req) "userLocation") "lat" = JNumber 0 \/
  prop (prop (body req) "userLocation") "lng" = JNumber 0 ->
  status (snd (calculateRoute fns cor this_bound req)) = 400%nat.
Proof.
  intros Hzero. unfold calculateRoute.
  destruct (validationErrors req) as [| e es]; [| reflexivity].
  assert (Hcheck :
            negb (truthy (prop (body req) "userLocation"))
            || negb (truthy (prop (prop (body req) "userLocation") "lat"))
            || negb (truthy (prop (prop (body req) "userLocation") "lng"))
            = true).
  { destruct Hzero as [H | H]; rewrite H, truthy_zero; cbn [negb];
      now rewrite ?orb_true_r. }
  destruct (body req) eqn:Hb;
    try (destruct Hzero as [H | H]; discriminate H);
    rewrite Hcheck; reflexivity.
Qed.

(** A request without validation error whose location and coordinates are
    truthy is not answered with 400. *)
Lemma calculateRoute_located fns cor this_bound (req : Request) :
  validationErrors req = [] ->
  truthy (prop (body req) "userLocation") = true ->
  truthy (prop (prop (body req) "userLocation") "lat") = true ->
  truthy (prop (prop (body req) "userLocation") "lng") = true ->
  status (snd (calculateRoute fns cor this_bound req)) <> 400%nat.
Proof.
  intros Hval Hloc Hlat Hlng. unfold calculateRoute. rewrite Hval.
  assert (Hreply : forall calls loc dest prefs et dt svcs,
    status (snd (routeAndReply cor this_bound calls loc dest prefs et dt svcs))
    <> 400%nat).
  { intros. unfold routeAndReply.
    destruct (cor _ _ _ _); [| discriminate].
    destruct (truthy dt); [discriminate |].
    destruct this_bound; [| discriminate].
    destruct (inferDestinationType et); discriminate. }
  destruct (body req); try discriminate;
    rewrite Hloc, Hlat, Hlng; cbn [negb orb];
    repeat match goal with
           | |- context [if ?c then _ else _] => destruct c
           | |- context [match ?l with [] => _ | _ :: _ => _ end] => destruct l
           | |- context [match ?o with Some _ => _ | None => _ end] =>
               destruct o
           end;
    first [ apply Hreply | discriminate ].
Qed.

(** X28.  The handler answers every request with 200, 400, 404 or 500.
    It answers 400 or 404 without having asked for a route.  It answers
    200 only for a request without validation error, after one route
    computation from the user location of the request, with its
    preferences and emergency type, that succeeded; the answer then
    carries the route, instructions and metadata of that result, and as
    destination type the one of the request when the request has one,
    else what [inferDestinationType] returns for the emergency type: a
    text among "shelter", "hospital" and "police", or, for an emergency
    type such as "constructor" or "toString", the member of
    [Object.prototype] of that name, which is no text. *)
Theorem calculateRoute_replies :
  forall fns cor this_bound (req : Request),
    let outcome := calculateRoute fns cor this_bound req in
    let code := status (snd outcome) in
    In code [200; 400; 404; 500]%nat /\
    (code = 400%nat \/ code = 404%nat -> routeCalls (fst outcome) = []) /\
    (code = 200%nat ->
     validationErrors req = [] /\
     exists destination route instructions metadata answered services,
       routeCalls (fst outcome) =
       [CallCalculateOptimalRoute (prop (body req) "userLocation") destination
                                  (prop (body req) "preferences")
                                  (prop (body req) "emergencyType")] /\
       cor (prop (body req) "userLocation") destination
           (prop (body req) "preferences") (prop (body req) "emergencyType") =
       Success route instructions metadata /\
       payload (snd outcome) =
       RouteData route instructions metadata answered services /\
       answered_type this_bound (prop (body req) "emergencyType")
                     (prop (body req) "destinationType") answered).
Proof.
  intros fns cor this_bound req outcome code. subst code outcome.
  set (loc := prop (body req) "userLocation").
  set (prefs := prop (body req) "preferences").
  set (et := prop (body req) "emergencyType").
  set (dt := prop (body req) "destinationType").
  pose (P := fun o : Outcome =>
    In (status (snd o)) [200; 400; 404; 500]%nat /\
    (status (snd o) = 400%nat \/ status (snd o) = 404%nat ->
     routeCalls (fst o) = []) /\
    (status (snd o) = 200%nat ->
     exists destination route instructions metadata answered services,
       routeCalls (fst o) =
       [CallCalculateOptimalRoute loc destination prefs et] /\
       cor loc destination prefs et = Success route instructions metadata /\
       payload (snd o) =
       RouteData route instructions metadata answered services /\
       answered_type this_bound et dt answered)).
  assert (Hreply : forall calls dest svcs,
    routeCalls calls = [] ->
    P (routeAndReply cor this_bound calls loc dest prefs et dt svcs)).
  { intros calls dest svcs Hcalls.
    destruct (routeAndReply_replies cor this_bound calls loc dest prefs et dt
                svcs Hcalls) as (Hcode & Hlast & Hok).
    split; [| split].
    - destruct Hcode as [-> | ->]; cbn; auto.
    - intros [H | H]; destruct Hcode as [H' | H']; rewrite H' in H;
        discriminate.
    - intros H2.
      destruct (Hok H2) as (route & ins & meta & dt' & Hc & Hp & Ht).
      exists dest, route, ins, meta, dt', svcs. auto. }
  assert (Hfixed : forall calls code p,
    code = 400%nat \/ code = 404%nat \/ code = 500%nat ->
    routeCalls calls = [] ->
    P (respond calls code p)).
  { intros calls code p Hcode Hcalls. unfold P. cbn [respond fst snd status].
    split; [| split].
    - destruct Hcode as [-> | [-> | ->]]; cbn; auto.
    - auto.
    - intros ->. destruct Hcode as [H | [H | H]]; discriminate. }
  destruct (validationErrors req) as [| e es] eqn:Hval.
  - unfold calculateRoute. rewrite Hval.
    match goal with
    | |- In (status (snd ?o)) _ /\ _ => enough (HP : P o)
    end.
    { destruct HP as (H1 & H2 & H3).
      split; [exact H1 |]. split; [exact H2 |].
      intros H. split; [reflexivity | exact (H3 H)]. }
    unfold internalError. subst loc prefs et dt.
    destruct (body req);
      repeat match goal with
             | |- P (if ?c then _ else _) => destruct c
             | |- P (match ?l with [] => _ | _ :: _ => _ end) => destruct l
             | |- P (match ?o with Some _ => _ | None => _ end) => destruct o
             end;
      first [ apply Hreply; reflexivity
            | apply Hfixed; [tauto | reflexivity] ].
  - unfold calculateRoute. rewrite Hval.
    cbn [respond fst snd status]. split; [cbn; auto |].
    split; [reflexivity | discriminate].
Qed.

(** X29.  A handler that runs without its object, as a method handed to
    the router on its own does, never answers 200 to a request without
    destination type: the request is answered with 400 or with 500, also
    when it names a destination and the route computation succeeds. *)
Theorem calculateRoute_detached :
  forall fns cor (req : Request),
    truthy (prop (body req) "destinationType") = false ->
    let outcome := calculateRoute fns cor false req in
    status (snd outcome) = 400%nat \/ status (snd outcome) = 500%nat.
Proof.
  intros fns cor req Hdt outcome. subst outcome. unfold calculateRoute.
  destruct (validationErrors req); [| now left].
  unfold internalError.
  destruct (body req); try (now right); rewrite Hdt;
    (destruct (_ || _); [now left |]);
    (destruct (truthy (prop _ "destination")); [| now right]);
    unfold routeAndReply; rewrite Hdt;
    destruct (cor _ _ _ _); now right.
Qed.

(** X29 on a request that names its destination, with a route computation
    that succeeds. *)
Lemma calculateRoute_detached_witness :
  let req :=
    mkRequest
      (JObject [("userLocation",
                 JObject [("lat", JNumber 10); ("lng", JNumber 20)]);
                ("destination",
                 JObject [("lat", JNumber 10); ("lng", JNumber 20)])])
      [] in
  let cor := fun _ _ _ _ : JsValue =>
    Success (convertToGeoJSON (Pathfinder.mkRoute [] [])) []
            (calculateRouteMetadata (Pathfinder.mkRoute [] [])) in
  let outcome := calculateRoute (fun _ _ _ => []) cor false req in
  status (snd outcome) = 400%nat \/ status (snd outcome) = 500%nat.
Proof.
  intros req cor.
  apply (calculateRoute_detached (fun _ _ _ => []) cor req).
  reflexivity.
Defined.

Section ValidationFacts.
Variable floatOfText : string -> option R.

Lemma check_nil ok message rest :
  check ok message ++ rest = [] -> ok = true /\ rest = [].
Proof. destruct ok; cbn; [auto | discriminate]. Qed.

Lemma isFloat_truthy lo hi v :
  floatOfText "" = None ->
  isFloat floatOfText lo hi v = true ->
  truthy v = false -> v = JNumber 0.
Proof.
  intros Hempty Hf Ht. destruct v; try discriminate.
  - cbn in Ht. destruct (Req_dec_T x 0); [now subst | discriminate].
  - cbn in Ht, Hf. destruct (String.eqb_spec s ""); [| discriminate].
    subst s. rewrite Hempty in Hf. discriminate.
Qed.

(** X30.  A request that passes the validation chain (the empty text
    being no float) is answered with 400 exactly when the latitude or the
    longitude of its user location is the number 0: these requests are
    valid, and refused by the test [!userLocation.lat || !userLocation.lng]
    of the handler; every other valid request gets past that test. *)
Theorem validated_request_refused_iff_zero :
  forall fns cor this_bound b,
    floatOfText "" = None ->
    validateCalculateRoute floatOfText b = [] ->
    let outcome :=
      calculateRoute fns cor this_bound
                     (mkRequest b (validateCalculateRoute floatOfText b)) in
    status (snd outcome) = 400%nat <->
    prop (prop b "userLocation") "lat" = JNumber 0 \/
    prop (prop b "userLocation") "lng" = JNumber 0.
Proof.
  intros fns cor this_bound b Hempty Hvalid outcome. subst outcome.
  rewrite Hvalid.
  pose proof Hvalid as Hv. unfold validateCalculateRoute in Hv.
  apply check_nil in Hv as [Hobj Hv].
  apply check_nil in Hv as [Hlat Hv].
  apply check_nil in Hv as [Hlng _].
  split.
  - intros H400.
    destruct (truthy (prop (prop b "userLocation") "lat")) eqn:Tlat;
      [| left; now apply (isFloat_truthy (-90) 90)].
    destruct (truthy (prop (prop b "userLocation") "lng")) eqn:Tlng;
      [| right; now apply (isFloat_truthy (-180) 180)].
    exfalso.
    apply (calculateRoute_located fns cor this_bound (mkRequest b []));
      cbn [body validationErrors]; auto.
    destruct (prop b "userLocation"); try discriminate. reflexivity.
  - intros Hzero.
    apply (calculateRoute_zero_status fns cor this_bound (mkRequest b [])).
    exact Hzero.
Qed.
End ValidationFacts.

(** X30 on a request for the point (0, 10), with a reading of texts that
    accepts none. *)
Lemma validated_request_refused_iff_zero_witness :
  let b := JObject [("userLocation",
                     JObject [("lat", JNumber 0); ("lng", JNumber 10)])] in
  let outcome :=
    calculateRoute (fun _ _ _ => []) (fun _ _ _ _ => Failure "unused") false
                   (mkRequest b (validateCalculateRoute (fun _ => None) b)) in
  status (snd outcome) = 400%nat <->
  prop (prop b "userLocation") "lat" = JNumber 0 \/
  prop (prop b "userLocation") "lng" = JNumber 0.
Proof.
  intros b.
  apply (validated_request_refused_iff_zero (fun _ => None)
           (fun _ _ _ => []) (fun _ _ _ _ => Failure "unused") false b).
  - reflexivity.
  - apply (proj1 (equator_request_valid_but_rejected
                    (fun _ => None) (fun _ _ _ => [])
                    (fun _ _ _ _ => Failure "unused") false)).
Defined.

End ControllerFacts.
